(** * plr::IniFile -- a shallow embedding of the INI parser and its store

    Source: [src/plr/IniFile.cpp].  The embedding follows the C++ text
    function by function: the cursor primitives ([SkipWhitespace],
    [AdvanceToNext], ...), the body of [IniFile::parse], the two lookups
    [IniFile::getProperty], and the destructor.

    Conventions.
    - A [const char*] into the parsed buffer is an offset ([nat]) into a
      [list ascii] holding the bytes of the buffer.  The byte read at an
      offset is [char_at]; the terminating null of the C string is the first
      ["000"] of the list or, when the list holds none, the position just
      after its last byte.
    - [std::vector] is [list]; [push_back] appends at the end and is taken
      not to fail (the model has no allocation failure); [uint] sizes,
      offsets and counts are [nat] (they count elements held in memory and
      are taken not to wrap).
    - [int] line numbers are [Z], taken not to overflow.
    - A loop of the source that always terminates is a structural recursion
      on the bytes that remain; the main loop of [parse], which need not
      terminate, takes the number of passes it may run. *)

From Stdlib Require Import ZArith Ascii String Uint63 Floats.PrimFloat.
From stdpp Require Import base tactics option list.

Local Open Scope Z_scope.
Local Open Scope nat_scope.
Local Open Scope char_scope.

(** ** Characters and <cctype> *)

Definition NUL : ascii := "000".
Definition QUOTE : ascii := "034".

Definition ascii_eqb (a b : ascii) : bool := Ascii.eqb a b.
Infix "=?c" := ascii_eqb (at level 70, no associativity).

Arguments NUL : simpl never.
Arguments QUOTE : simpl never.
Arguments ascii_eqb : simpl never.

Definition in_range (lo hi : nat) (c : ascii) : bool :=
  (lo <=? nat_of_ascii c)%nat && (nat_of_ascii c <=? hi)%nat.

(** [isdigit], [isalnum] and [isspace] of the "C" locale, on the value
    0..255 of the byte. *)
Definition isdigit (c : ascii) : bool := in_range 48 57 c.
Definition isalnum (c : ascii) : bool :=
  isdigit c || in_range 65 90 c || in_range 97 122 c.
Definition isspace (c : ascii) : bool :=
  (c =?c " ") || in_range 9 13 c.

(** [static const char* kLineEnd = "\n";] *)
Definition kLineEnd : list ascii := ["010"].

(** [strchr(s, c) != 0]: the terminating null of [s] is part of the string
    that [strchr] searches. *)
Fixpoint strchr_found (s : list ascii) (c : ascii) : bool :=
  match s with
  | [] => c =?c NUL
  | x :: s' => if x =?c NUL then c =?c NUL
               else if x =?c c then true else strchr_found s' c
  end.

Definition IsLineEnd (_c : ascii) : bool := strchr_found kLineEnd _c.

(** ** The buffer and the cursor *)

(** [*p] for a pointer [p] into the buffer; at and beyond the end of the list
    sits the terminating null. *)
Definition char_at (buf : list ascii) (p : nat) : ascii :=
  default NUL (buf !! p).

(** The null-terminated string that starts at offset [p]. *)
Fixpoint until_null (s : list ascii) : list ascii :=
  match s with
  | [] => []
  | c :: s' => if c =?c NUL then [] else c :: until_null s'
  end.

Definition cstr (buf : list ascii) (p : nat) : list ascii :=
  until_null (drop p buf).

Definition strlen (buf : list ascii) : nat := length (cstr buf 0).

(** The pair [(const char** _str, int* _line_)] that the primitives update. *)
Record Cursor := mkCursor { c_str : nat; c_line : Z }.

(** The cursor with which [parse] starts: the first byte, [int line = 1]. *)
Definition start : Cursor := {| c_str := 0; c_line := 1 |}.

(** The body shared by the scanning loops: count the line when the byte
    under the cursor is a line end, then move one byte on. *)
Definition step_over (ch : ascii) (c : Cursor) : Cursor :=
  {| c_str := S (c_str c);
     c_line := if IsLineEnd ch then (c_line c + 1)%Z else c_line c |}.

(** [ContainsAny]: inner loop over the null-terminated set [_c]. *)
Fixpoint ContainsAny_inner (b : ascii) (_c : list ascii) : bool :=
  match _c with
  | [] => false
  | c :: _c' => if c =?c NUL then false
                else if b =?c c then true else ContainsAny_inner b _c'
  end.

(** [ContainsAny(_beg, _end, _c)]; [rest] holds the bytes from [_beg] on. *)
Fixpoint ContainsAny_from (rest : list ascii) (_beg _end : nat)
    (_c : list ascii) : bool :=
  match rest with
  | [] => false
  | b :: rest' =>
      if negb (b =?c NUL) && negb (_beg =? _end)%nat then
        if ContainsAny_inner b _c then true
        else ContainsAny_from rest' (S _beg) _end _c
      else false
  end.

Definition ContainsAny (buf : list ascii) (_beg _end : nat)
    (_c : list ascii) : bool :=
  ContainsAny_from (drop _beg buf) _beg _end _c.

(** [SkipWhitespace]: the loop tests [isspace] only, which is false at the
    terminating null. *)
Fixpoint SkipWhitespace_from (rest : list ascii) (c : Cursor) : Cursor :=
  match rest with
  | [] => c
  | ch :: rest' =>
      if isspace ch then SkipWhitespace_from rest' (step_over ch c) else c
  end.

Definition SkipWhitespace (buf : list ascii) (c : Cursor) : Cursor :=
  SkipWhitespace_from (drop (c_str c) buf) c.

(** [AdvanceToNext(_str, _c, _line_)], with its result [**_str != 0]. *)
Fixpoint AdvanceToNext_from (rest : list ascii) (_c : ascii) (c : Cursor)
    : bool * Cursor :=
  match rest with
  | [] => (false, c)
  | ch :: rest' =>
      if negb (ch =?c NUL) && negb (ch =?c _c)
      then AdvanceToNext_from rest' _c (step_over ch c)
      else (negb (ch =?c NUL), c)
  end.

Definition AdvanceToNext (buf : list ascii) (_c : ascii) (c : Cursor)
    : bool * Cursor :=
  AdvanceToNext_from (drop (c_str c) buf) _c c.

Fixpoint AdvanceToNextNonAlphanumeric_from (rest : list ascii) (c : Cursor)
    : bool * Cursor :=
  match rest with
  | [] => (false, c)
  | ch :: rest' =>
      if negb (ch =?c NUL) && isalnum ch
      then AdvanceToNextNonAlphanumeric_from rest' (step_over ch c)
      else (negb (ch =?c NUL), c)
  end.

Definition AdvanceToNextNonAlphanumeric (buf : list ascii) (c : Cursor)
    : bool * Cursor :=
  AdvanceToNextNonAlphanumeric_from (drop (c_str c) buf) c.

Fixpoint AdvanceToNextWhiteSpaceOrComma_from (rest : list ascii) (c : Cursor)
    : bool * Cursor :=
  match rest with
  | [] => (false, c)
  | ch :: rest' =>
      if negb (ch =?c NUL) && negb (isspace ch || (ch =?c ","))
      then AdvanceToNextWhiteSpaceOrComma_from rest' (step_over ch c)
      else (negb (ch =?c NUL), c)
  end.

Definition AdvanceToNextWhiteSpaceOrComma (buf : list ascii) (c : Cursor)
    : bool * Cursor :=
  AdvanceToNextWhiteSpaceOrComma_from (drop (c_str c) buf) c.

(** [SkipLine]: the loop does not count lines; the line terminator, when
    there is one before the null, is consumed and counted afterwards. *)
Fixpoint SkipLine_from (rest : list ascii) (c : Cursor) : Cursor :=
  match rest with
  | [] => c
  | ch :: rest' =>
      if negb (ch =?c NUL) && negb (IsLineEnd ch)
      then SkipLine_from rest' {| c_str := S (c_str c); c_line := c_line c |}
      else if negb (ch =?c NUL)
           then {| c_str := S (c_str c); c_line := (c_line c + 1)%Z |}
           else c
  end.

Definition SkipLine (buf : list ascii) (c : Cursor) : Cursor :=
  SkipLine_from (drop (c_str c) buf) c.

(** ** External collaborators

    [StringHash] (its class is declared outside [src/]; [plr/hash.h] only
    lists the FNV-1a entry points), and the C library's [strtol] and
    [strtod].  They are taken as parameters: every theorem below holds for
    any choice of them.
    - [StringHash s] stands for both constructors, [StringHash(ptr, len)] on
      the [len] bytes at [ptr] and [StringHash(cstring)] on the bytes before
      the null.
    - [strtol s] is [strtol(beg, 0, 0)] and [strtod s] is [strtod(beg, 0)],
      where [s] is the null-terminated string at [beg]. *)
Class Platform := {
  StringHash : list ascii -> Z;
  kInvalidHash : Z;
  strtol : list ascii -> Z;
  strtod : list ascii -> float;
}.

(** ** The store *)

(** Modelled from the spec: [enum class Error] of [plr/IniFile.h], which is
    not under [src/]; "Error taxonomy: FileNotFound, FileIo, Syntax, Ok". *)
Inductive Error := kOk | kFileNotFound | kFileIo | kSyntax.

(** Modelled from the spec: [enum class ValueType] of [plr/IniFile.h]; "the
    inferred scalar type, one of {Bool, Int, Double, String}". *)
Inductive ValueType := kBool | kInt | kDouble | kString.

#[global] Instance ValueType_eq_dec : EqDecision ValueType.
Proof. solve_decision. Defined.

(** Modelled from the spec: [union Value] of [plr/IniFile.h]; "a tagged union
    holding exactly one of: boolean, 64-bit signed integer, 64-bit float, or
    an owned, null-terminated string buffer".  The C++ union carries no tag;
    here the constructor records which member [parse] wrote, [m_int] is the
    [sint64] value and [m_string] the bytes of the owned buffer before its
    null. *)
Inductive Value :=
| VBool (m_bool : bool)
| VInt (m_int : Z)
| VDouble (m_double : float)
| VString (m_string : list ascii).

Definition is_string (v : Value) : bool :=
  match v with VString _ => true | _ => false end.

(** Modelled from the spec: [struct Section] of [plr/IniFile.h], with the
    fields name, key offset and count of the data model.  "Section headers
    open a new Section record capturing the current key-list length as its
    start offset": in the aggregate initialisers
    [{ name, 0u, m_keys.size() }] of [IniFile::parse] the second member is
    therefore the count and the third the key offset. *)
Module Sec.
Record t := mk { m_name : Z; m_count : nat; m_keyOffset : nat }.
End Sec.

(** Modelled from the spec: [struct Key] of [plr/IniFile.h], with the fields
    name, value offset, count and type of the data model.  [Key k;] in
    [IniFile::parse] assigns the other three and leaves [m_type] unassigned
    until the first value is parsed: [None] is that indeterminate state. *)
Module Key.
Record t := mk {
  m_key : Z;
  m_type : option ValueType;
  m_valueOffset : nat;
  m_count : nat
}.
Definition set_type (ty : ValueType) (k : t) : t :=
  {| m_key := m_key k; m_type := Some ty;
     m_valueOffset := m_valueOffset k; m_count := m_count k |}.
Definition incr_count (k : t) : t :=
  {| m_key := m_key k; m_type := m_type k;
     m_valueOffset := m_valueOffset k; m_count := S (m_count k) |}.
End Key.

(** Modelled from the spec: [class Property] of [plr/IniFile.h]; "a view
    exposing: inferred type, value count, and a pointer/reference to the
    first value in the match's contiguous range".  [m_type] is the key's type
    (indeterminate, [None], for a key that has no value yet); [m_first] is
    a [Value*]: [Some i] for the address [m_values.data() + i], [None] for
    the null pointer. *)
Module Property.
Record t := mk {
  m_type : option ValueType;
  m_count : nat;
  m_first : option nat
}.
End Property.

(** The data members of [class IniFile] that [IniFile.cpp] uses. *)
Record IniFile := mkIniFile {
  m_sections : list Sec.t;
  m_keys : list Key.t;
  m_values : list Value
}.

(** The default-constructed store. *)
Definition empty_ini : IniFile :=
  {| m_sections := []; m_keys := []; m_values := [] |}.

(** [v.back()] updated in place. *)
Definition alter_back {A} (f : A -> A) (v : list A) : list A :=
  alter f (pred (length v)) v.

Definition push_section (s : Sec.t) (ini : IniFile) : IniFile :=
  {| m_sections := m_sections ini ++ [s];
     m_keys := m_keys ini; m_values := m_values ini |}.

(** [m_keys.push_back(k); ++m_sections.back().m_count;] *)
Definition push_key (k : Key.t) (ini : IniFile) : IniFile :=
  {| m_sections :=
       alter_back (fun s => Sec.mk (Sec.m_name s) (S (Sec.m_count s))
                                   (Sec.m_keyOffset s)) (m_sections ini);
     m_keys := m_keys ini ++ [k];
     m_values := m_values ini |}.

Definition push_value (v : Value) (ini : IniFile) : IniFile :=
  {| m_sections := m_sections ini; m_keys := m_keys ini;
     m_values := m_values ini ++ [v] |}.

Definition alter_back_key (f : Key.t -> Key.t) (ini : IniFile) : IniFile :=
  {| m_sections := m_sections ini; m_keys := alter_back f (m_keys ini);
     m_values := m_values ini |}.

(** ** IniFile::~IniFile

    The indices [j] of [m_values] on which [delete[] m_values[j].m_string]
    runs, in order.  A key whose type was never assigned has no values. *)
Definition released_of_key (k : Key.t) : list nat :=
  match Key.m_type k with
  | Some kString => seq (Key.m_valueOffset k) (Key.m_count k)
  | _ => []
  end.

Definition released (ini : IniFile) : list nat :=
  concat (map released_of_key (m_keys ini)).

(** The value at index [j] owns a heap buffer. *)
Definition owns (values : list Value) (j : nat) : Prop :=
  is_string (default (VBool false) (values !! j)) = true.

#[global] Instance owns_dec values j : Decision (owns values j).
Proof. unfold owns. apply _. Defined.

(** The indices of the values that own a heap buffer. *)
Definition owned (ini : IniFile) : list nat :=
  filter (owns (m_values ini)) (seq 0 (length (m_values ini))).

(** ** IniFile::parse *)

(** What one pass of the [while] body leaves behind: either the loop goes on
    from a new store and cursor, or [INI_ERROR(line, msg)] is logged and
    [Error::kSyntax] returned with the store as it is at that point. *)
Inductive Outcome :=
| Continue (ini : IniFile) (c : Cursor)
| SyntaxError (line : Z) (msg : string) (ini : IniFile).

(** The scan of one value, lines 181-236. *)
Inductive ValueScan :=
| ScanValue (ty : ValueType) (v : Value) (c : Cursor)
| ScanUnterminated
| ScanInvalid.

(** [while ( *_str == ';') { SkipLine; SkipWhitespace; }]; every pass consumes
    the [';'], so [length buf] passes are never exceeded. *)
Fixpoint skip_comments (fuel : nat) (buf : list ascii) (c : Cursor) : Cursor :=
  match fuel with
  | 0 => c
  | S fuel' =>
      if char_at buf (c_str c) =?c ";"
      then skip_comments fuel' buf (SkipWhitespace buf (SkipLine buf c))
      else c
  end.

Section Parse.
Context `{Platform}.

(** Lines 210-230: the token is [beg, end_) and [l], [d] are read from the
    null-terminated string at [beg]. *)
Definition classify_number (buf : list ascii) (beg end_ : nat)
    : ValueType * Value :=
  let l := strtol (cstr buf beg) in
  let d := strtod (cstr buf beg) in
  if (d =? 0)%float && negb (l =? 0)%Z then (kInt, VInt l)
  else if (l =? 0)%Z && negb (d =? 0)%float then (kDouble, VDouble d)
  else if ContainsAny buf beg end_ [".";"e";"E";"n";"N"]%char
       then (kDouble, VDouble d)
       else (kInt, VInt l).

Definition scan_value (buf : list ascii) (c : Cursor) : ValueScan :=
  let ch := char_at buf (c_str c) in
  if ch =?c QUOTE then
    let beg := S (c_str c) in
    let '(found, c1) :=
      AdvanceToNext buf QUOTE {| c_str := beg; c_line := c_line c |} in
    if negb found then ScanUnterminated
    else
      let n := c_str c1 - beg in
      ScanValue kString (VString (take n (drop beg buf)))
                {| c_str := S (c_str c1); c_line := c_line c1 |}
  else if (ch =?c "t") || (ch =?c "f") then
    ScanValue kBool (VBool (if ch =?c "t" then true else false))
              (AdvanceToNextWhiteSpaceOrComma buf c).2
  else if isdigit ch || (ch =?c "-") || (ch =?c "+") then
    let beg := c_str c in
    let c1 := (AdvanceToNextWhiteSpaceOrComma buf c).2 in
    let '(ty, v) := classify_number buf beg (c_str c1) in
    ScanValue ty v c1
  else ScanInvalid.

(** Lines 166-242: a ['='] or [','] under the cursor. *)
Definition parse_assignment (buf : list ascii) (ini : IniFile) (c : Cursor)
    : Outcome :=
  match last (m_keys ini) with
  | None =>
      SyntaxError (c_line c)
        "Unexpected '=' or ',' no property name was specified" ini
  | Some k =>
      let t := Key.m_type k in
      let c := {| c_str := S (c_str c); c_line := c_line c |} in
      let c := SkipWhitespace buf c in
      let c := skip_comments (length buf) buf c in
      let errline := c_line c in
      match scan_value buf c with
      | ScanUnterminated =>
          SyntaxError errline "Unterminated string"
            (alter_back_key (Key.set_type kString) ini)
      | ScanInvalid => SyntaxError errline "Invalid value" ini
      | ScanValue ty v c' =>
          let ini := push_value v (alter_back_key (Key.set_type ty) ini) in
          if (0 <? Key.m_count k)%nat && negb (bool_decide (Some ty = t))
          then SyntaxError errline
                 "Invalid array (arrays must be homogeneous)" ini
          else Continue (alter_back_key Key.incr_count ini) c'
      end
  end.

(** Lines 150-263: one pass of the body of [while ( *_str != 0)]. *)
Definition parse_body (buf : list ascii) (ini : IniFile) (c : Cursor)
    : Outcome :=
  let c := SkipWhitespace buf c in
  let ch := char_at buf (c_str c) in
  if ch =?c ";" then Continue ini (SkipLine buf c)
  else if ch =?c "[" then
    let beg := S (c_str c) in
    let errline := c_line c in
    let '(found, c1) := AdvanceToNext buf "]" c in
    if negb found then SyntaxError errline "Unterminated section" ini
    else
      let s := Sec.mk (StringHash (take (c_str c1 - beg) (drop beg buf)))
                      0 (length (m_keys ini)) in
      Continue (push_section s ini)
               {| c_str := S (c_str c1); c_line := c_line c1 |}
  else if (ch =?c "=") || (ch =?c ",") then parse_assignment buf ini c
  else if negb (ch =?c NUL) then
    if isdigit ch then
      SyntaxError (c_line c) "Property names cannot begin with a number" ini
    else
      let beg := c_str c in
      let '(found, c1) := AdvanceToNextNonAlphanumeric buf c in
      if negb found then SyntaxError (c_line c1) "Unexpected end of file" ini
      else
        let k := Key.mk (StringHash (take (c_str c1 - beg) (drop beg buf)))
                        None (length (m_values ini)) 0 in
        Continue (push_key k ini) c1
  else Continue ini c.

(** What [parse] returns, the diagnostic it logged, and the store it leaves. *)
Record ParseResult := mkResult {
  r_error : Error;
  r_log : option (Z * string);
  r_ini : IniFile
}.

(** The loop after at most [n] passes: [inl] at the loop head with the store
    and cursor reached so far, [inr] once [parse] has returned. *)
Fixpoint run (n : nat) (buf : list ascii) (ini : IniFile) (c : Cursor)
    : (IniFile * Cursor) + ParseResult :=
  match n with
  | 0 => inl (ini, c)
  | S n' =>
      if char_at buf (c_str c) =?c NUL then inr (mkResult kOk None ini)
      else match parse_body buf ini c with
           | Continue ini' c' => run n' buf ini' c'
           | SyntaxError line msg ini' =>
               inr (mkResult kSyntax (Some (line, msg)) ini')
           end
  end.

(** Lines 143-148: the default section and the line counter. *)
Definition parse_init (ini : IniFile) : IniFile :=
  match m_sections ini with
  | [] => push_section (Sec.mk kInvalidHash 0 (length (m_keys ini))) ini
  | _ => ini
  end.

(** [IniFile::parse(_str)] on the store [ini]; [None] when the loop has not
    returned within [fuel] passes. *)
Definition parse (fuel : nat) (buf : list ascii) (ini : IniFile)
    : option ParseResult :=
  match run fuel buf (parse_init ini) start with
  | inl _ => None
  | inr r => Some r
  end.

(** ** IniFile::getProperty *)

(** Lines 282-288: the first section named [_section], else the range given. *)
Fixpoint find_section (secs : list Sec.t) (_section : Z) (range : nat * nat)
    : nat * nat :=
  match secs with
  | [] => range
  | s :: secs' =>
      if (Sec.m_name s =? _section)%Z
      then (Sec.m_keyOffset s, Sec.m_count s)
      else find_section secs' _section range
  end.

(** [&m_values[i]] of line 294.  The subscript reads no element and is not
    checked against the size: the address is [m_values.data() + i], also for
    the [i] of a key without values, which is [m_values.size()].  A vector
    that has never held an element has no buffer and its [data()] is the null
    pointer, so that [&m_values[0]] is the null pointer there. *)
Definition value_address (values : list Value) (i : nat) : option nat :=
  match values, i with
  | [], 0 => None
  | _, _ => Some i
  end.

(** Lines 290-297: [todo] keys from index [i] on are still to be looked at.
    [None] is an access beyond the end of [m_keys]. *)
Fixpoint scan_keys (values : list Value) (keys : list Key.t) (_key : Z)
    (i todo : nat) (ret : Property.t) : option Property.t :=
  match todo with
  | 0 => Some ret
  | S todo' =>
      match keys !! i with
      | None => None
      | Some k =>
          if (Key.m_key k =? _key)%Z
          then Some (Property.mk (Key.m_type k) (Key.m_count k)
                                 (value_address values (Key.m_valueOffset k)))
          else scan_keys values keys _key (S i) todo' ret
      end
  end.

(** The range of keys that [getProperty] scans: offset and count. *)
Definition search_range (ini : IniFile) (_section : Z) : nat * nat :=
  let whole := (0, length (m_keys ini)) in
  if negb (_section =? kInvalidHash)%Z
  then find_section (m_sections ini) _section whole
  else whole.

(** [getProperty(StringHash _key, StringHash _section)]. *)
Definition getPropertyH (ini : IniFile) (_key _section : Z)
    : option Property.t :=
  let ret := Property.mk (Some kBool) 0 None in
  let '(koff, kcount) := search_range ini _section in
  scan_keys (m_values ini) (m_keys ini) _key koff kcount ret.

(** [getProperty(const char* _key, const char* _section)]; a null [_section]
    is [None]. *)
Definition getProperty (ini : IniFile) (_key : list ascii)
    (_section : option (list ascii)) : option Property.t :=
  let k := StringHash (until_null _key) in
  let s := match _section with
           | Some name => StringHash (until_null name)
           | None => kInvalidHash
           end in
  getPropertyH ini k s.

End Parse.

(** ** A reference platform

    Used to run the model on the concrete buffers of the examples; no
    theorem about the parser depends on it.  Its [strtol] and [strtod] are
    not the C library's outside the literals described below. *)

(** Modelled from the spec: the hash collaborator, "hash(bytes|cstring) ->
    fixed-width unsigned integer, deterministic".  Its body is not under
    [src/]; [plr/hash.h] names it FNV-1a, taken here at 64 bits with the
    published offset basis and prime. *)
Definition Hash64 (_buf : list ascii) (_base : Z) : Z :=
  fold_left (fun h c =>
               (Z.lxor h (Z.of_nat (nat_of_ascii c)) * 1099511628211)
                 mod 2 ^ 64)%Z
            _buf _base.

Definition kFnv1aBase64 : Z := 14695981039346656037.

(** Decimal digits read from the front of [s]: their value (after [acc]),
    how many there are, and what follows them. *)
Fixpoint read_digits (s : list ascii) (acc : Z) (n : nat)
    : Z * nat * list ascii :=
  match s with
  | ch :: s' =>
      if isdigit ch
      then read_digits s' (10 * acc + Z.of_nat (nat_of_ascii ch - 48))%Z (S n)
      else (acc, n, s)
  | [] => (acc, n, s)
  end.

Definition read_sign (s : list ascii) : bool * list ascii :=
  match s with
  | ch :: s' => if ch =?c "-" then (true, s')
                else if ch =?c "+" then (false, s') else (false, s)
  | [] => (false, s)
  end.

(** An optional sign, then the longest run of decimal digits.  This is the
    C library's [strtol(s, 0, 0)] on the literals of the examples only:
    decimal digits that do not start with [0] (with base 0 a leading [0]
    reads as octal and [0x] as hexadecimal) and whose value is within the
    range of [long] (beyond it [strtol] returns [LONG_MAX] or [LONG_MIN]). *)
Definition strtol_decimal (s : list ascii) : Z :=
  let '(neg, s1) := read_sign s in
  let '(v, _, _) := read_digits s1 0 0 in
  if neg then (- v)%Z else v.

(** [sign digits [. digits]] read as the quotient of two exactly represented
    numbers, rounded once.  This is the C library's [strtod(s, 0)] on the
    literals of the examples only: plain decimal literals whose digits fit
    the 53-bit significand and whose power of ten is exact.  It reads no
    exponent, no hexadecimal literal and no [inf] or [nan], which [strtod]
    does, and on longer literals it rounds twice. *)
Definition strtod_decimal (s : list ascii) : float :=
  let '(neg, s1) := read_sign s in
  let '(ip, _, s2) := read_digits s1 0 0 in
  let '(m, k) :=
    match s2 with
    | ch :: s3 =>
        if ch =?c "." then
          let '(m, k, _) := read_digits s3 ip 0 in (m, k)
        else (ip, 0)
    | [] => (ip, 0)
    end in
  let num := PrimFloat.of_uint63 (Uint63.of_Z m) in
  let den := PrimFloat.of_uint63 (Uint63.of_Z (10 ^ Z.of_nat k)) in
  let x := (num / den)%float in
  if neg then (- x)%float else x.

Definition reference_platform : Platform :=
  {| StringHash := fun s => Hash64 s kFnv1aBase64;
     kInvalidHash := 0%Z;
     strtol := strtol_decimal;
     strtod := strtod_decimal |}.

(** Buffers for the examples: the bytes of a string, and a string between
    double quotes. *)
Definition buffer (s : string) : list ascii := list_ascii_of_string s.
Definition quoted (s : string) : list ascii := QUOTE :: buffer s ++ [QUOTE].

(** ** The shape shared by the scanning loops

    Used in proofs only: [scan_while p] moves over the bytes that satisfy
    [p], counting lines; each primitive is an instance of it. *)
Fixpoint scan_while (p : ascii -> bool) (rest : list ascii) (c : Cursor)
    : Cursor :=
  match rest with
  | [] => c
  | ch :: rest' => if p ch then scan_while p rest' (step_over ch c) else c
  end.

Definition not_null (ch : ascii) : bool := negb (ch =?c NUL).

(** The loops that also report whether they stopped before the null. *)
Fixpoint scan_found (p : ascii -> bool) (rest : list ascii) (c : Cursor)
    : bool * Cursor :=
  match rest with
  | [] => (false, c)
  | ch :: rest' =>
      if p ch then scan_found p rest' (step_over ch c) else (not_null ch, c)
  end.

(** The loop conditions of the primitives. *)
Definition until_char (d : ascii) (ch : ascii) : bool :=
  not_null ch && negb (ch =?c d).
Definition while_alnum (ch : ascii) : bool := not_null ch && isalnum ch.
Definition until_space_or_comma (ch : ascii) : bool :=
  not_null ch && negb (isspace ch || (ch =?c ","%char)).
Definition until_line_end (ch : ascii) : bool :=
  not_null ch && negb (IsLineEnd ch).

(** The spec's reading of "the raw token contains one of the characters". *)
Definition token_contains_any (tok set : list ascii) : bool :=
  existsb (fun x => existsb (fun y => x =?c y) set) tok.

(** The store that an outcome carries. *)
Definition outcome_ini (o : Outcome) : IniFile :=
  match o with
  | Continue ini _ => ini
  | SyntaxError _ _ ini => ini
  end.

(** The store of a loop state, running or returned. *)
Definition state_ini (st : (IniFile * Cursor) + ParseResult) : IniFile :=
  match st with
  | inl (ini, _) => ini
  | inr r => r_ini r
  end.

(** ** Properties of a store *)

(** Sections laid end to end from key index [off]. *)
Fixpoint ranges_from (off : nat) (secs : list Sec.t) : Prop :=
  match secs with
  | [] => True
  | s :: secs' =>
      Sec.m_keyOffset s = off /\ ranges_from (off + Sec.m_count s) secs'
  end.

Definition total_count (secs : list Sec.t) : nat :=
  foldr (fun s n => Sec.m_count s + n) 0 secs.

Definition sections_ok (ini : IniFile) : Prop :=
  ranges_from 0 (m_sections ini) /\
  total_count (m_sections ini) = length (m_keys ini).

(** The loop invariant behind the partition of the key list. *)
Definition loop_inv (ini : IniFile) : Prop :=
  sections_ok ini /\ m_sections ini <> [].

(** The same in the words of the data model: the sections partition the key
    list into contiguous ranges in declaration order.  Every section starts
    where the one before it ends, the first one starts at key 0 and the last
    one ends with the key list (so that there are no keys while there is no
    section). *)
Definition sections_partition (ini : IniFile) : Prop :=
  (forall i s s',
     m_sections ini !! i = Some s -> m_sections ini !! S i = Some s' ->
     Sec.m_keyOffset s' = Sec.m_keyOffset s + Sec.m_count s) /\
  (forall s, m_sections ini !! 0 = Some s -> Sec.m_keyOffset s = 0) /\
  (forall s, last (m_sections ini) = Some s ->
     Sec.m_keyOffset s + Sec.m_count s = length (m_keys ini)) /\
  (m_sections ini = [] -> m_keys ini = []).

Section InputShapes.
Context `{Platform}.

(** What the loop finds at the cursor [c] of its head.

    [at_separator]: a ['='] or [','] after white space; the result is the
    cursor at which the value is scanned, after the separator, white space
    and comments. *)
Definition at_separator (buf : list ascii) (c : Cursor) : option Cursor :=
  let c0 := SkipWhitespace buf c in
  let ch := char_at buf (c_str c0) in
  if (ch =?c "=") || (ch =?c ",") then
    Some (skip_comments (length buf) buf
            (SkipWhitespace buf
               {| c_str := S (c_str c0); c_line := c_line c0 |}))
  else None.

(** [next_value]: a separator followed by a value that scans; its inferred
    type, the value, and the cursor after it. *)
Definition next_value (buf : list ascii) (c : Cursor)
    : option (ValueType * Value * Cursor) :=
  match at_separator buf c with
  | Some cv =>
      match scan_value buf cv with
      | ScanValue ty v c' => Some (ty, v, c')
      | _ => None
      end
  | None => None
  end.

(** [reads_values buf c tvs c_end]: from [c] on, the buffer holds the
    separated values [tvs], one after the other, and [c_end] follows the last
    of them. *)
Fixpoint reads_values (buf : list ascii) (c : Cursor)
    (tvs : list (ValueType * Value)) (c_end : Cursor) : Prop :=
  match tvs with
  | [] => c_end = c
  | (ty, v) :: tvs' =>
      exists c', next_value buf c = Some (ty, v, c') /\
                 reads_values buf c' tvs' c_end
  end.

(** [next_name]: a property name after white space (the fourth branch of the
    loop body, past its two error exits); the name and the cursor after it. *)
Definition next_name (buf : list ascii) (c : Cursor)
    : option (list ascii * Cursor) :=
  let c0 := SkipWhitespace buf c in
  let ch := char_at buf (c_str c0) in
  if (ch =?c ";") || (ch =?c "[") || (ch =?c "=") || (ch =?c ",")
     || (ch =?c NUL) || isdigit ch
  then None
  else
    let '(found, c1) := AdvanceToNextNonAlphanumeric buf c0 in
    if found
    then Some (take (c_str c1 - c_str c0) (drop (c_str c0) buf), c1)
    else None.

(** All values of the list have the inferred type [ty]. *)
Definition all_of_type (ty : ValueType) (tvs : list (ValueType * Value))
    : Prop :=
  Forall (fun tv => tv.1 = ty) tvs.

End InputShapes.

(** ** The invariant that the destructor relies on *)

(** The member of the union that a value holds. *)
Definition type_of (v : Value) : ValueType :=
  match v with
  | VBool _ => kBool
  | VInt _ => kInt
  | VDouble _ => kDouble
  | VString _ => kString
  end.

(** Keys laid end to end over the values from index [off]. *)
Fixpoint key_ranges_from (off : nat) (keys : list Key.t) : Prop :=
  match keys with
  | [] => True
  | k :: keys' =>
      Key.m_valueOffset k = off /\ key_ranges_from (off + Key.m_count k) keys'
  end.

Definition total_values (keys : list Key.t) : nat :=
  foldr (fun k n => Key.m_count k + n) 0 keys.

(** Every value in the range of the key is of the type of the key. *)
Definition key_typed (values : list Value) (k : Key.t) : Prop :=
  forall j v,
    Key.m_valueOffset k <= j < Key.m_valueOffset k + Key.m_count k ->
    values !! j = Some v -> Key.m_type k = Some (type_of v).

(** The ranges of the keys tile the value list, and every key is typed. *)
Definition values_ok (ini : IniFile) : Prop :=
  key_ranges_from 0 (m_keys ini) /\
  total_values (m_keys ini) = length (m_values ini) /\
  Forall (key_typed (m_values ini)) (m_keys ini).

(** ** Definitions for the further properties *)

(** The line feeds among the bytes of [s]. *)
Fixpoint line_feeds (s : list ascii) : nat :=
  match s with
  | [] => 0
  | ch :: s' => (if ch =?c "010" then 1 else 0) + line_feeds s'
  end.

(** The 1-based line of offset [p]: one more than the line feeds before it. *)
Definition line_of (buf : list ascii) (p : nat) : Z :=
  (1 + Z.of_nat (line_feeds (take p buf)))%Z.

(** A cursor at or before the null whose line counter is the line of its
    offset. *)
Definition cursor_ok (buf : list ascii) (c : Cursor) : Prop :=
  c_str c <= strlen buf /\ c_line c = line_of buf (c_str c).

(** A byte that starts no token: after white space it is none of [;], [[],
    [=], [,] and the null, and it is not alphanumeric, so that
    [AdvanceToNextNonAlphanumeric] does not move over it. *)
Definition stray (ch : ascii) : bool :=
  negb (ch =?c ";") && negb (ch =?c "[") && negb (ch =?c "=")
  && negb (ch =?c ",") && negb (ch =?c NUL) && negb (isalnum ch).

(** A key after [parse] has gone on: the same name and value offset, and at
    least as many values. *)
Definition key_le (k k' : Key.t) : Prop :=
  Key.m_key k = Key.m_key k' /\
  Key.m_valueOffset k = Key.m_valueOffset k' /\
  Key.m_count k <= Key.m_count k'.

(** A section after [parse] has gone on: the same name and key offset, and at
    least as many keys. *)
Definition sec_le (s s' : Sec.t) : Prop :=
  Sec.m_name s = Sec.m_name s' /\
  Sec.m_keyOffset s = Sec.m_keyOffset s' /\
  Sec.m_count s <= Sec.m_count s'.

(** [ini'] holds what [ini] holds, at the same indices. *)
Definition extends (ini ini' : IniFile) : Prop :=
  m_values ini `prefix_of` m_values ini' /\
  (forall i k, m_keys ini !! i = Some k ->
     exists k', m_keys ini' !! i = Some k' /\ key_le k k') /\
  (forall i s, m_sections ini !! i = Some s ->
     exists s', m_sections ini' !! i = Some s' /\ sec_le s s').

(** The bytes with which a value can start: the tests of lines 181, 198 and
    206. *)
Definition value_start (ch : ascii) : bool :=
  (ch =?c QUOTE) || (ch =?c "t") || (ch =?c "f")
  || isdigit ch || (ch =?c "-") || (ch =?c "+").

(** ** Stores used in the examples, on the reference platform *)

(** Successive calls of [parse] on one store, each with its fuel; [None] when
    one of them does not return. *)
Fixpoint parse_calls `{Platform} (calls : list (nat * list ascii))
    (ini : IniFile) : option IniFile :=
  match calls with
  | [] => Some ini
  | (fuel, buf) :: calls' =>
      match parse fuel buf ini with
      | Some r => parse_calls calls' (r_ini r)
      | None => None
      end
  end.

(** The store that [parse] leaves for the buffer [x = 5]. *)
Definition store_x_5 : IniFile :=
  Eval vm_compute in
    match @parse reference_platform 3 (buffer "x = 5") empty_ini with
    | Some r => r_ini r
    | None => empty_ini
    end.

(** The store after [[a] x = 1 [b] x = 2 [a] y = 3]: two sections of one
    name, two keys of one name. *)
Definition store_a_b_a : IniFile :=
  Eval vm_compute in
    match @parse reference_platform 10
            (buffer "[a] x = 1 [b] x = 2 [a] y = 3") empty_ini with
    | Some r => r_ini r
    | None => empty_ini
    end.

(** * Facts about characters and buffers *)

Lemma ascii_eqb_eq a b : (a =?c b) = true <-> a = b.
Proof. apply Ascii.eqb_eq. Qed.

Lemma ascii_eqb_neq a b : (a =?c b) = false <-> a <> b.
Proof. apply Ascii.eqb_neq. Qed.

Lemma ascii_eqb_refl a : (a =?c a) = true.
Proof. by apply ascii_eqb_eq. Qed.

Lemma isspace_not_null ch : isspace ch = true -> ch <> NUL.
Proof. intros Hs ->. vm_compute in Hs. discriminate. Qed.

Lemma isalnum_not_line_end ch : isalnum ch = true -> IsLineEnd ch = false.
Proof.
  intros Ha. unfold IsLineEnd, kLineEnd, strchr_found.
  destruct ("010" =?c ch)%char eqn:E1.
  { apply ascii_eqb_eq in E1. subst. vm_compute in Ha. discriminate. }
  destruct (ch =?c NUL) eqn:E0.
  { apply ascii_eqb_eq in E0. subst. vm_compute in Ha. discriminate. }
  reflexivity.
Qed.

Lemma char_at_drop buf p : char_at buf p = hd NUL (drop p buf).
Proof.
  unfold char_at. revert p. induction buf as [|x buf IH]; intros [|p]; simpl; auto.
Qed.

Lemma drop_cons_inv (buf : list ascii) p ch rest :
  drop p buf = ch :: rest -> char_at buf p = ch /\ drop (S p) buf = rest.
Proof.
  intros Hd. split.
  - by rewrite char_at_drop, Hd.
  - replace (S p) with (p + 1) by lia. by rewrite <- drop_drop, Hd.
Qed.

Lemma char_at_ge buf p : length buf <= p -> char_at buf p = NUL.
Proof. intros Hp. unfold char_at. by rewrite lookup_ge_None_2. Qed.

Lemma char_at_not_null_lt buf p : char_at buf p <> NUL -> p < length buf.
Proof.
  intros Hc. destruct (decide (p < length buf)) as [|Hn]; [done|].
  exfalso. apply Hc, char_at_ge. lia.
Qed.

Lemma until_null_no_null s : NUL ∉ until_null s.
Proof.
  induction s as [|x s IH]; simpl.
  - apply not_elem_of_nil.
  - destruct (x =?c NUL) eqn:E; [apply not_elem_of_nil|].
    apply ascii_eqb_neq in E. rewrite elem_of_cons. intros [Heq|?]; [congruence|tauto].
Qed.

(** The byte under an offset that lies before the null is not null, and the
    string from there is one byte shorter than from the offset before. *)
Lemma cstr_unfold buf p :
  cstr buf p =
    if char_at buf p =?c NUL then [] else char_at buf p :: cstr buf (S p).
Proof.
  unfold cstr. rewrite char_at_drop.
  destruct (drop p buf) as [|ch rest] eqn:Hd.
  - done.
  - apply drop_cons_inv in Hd as [_ <-]. done.
Qed.

Lemma strlen_split buf p :
  p <= strlen buf -> p + length (cstr buf p) = strlen buf.
Proof.
  unfold strlen. induction p as [|p IH]; intros Hp; [done|].
  assert (Hp' : p <= length (cstr buf 0)) by lia.
  specialize (IH Hp').
  rewrite (cstr_unfold buf p) in IH.
  destruct (char_at buf p =?c NUL); simpl in IH; lia.
Qed.

Lemma char_at_strlen buf : char_at buf (strlen buf) = NUL.
Proof.
  pose proof (strlen_split buf (strlen buf) (le_n _)) as Hs.
  rewrite cstr_unfold in Hs.
  destruct (char_at buf (strlen buf) =?c NUL) eqn:E.
  - by apply ascii_eqb_eq.
  - simpl in Hs. lia.
Qed.

Lemma char_at_not_null_lt_strlen buf p :
  p <= strlen buf -> char_at buf p <> NUL -> p < strlen buf.
Proof.
  intros Hp Hc. destruct (decide (p = strlen buf)) as [->|]; [|lia].
  by rewrite char_at_strlen in Hc.
Qed.

(** * Facts about the cursor primitives *)

Section ScanWhile.
Variable p : ascii -> bool.
Hypothesis p_null : p NUL = false.

Lemma scan_while_from rest c :
  exists k,
    c_str (scan_while p rest c) = c_str c + k /\
    (forall i, i < k -> p (hd NUL (drop i rest)) = true) /\
    p (hd NUL (drop k rest)) = false.
Proof using p_null.
  revert c. induction rest as [|ch rest IH]; intros c; simpl.
  - exists 0. split; [lia|]. split; [lia|done].
  - destruct (p ch) eqn:Hp.
    + destruct (IH (step_over ch c)) as (k & Hk & Hin & Hout).
      exists (S k). simpl in *. split; [lia|]. split; [|done].
      intros [|i] Hi; simpl; [done|]. apply Hin. lia.
    + exists 0. split; [lia|]. split; [lia|done].
Qed.

Lemma scan_found_from rest c :
  scan_found p rest c =
    (not_null (hd NUL (drop (c_str (scan_while p rest c) - c_str c) rest)),
     scan_while p rest c).
Proof using p_null.
  revert c. induction rest as [|ch rest IH]; intros c; simpl.
  - by rewrite drop_nil.
  - destruct (p ch) eqn:Hp.
    + rewrite IH. f_equal.
      destruct (scan_while_from rest (step_over ch c)) as (k & Hk & _).
      rewrite Hk.
      match goal with
      | |- not_null (hd NUL (drop ?a rest)) =
           not_null (hd NUL (drop ?b (ch :: rest))) =>
          replace a with k by (simpl; lia);
          replace b with (S k) by (simpl; lia)
      end.
      done.
    + by rewrite Nat.sub_diag.
Qed.

(** On a buffer: the cursor moves forward over bytes that satisfy [p], stops
    at the first byte that does not, and never passes the terminating null. *)
Lemma scan_while_buf buf c :
  let r := scan_while p (drop (c_str c) buf) c in
  c_str c <= c_str r /\
  (forall i, c_str c <= i < c_str r -> p (char_at buf i) = true) /\
  p (char_at buf (c_str r)) = false /\
  (c_str c <= strlen buf -> c_str r <= strlen buf).
Proof using p_null.
  intros r. subst r.
  destruct (scan_while_from (drop (c_str c) buf) c) as (k & Hk & Hin & Hout).
  rewrite Hk.
  assert (Hrange : forall i, c_str c <= i < c_str c + k ->
                             p (char_at buf i) = true).
  { intros i Hi. rewrite char_at_drop.
    replace i with (c_str c + (i - c_str c)) by lia.
    rewrite <- drop_drop. apply Hin. lia. }
  split; [lia|]. split; [done|]. split.
  - by rewrite char_at_drop, <- drop_drop.
  - intros Hle. destruct (decide (c_str c + k <= strlen buf)) as [|Hn]; [done|].
    exfalso. specialize (Hrange (strlen buf)).
    rewrite char_at_strlen, p_null in Hrange.
    assert (false = true) by (apply Hrange; lia). done.
Qed.

Lemma scan_found_buf buf c :
  scan_found p (drop (c_str c) buf) c =
    (not_null (char_at buf (c_str (scan_while p (drop (c_str c) buf) c))),
     scan_while p (drop (c_str c) buf) c).
Proof using p_null.
  rewrite scan_found_from. f_equal. f_equal.
  rewrite char_at_drop.
  pose proof (scan_while_buf buf c) as Hb. cbv zeta in Hb.
  destruct Hb as (Hle & _).
  rewrite drop_drop. f_equal. f_equal. lia.
Qed.

End ScanWhile.

Lemma SkipWhitespace_scan buf c :
  SkipWhitespace buf c = scan_while isspace (drop (c_str c) buf) c.
Proof.
  unfold SkipWhitespace. generalize (drop (c_str c) buf) as rest.
  intros rest. revert c. induction rest as [|ch rest IH]; intros c; simpl; [done|].
  by rewrite IH.
Qed.

Lemma AdvanceToNext_scan buf d c :
  AdvanceToNext buf d c = scan_found (until_char d) (drop (c_str c) buf) c.
Proof.
  unfold AdvanceToNext. generalize (drop (c_str c) buf) as rest.
  intros rest. revert c. induction rest as [|ch rest IH]; intros c; simpl; [done|].
  by rewrite IH.
Qed.

Lemma AdvanceToNextNonAlphanumeric_scan buf c :
  AdvanceToNextNonAlphanumeric buf c =
    scan_found while_alnum (drop (c_str c) buf) c.
Proof.
  unfold AdvanceToNextNonAlphanumeric. generalize (drop (c_str c) buf) as rest.
  intros rest. revert c. induction rest as [|ch rest IH]; intros c; simpl; [done|].
  by rewrite IH.
Qed.

Lemma AdvanceToNextWhiteSpaceOrComma_scan buf c :
  AdvanceToNextWhiteSpaceOrComma buf c =
    scan_found until_space_or_comma (drop (c_str c) buf) c.
Proof.
  unfold AdvanceToNextWhiteSpaceOrComma. generalize (drop (c_str c) buf) as rest.
  intros rest. revert c. induction rest as [|ch rest IH]; intros c; simpl; [done|].
  by rewrite IH.
Qed.

(** [SkipLine] is the scan to the line end followed by one more step when
    the scan stopped before the null. *)
Lemma SkipLine_from_scan rest c :
  SkipLine_from rest c =
    let r := scan_while until_line_end rest c in
    if not_null (hd NUL (drop (c_str r - c_str c) rest))
    then {| c_str := S (c_str r); c_line := (c_line c + 1)%Z |}
    else {| c_str := c_str r; c_line := c_line c |}.
Proof.
  revert c. induction rest as [|ch rest IH]; intros c; simpl.
  - rewrite drop_nil. simpl. by destruct c.
  - change (negb (ch =?c NUL) && negb (IsLineEnd ch)) with (until_line_end ch).
    destruct (until_line_end ch) eqn:Hc.
    + rewrite IH. cbv zeta.
      apply andb_true_iff in Hc as [_ Hl]. apply negb_true_iff in Hl.
      assert (step_over ch c = {| c_str := S (c_str c); c_line := c_line c |})
        as -> by (unfold step_over; by rewrite Hl).
      destruct (scan_while_from until_line_end eq_refl rest
                  {| c_str := S (c_str c); c_line := c_line c |})
        as (k & Hk & _).
      rewrite Hk. cbn [c_str c_line].
      replace (S (c_str c) + k - S (c_str c)) with k by lia.
      replace (S (c_str c) + k - c_str c) with (S k) by lia.
      done.
    + rewrite Nat.sub_diag. cbn [drop hd].
      change (negb (ch =?c NUL)) with (not_null ch).
      destruct (not_null ch); [done|by destruct c].
Qed.

Lemma SkipLine_scan buf c :
  SkipLine buf c =
    let r := scan_while until_line_end (drop (c_str c) buf) c in
    if not_null (char_at buf (c_str r))
    then {| c_str := S (c_str r); c_line := (c_line c + 1)%Z |}
    else {| c_str := c_str r; c_line := c_line c |}.
Proof.
  unfold SkipLine. rewrite SkipLine_from_scan. cbv zeta.
  pose proof (scan_while_buf until_line_end eq_refl buf c) as Hb.
  cbv zeta in Hb. destruct Hb as (Hle & _).
  rewrite char_at_drop, drop_drop.
  replace (c_str c + (c_str (scan_while until_line_end (drop (c_str c) buf) c)
                      - c_str c))
    with (c_str (scan_while until_line_end (drop (c_str c) buf) c)) by lia.
  done.
Qed.

Lemma until_char_false d ch :
  until_char d ch = false <-> ch = NUL \/ ch = d.
Proof.
  unfold until_char, not_null. rewrite andb_false_iff, !negb_false_iff.
  by rewrite !ascii_eqb_eq.
Qed.

Lemma until_char_true d ch :
  until_char d ch = true <-> ch <> NUL /\ ch <> d.
Proof.
  unfold until_char, not_null. rewrite andb_true_iff, !negb_true_iff.
  by rewrite !ascii_eqb_neq.
Qed.

Lemma not_null_true ch : not_null ch = true <-> ch <> NUL.
Proof. unfold not_null. by rewrite negb_true_iff, ascii_eqb_neq. Qed.

Lemma not_null_false ch : not_null ch = false <-> ch = NUL.
Proof. unfold not_null. by rewrite negb_false_iff, ascii_eqb_eq. Qed.

(** One statement for the four loops that are a plain scan. *)
Lemma scan_bounds p buf c :
  p NUL = false ->
  c_str c <= strlen buf ->
  c_str c <= c_str (scan_while p (drop (c_str c) buf) c) <= strlen buf.
Proof.
  intros Hp Hc. pose proof (scan_while_buf p Hp buf c) as Hb.
  cbv zeta in Hb. destruct Hb as (Hle & _ & _ & Hub). split; [done|by apply Hub].
Qed.

Lemma scan_exit p buf c :
  p NUL = false ->
  p (char_at buf (c_str (scan_while p (drop (c_str c) buf) c))) = false.
Proof.
  intros Hp. pose proof (scan_while_buf p Hp buf c) as Hb.
  cbv zeta in Hb. by destruct Hb as (_ & _ & Hex & _).
Qed.

Lemma SkipLine_bounds buf c :
  c_str c <= strlen buf ->
  c_str c <= c_str (SkipLine buf c) <= strlen buf.
Proof.
  intros Hc. rewrite SkipLine_scan. cbv zeta.
  pose proof (scan_bounds until_line_end buf c eq_refl Hc) as [Hlo Hhi].
  destruct (not_null (char_at buf _)) eqn:Hn; cbn [c_str]; [|lia].
  apply not_null_true in Hn.
  pose proof (char_at_not_null_lt_strlen buf _ Hhi Hn). lia.
Qed.

(** [SkipLine] stops at the null, or just after a line end. *)
Lemma SkipLine_exit buf c :
  let r := SkipLine buf c in
  char_at buf (c_str r) = NUL \/
  (c_str c < c_str r /\ char_at buf (pred (c_str r)) = "010"%char).
Proof.
  cbv zeta. rewrite SkipLine_scan. cbv zeta.
  pose proof (scan_exit until_line_end buf c eq_refl) as Hex.
  pose proof (scan_while_buf until_line_end eq_refl buf c) as Hb.
  cbv zeta in Hb. destruct Hb as (Hle & _).
  set (r := scan_while until_line_end (drop (c_str c) buf) c) in *.
  set (ch := char_at buf (c_str r)) in *.
  destruct (not_null ch) eqn:Hn; cbn [c_str].
  - right. split; [lia|]. cbn [pred]. fold ch.
    unfold until_line_end in Hex. rewrite Hn in Hex. simpl in Hex.
    apply negb_false_iff in Hex. unfold IsLineEnd, kLineEnd, strchr_found in Hex.
    apply not_null_true, ascii_eqb_neq in Hn.
    destruct ("010" =?c ch)%char eqn:E.
    + by apply ascii_eqb_eq in E.
    + rewrite Hn in Hex. by vm_compute in Hex.
  - left. fold ch. by apply not_null_false.
Qed.

(** ** C9 *)

(** C9.  Each of the five cursor primitives is a total function of the buffer
    and the cursor.  Started at or before the terminating null, it leaves the
    cursor at or before the terminating null, never behind where it started,
    and at a byte where its loop condition is false: [SkipWhitespace] at a
    byte that is not white space; [AdvanceToNext] at the null or the
    delimiter; [AdvanceToNextNonAlphanumeric] at the null or a byte that is
    not alphanumeric; [AdvanceToNextWhiteSpaceOrComma] at the null, white
    space or a comma; [SkipLine] at the null or just after a line end.  The
    three [AdvanceTo...] report whether they stopped before the null. *)
Theorem lexer_primitives_total (buf : list ascii) (c : Cursor) (d : ascii) :
  c_str c <= strlen buf ->
  (let r := SkipWhitespace buf c in
   c_str c <= c_str r <= strlen buf /\
   isspace (char_at buf (c_str r)) = false) /\
  (let '(found, r) := AdvanceToNext buf d c in
   c_str c <= c_str r <= strlen buf /\
   found = not_null (char_at buf (c_str r)) /\
   (char_at buf (c_str r) = NUL \/ char_at buf (c_str r) = d)) /\
  (let '(found, r) := AdvanceToNextNonAlphanumeric buf c in
   c_str c <= c_str r <= strlen buf /\
   found = not_null (char_at buf (c_str r)) /\
   (char_at buf (c_str r) = NUL \/ isalnum (char_at buf (c_str r)) = false)) /\
  (let '(found, r) := AdvanceToNextWhiteSpaceOrComma buf c in
   c_str c <= c_str r <= strlen buf /\
   found = not_null (char_at buf (c_str r)) /\
   (char_at buf (c_str r) = NUL \/ isspace (char_at buf (c_str r)) = true \/
    char_at buf (c_str r) = ","%char)) /\
  (let r := SkipLine buf c in
   c_str c <= c_str r <= strlen buf /\
   (char_at buf (c_str r) = NUL \/
    (c_str c < c_str r /\ char_at buf (pred (c_str r)) = "010"%char))).
Proof.
  intros Hc. repeat split.
  - rewrite SkipWhitespace_scan. by apply scan_bounds.
  - rewrite SkipWhitespace_scan. by apply scan_bounds.
  - rewrite SkipWhitespace_scan. by apply scan_exit.
  - rewrite AdvanceToNext_scan, scan_found_buf by done.
    split; [by apply scan_bounds|]. split; [done|].
    apply until_char_false. by apply scan_exit.
  - rewrite AdvanceToNextNonAlphanumeric_scan, scan_found_buf by done.
    split; [by apply scan_bounds|]. split; [done|].
    pose proof (scan_exit while_alnum buf c eq_refl) as Hex.
    unfold while_alnum in Hex. apply andb_false_iff in Hex as [Hex|Hex]; [|by right].
    left. by apply not_null_false.
  - rewrite AdvanceToNextWhiteSpaceOrComma_scan, scan_found_buf by done.
    split; [by apply scan_bounds|]. split; [done|].
    pose proof (scan_exit until_space_or_comma buf c eq_refl) as Hex.
    unfold until_space_or_comma in Hex.
    apply andb_false_iff in Hex as [Hex|Hex]; [left; by apply not_null_false|].
    right. apply negb_false_iff, orb_true_iff in Hex as [Hex|Hex]; [by left|].
    right. by apply ascii_eqb_eq.
  - by apply SkipLine_bounds.
  - by apply SkipLine_bounds.
  - apply SkipLine_exit.
Qed.

(** * Facts about the store *)

Lemma alter_back_snoc {A} (f : A -> A) (l : list A) (x : A) :
  alter_back f (l ++ [x]) = l ++ [f x].
Proof.
  unfold alter_back. rewrite length_app. simpl.
  replace (pred (length l + 1)) with (length l + 0) by lia.
  by rewrite alter_app_r.
Qed.

Lemma alter_back_length {A} (f : A -> A) (l : list A) :
  length (alter_back f l) = length l.
Proof. unfold alter_back. apply length_alter. Qed.

Lemma ranges_from_snoc off secs s :
  ranges_from off (secs ++ [s]) <->
  ranges_from off secs /\ Sec.m_keyOffset s = off + total_count secs.
Proof.
  revert off. induction secs as [|x secs IH]; intros off; simpl.
  - split; [intros [-> _]; split; [done|lia] | intros [_ ->]; split; [lia|done]].
  - rewrite IH. split.
    + intros (-> & Hr & ->). split; [done|lia].
    + intros ((-> & Hr) & ->). split; [done|]. split; [done|lia].
Qed.

Lemma total_count_snoc secs s :
  total_count (secs ++ [s]) = total_count secs + Sec.m_count s.
Proof. induction secs as [|x secs IH]; simpl; lia. Qed.

(** Every section of a well-formed store lies within the key list. *)
Lemma ranges_from_bounds off secs s :
  ranges_from off secs -> s ∈ secs ->
  off <= Sec.m_keyOffset s /\
  Sec.m_keyOffset s + Sec.m_count s <= off + total_count secs.
Proof.
  revert off. induction secs as [|x secs IH]; intros off Hr Hin.
  - by apply elem_of_nil in Hin.
  - simpl in *. destruct Hr as [Hx Hr].
    apply elem_of_cons in Hin as [->|Hin]; [lia|].
    destruct (IH _ Hr Hin). lia.
Qed.

Lemma sections_ok_bounds ini s :
  sections_ok ini -> s ∈ m_sections ini ->
  Sec.m_keyOffset s + Sec.m_count s <= length (m_keys ini).
Proof.
  intros [Hr Ht] Hin. destruct (ranges_from_bounds _ _ _ Hr Hin). lia.
Qed.

(** The two wordings of the invariant agree. *)
Lemma ranges_from_lookup off secs :
  ranges_from off secs <->
  (forall i s s', secs !! i = Some s -> secs !! S i = Some s' ->
     Sec.m_keyOffset s' = Sec.m_keyOffset s + Sec.m_count s) /\
  (forall s, secs !! 0 = Some s -> Sec.m_keyOffset s = off).
Proof.
  revert off. induction secs as [|x secs IH]; intros off; simpl.
  - split; [|done]. intros _. split; intros; simplify_eq.
  - rewrite IH. split.
    + intros (Hx & Hc & H0). split.
      * intros [|i] s s' Hs Hs'; simpl in *; simplify_eq.
        -- by apply H0.
        -- by apply (Hc i).
      * intros s Hs. by simplify_eq.
    + intros (Hc & H0). split; [by apply H0|]. split.
      * intros i s s' Hs Hs'. by apply (Hc (S i)).
      * intros s Hs. rewrite <- (H0 x eq_refl). by apply (Hc 0 x s).
Qed.

Lemma total_count_last off secs s :
  ranges_from off secs -> last secs = Some s ->
  Sec.m_keyOffset s + Sec.m_count s = off + total_count secs.
Proof.
  intros Hr Hl. apply last_Some in Hl as [pre ->].
  apply ranges_from_snoc in Hr as [_ ->]. rewrite total_count_snoc. lia.
Qed.

Lemma sections_partition_ok ini : sections_partition ini <-> sections_ok ini.
Proof.
  unfold sections_partition, sections_ok. split.
  - intros (Hc & H0 & Hl & He). split.
    + apply ranges_from_lookup. by split.
    + destruct (last (m_sections ini)) as [s|] eqn:Hs.
      * rewrite <- (Hl s eq_refl).
        assert (Hr : ranges_from 0 (m_sections ini))
          by (apply ranges_from_lookup; by split).
        by rewrite (total_count_last 0 _ s Hr Hs).
      * apply last_None in Hs. rewrite (He Hs), Hs. done.
  - intros (Hr & Ht). apply ranges_from_lookup in Hr as Hlk.
    destruct Hlk as [Hc H0]. split; [done|]. split; [done|]. split.
    + intros s Hs. rewrite <- Ht. by rewrite (total_count_last 0 _ s Hr Hs).
    + intros He. rewrite He in Ht. simpl in Ht.
      by destruct (m_keys ini).
Qed.

Lemma sections_ok_empty : sections_ok empty_ini.
Proof. by split. Qed.

Lemma sections_ok_push_section name ini :
  sections_ok ini ->
  sections_ok (push_section (Sec.mk name 0 (length (m_keys ini))) ini).
Proof.
  intros [Hr Ht]. split; simpl.
  - apply ranges_from_snoc. split; [done|]. simpl. lia.
  - rewrite total_count_snoc. simpl. lia.
Qed.

Lemma sections_ok_push_key k ini :
  m_sections ini <> [] -> sections_ok ini -> sections_ok (push_key k ini).
Proof.
  intros Hne [Hr Ht]. unfold sections_ok. simpl.
  destruct (m_sections ini) as [|s secs _] using rev_ind; [done|].
  rewrite alter_back_snoc, length_app. simpl.
  apply ranges_from_snoc in Hr as [Hr Hs].
  rewrite total_count_snoc in Ht. split.
  - apply ranges_from_snoc. by split.
  - rewrite total_count_snoc. simpl. lia.
Qed.

Lemma sections_ok_alter_back_key f ini :
  sections_ok ini -> sections_ok (alter_back_key f ini).
Proof. intros [Hr Ht]. split; simpl; [done|]. by rewrite alter_back_length. Qed.

Lemma sections_ok_push_value v ini :
  sections_ok ini -> sections_ok (push_value v ini).
Proof. by intros [Hr Ht]. Qed.

(** * Facts about the loop of [parse] *)

Section ParseFacts.
Context `{Platform}.

Lemma run_add n m buf ini c :
  run (n + m) buf ini c =
    match run n buf ini c with
    | inl (ini', c') => run m buf ini' c'
    | inr r => inr r
    end.
Proof.
  revert ini c. induction n as [|n IH]; intros ini c; simpl; [done|].
  destruct (char_at buf (c_str c) =?c NUL); [done|].
  destruct (parse_body buf ini c); [apply IH|done].
Qed.

(** Once [parse] has returned, more fuel changes nothing. *)
Lemma run_returned n m buf ini c r :
  run n buf ini c = inr r -> n <= m -> run m buf ini c = inr r.
Proof.
  intros Hr Hle. replace m with (n + (m - n)) by lia.
  by rewrite run_add, Hr.
Qed.

Lemma parse_returned n m buf ini r :
  parse n buf ini = Some r -> n <= m -> parse m buf ini = Some r.
Proof.
  unfold parse. intros Hp Hle.
  destruct (run n buf (parse_init ini) start) as [|r'] eqn:Hr; [done|].
  by rewrite (run_returned _ _ _ _ _ _ Hr Hle).
Qed.

Lemma run_S_continue n buf ini c ini' c' :
  char_at buf (c_str c) <> NUL ->
  parse_body buf ini c = Continue ini' c' ->
  run (S n) buf ini c = run n buf ini' c'.
Proof.
  intros Hc Hb. simpl. apply ascii_eqb_neq in Hc. by rewrite Hc, Hb.
Qed.

Lemma run_S_error n buf ini c line msg ini' :
  char_at buf (c_str c) <> NUL ->
  parse_body buf ini c = SyntaxError line msg ini' ->
  run (S n) buf ini c = inr (mkResult kSyntax (Some (line, msg)) ini').
Proof.
  intros Hc Hb. simpl. apply ascii_eqb_neq in Hc. by rewrite Hc, Hb.
Qed.

Lemma loop_inv_init ini : sections_ok ini -> loop_inv (parse_init ini).
Proof.
  intros Hok. unfold parse_init.
  destruct (m_sections ini) as [|s secs] eqn:Hs.
  - split; [by apply sections_ok_push_section|].
    simpl. rewrite Hs. done.
  - split; [done|]. by rewrite Hs.
Qed.

Lemma loop_inv_assignment buf ini c :
  loop_inv ini -> loop_inv (outcome_ini (parse_assignment buf ini c)).
Proof.
  intros [Hok Hne]. unfold parse_assignment.
  destruct (last (m_keys ini)) as [k|]; [|done].
  cbv zeta. destruct (scan_value buf _) as [ty v c'| |]; simpl.
  - destruct (_ && _); simpl; (split; [|done]);
      repeat first [apply sections_ok_alter_back_key
                   |apply sections_ok_push_value]; done.
  - split; [|done]. by apply sections_ok_alter_back_key.
  - done.
Qed.

Lemma loop_inv_body buf ini c :
  loop_inv ini -> loop_inv (outcome_ini (parse_body buf ini c)).
Proof.
  intros Hinv. unfold parse_body. cbv zeta.
  destruct (_ =?c ";"); [done|].
  destruct (_ =?c "[").
  { destruct (AdvanceToNext buf "]" _) as [found c1].
    destruct found; simpl; [|done]. destruct Hinv as [Hok Hne]. split.
    - by apply sections_ok_push_section.
    - simpl. by destruct (m_sections ini). }
  destruct (_ || _); [by apply loop_inv_assignment|].
  destruct (negb _); [|done].
  destruct (isdigit _); [done|].
  destruct (AdvanceToNextNonAlphanumeric buf _) as [found c1].
  destruct found; simpl; [|done]. destruct Hinv as [Hok Hne]. split.
  - by apply sections_ok_push_key.
  - simpl. destruct (m_sections ini) as [|s secs _] using rev_ind; [done|].
    rewrite alter_back_snoc. by destruct secs.
Qed.

Lemma loop_inv_run n buf ini c :
  loop_inv ini -> loop_inv (state_ini (run n buf ini c)).
Proof.
  revert ini c. induction n as [|n IH]; intros ini c Hinv; simpl; [done|].
  destruct (_ =?c NUL); [done|].
  pose proof (loop_inv_body buf ini c Hinv) as Hb.
  destruct (parse_body buf ini c); simpl in Hb; [by apply IH|done].
Qed.

(** ** C5 *)

(** C5.  [parse] keeps the sections a partition of the key list into
    contiguous ranges in declaration order: on a store in which every section
    starts where the one before it ends, the first one at key 0 and the last
    one ending with the key list (the empty store is one), a call that
    returns, with [kOk] or with [kSyntax], leaves a store with the same
    property and with at least one section.  The same holds of the store at
    the head of the loop after any number of passes. *)
Theorem parse_sections_partition (buf : list ascii) (ini : IniFile) :
  sections_partition ini ->
  (forall fuel r,
     parse fuel buf ini = Some r ->
     sections_partition (r_ini r) /\ m_sections (r_ini r) <> []) /\
  (forall n,
     sections_partition (state_ini (run n buf (parse_init ini) start))).
Proof.
  intros Hp. apply sections_partition_ok in Hp.
  pose proof (loop_inv_init ini Hp) as Hinit. split.
  - intros fuel r Hr. unfold parse in Hr.
    pose proof (loop_inv_run fuel buf _ start Hinit) as [Hok Hne].
    destruct (run fuel buf (parse_init ini) start) as [|r'] eqn:Hrun; [done|].
    simplify_eq. simpl in *. split; [by apply sections_partition_ok|done].
  - intros n. apply sections_partition_ok.
    by destruct (loop_inv_run n buf _ start Hinit).
Qed.

End ParseFacts.

(** * The cursor of [parse] stays within the buffer *)

Lemma SkipWhitespace_bounds buf c :
  c_str c <= strlen buf ->
  c_str c <= c_str (SkipWhitespace buf c) <= strlen buf.
Proof. intros Hc. rewrite SkipWhitespace_scan. by apply scan_bounds. Qed.

Lemma step_bounds buf c :
  c_str c <= strlen buf -> char_at buf (c_str c) <> NUL ->
  S (c_str c) <= strlen buf.
Proof. intros Hc Hn. by apply char_at_not_null_lt_strlen. Qed.

Lemma SkipLine_progress buf c :
  char_at buf (c_str c) = ";" -> c_str c < c_str (SkipLine buf c).
Proof.
  intros Hch. rewrite SkipLine_scan. cbv zeta.
  pose proof (scan_while_buf until_line_end eq_refl buf c) as Hb.
  cbv zeta in Hb. destruct Hb as (Hle & _ & Hex & _).
  set (r := scan_while until_line_end (drop (c_str c) buf) c) in *.
  destruct (not_null (char_at buf (c_str r))) eqn:Hn; cbn [c_str]; [lia|].
  destruct (decide (c_str r = c_str c)) as [Heq|]; [|lia].
  rewrite Heq, Hch in Hn. done.
Qed.

(** The fuel [length buf] is enough: the loop over comments ends at a byte
    that does not start a comment. *)
Lemma skip_comments_exit_gen buf : forall fuel c,
  length buf <= c_str c + fuel ->
  char_at buf (c_str (skip_comments fuel buf c)) <> ";".
Proof.
  induction fuel as [|fuel IH]; intros c Hf; simpl.
  - rewrite char_at_ge by lia. done.
  - destruct (char_at buf (c_str c) =?c ";") eqn:E.
    + apply ascii_eqb_eq in E. apply IH.
      pose proof (SkipLine_progress buf c E) as Hp.
      pose proof (scan_while_buf isspace eq_refl buf (SkipLine buf c)) as Hb.
      cbv zeta in Hb. destruct Hb as (Hle & _).
      rewrite SkipWhitespace_scan. lia.
    + by apply ascii_eqb_neq.
Qed.

Lemma skip_comments_exit buf c :
  char_at buf (c_str (skip_comments (length buf) buf c)) <> ";".
Proof. apply skip_comments_exit_gen. lia. Qed.

Lemma skip_comments_bounds buf : forall fuel c,
  c_str c <= strlen buf ->
  c_str c <= c_str (skip_comments fuel buf c) <= strlen buf.
Proof.
  induction fuel as [|fuel IH]; intros c Hc; simpl; [lia|].
  destruct (char_at buf (c_str c) =?c ";"); [|lia].
  pose proof (SkipLine_bounds buf c Hc) as [H1 H2].
  pose proof (SkipWhitespace_bounds buf (SkipLine buf c) H2) as [H3 H4].
  pose proof (IH _ H4). lia.
Qed.

Lemma scan_found_bounds p buf c found c1 :
  p NUL = false ->
  c_str c <= strlen buf ->
  scan_found p (drop (c_str c) buf) c = (found, c1) ->
  c_str c <= c_str c1 <= strlen buf /\
  (found = true -> S (c_str c1) <= strlen buf).
Proof.
  intros Hp Hc Hs. rewrite scan_found_buf in Hs by done. simplify_eq.
  pose proof (scan_bounds p buf c Hp Hc) as Hb. split; [done|].
  intros Hn. apply not_null_true in Hn. apply step_bounds; [lia|done].
Qed.

Section CursorBounds.
Context `{Platform}.

Lemma scan_value_bounds buf c ty v c' :
  c_str c <= strlen buf ->
  scan_value buf c = ScanValue ty v c' ->
  c_str c' <= strlen buf.
Proof.
  intros Hc. unfold scan_value. cbv zeta.
  destruct (char_at buf (c_str c) =?c QUOTE) eqn:E1.
  { apply ascii_eqb_eq in E1.
    assert (Hq : S (c_str c) <= strlen buf).
    { apply step_bounds; [done|]. by rewrite E1. }
    rewrite AdvanceToNext_scan.
    destruct (scan_found _ _ _) as [found c1] eqn:Hs.
    apply scan_found_bounds in Hs as [_ Hf]; [|done..].
    destruct found; [|done]. cbn [negb]. intros Heq. simplify_eq. cbn [c_str].
    by apply Hf. }
  rewrite AdvanceToNextWhiteSpaceOrComma_scan.
  destruct (scan_found _ _ _) as [found c1] eqn:Hs.
  apply scan_found_bounds in Hs as [[_ Hs] _]; [|done..].
  destruct (_ || _).
  { intros Heq. by simplify_eq. }
  destruct (_ || _); [|done].
  cbn [snd]. destruct (classify_number _ _ _). intros Heq. by simplify_eq.
Qed.

Lemma parse_body_bounds buf ini c ini' c' :
  c_str c <= strlen buf ->
  parse_body buf ini c = Continue ini' c' ->
  c_str c' <= strlen buf.
Proof.
  intros Hc. unfold parse_body. cbv zeta.
  pose proof (SkipWhitespace_bounds buf c Hc) as [_ Hw].
  set (c0 := SkipWhitespace buf c) in *.
  set (ch := char_at buf (c_str c0)).
  destruct (ch =?c ";") eqn:E1.
  { intros Heq. simplify_eq. by apply SkipLine_bounds. }
  destruct (ch =?c "[") eqn:E2.
  { rewrite AdvanceToNext_scan.
    destruct (scan_found _ _ _) as [found c1] eqn:Hs.
    apply scan_found_bounds in Hs as [_ Hf]; [|done..].
    destruct found; [|done]. cbn [negb]. intros Heq. simplify_eq. cbn [c_str].
    by apply Hf. }
  destruct ((ch =?c "=") || (ch =?c ",")) eqn:E3.
  { assert (Hn : ch <> NUL).
    { intros Hn. rewrite Hn in E3. done. }
    unfold parse_assignment. destruct (last (m_keys ini)) as [k|]; [|done].
    cbv zeta.
    set (cv := skip_comments _ _ _).
    assert (Hcv : c_str cv <= strlen buf).
    { apply skip_comments_bounds. apply SkipWhitespace_bounds. cbn [c_str].
      by apply step_bounds. }
    destruct (scan_value buf cv) as [ty v c1| |] eqn:Hs; [|done..].
    destruct (_ && _); [done|]. intros Heq. simplify_eq.
    by apply (scan_value_bounds buf cv ty v c'). }
  destruct (negb (ch =?c NUL)); [|intros; by simplify_eq].
  destruct (isdigit ch); [done|].
  rewrite AdvanceToNextNonAlphanumeric_scan.
  destruct (scan_found _ _ _) as [found c1] eqn:Hs.
  apply scan_found_bounds in Hs as [[_ Hs] _]; [|done..].
  destruct found; [|done]. cbn [negb]. intros Heq. by simplify_eq.
Qed.

(** At every head of the loop the cursor is at or before the terminating
    null: no read of [parse] is past the end of the buffer. *)
Lemma run_cursor_bounds n buf : forall ini c ini' c',
  c_str c <= strlen buf ->
  run n buf ini c = inl (ini', c') ->
  c_str c' <= strlen buf.
Proof.
  induction n as [|n IH]; intros ini c ini' c' Hc Hr; simpl in Hr.
  - by simplify_eq.
  - destruct (_ =?c NUL); [done|].
    destruct (parse_body buf ini c) as [ini1 c1|] eqn:Hb; [|done].
    apply (IH ini1 c1 ini' c'); [|done].
    by apply (parse_body_bounds buf ini c ini1).
Qed.

End CursorBounds.

(** * Unterminated tokens *)

Lemma SkipWhitespace_at_null buf c :
  char_at buf (c_str c) = NUL -> SkipWhitespace buf c = c.
Proof.
  intros Hc. unfold SkipWhitespace. rewrite char_at_drop in Hc.
  destruct (drop (c_str c) buf) as [|ch rest]; [done|].
  simpl in *. by subst.
Qed.

Lemma SkipWhitespace_not_null buf c :
  char_at buf (c_str (SkipWhitespace buf c)) <> NUL ->
  char_at buf (c_str c) <> NUL.
Proof. intros Hn Hc. by rewrite SkipWhitespace_at_null in Hn. Qed.

(** A byte that is reached over bytes that are not null lies in the
    null-terminated string of the starting point. *)
Lemma cstr_elem buf k c :
  (forall i, c <= i <= c + k -> char_at buf i <> NUL) ->
  char_at buf (c + k) ∈ cstr buf c.
Proof.
  revert c. induction k as [|k IH]; intros c Hn.
  - rewrite Nat.add_0_r, cstr_unfold.
    assert (Hc : char_at buf c <> NUL) by (apply Hn; lia).
    apply ascii_eqb_neq in Hc. rewrite Hc. apply list_elem_of_here.
  - rewrite cstr_unfold.
    assert (Hc : char_at buf c <> NUL) by (apply Hn; lia).
    apply ascii_eqb_neq in Hc. rewrite Hc. apply list_elem_of_further.
    replace (c + S k) with (S c + k) by lia. apply IH.
    intros i Hi. apply Hn. lia.
Qed.

(** [AdvanceToNext] reports failure when the delimiter does not occur before
    the null. *)
Lemma AdvanceToNext_not_found buf d c :
  d ∉ cstr buf (c_str c) -> (AdvanceToNext buf d c).1 = false.
Proof.
  intros Hd. rewrite AdvanceToNext_scan, scan_found_buf by done. simpl.
  pose proof (scan_while_buf (until_char d) eq_refl buf c) as Hb.
  cbv zeta in Hb. destruct Hb as (Hle & Hin & Hex & _).
  set (r := scan_while (until_char d) (drop (c_str c) buf) c) in *.
  apply until_char_false in Hex as [Hex|Hex]; [by apply not_null_false|].
  destruct (not_null (char_at buf (c_str r))) eqn:Hn; [|done].
  apply not_null_true in Hn. exfalso. apply Hd.
  rewrite <- Hex. replace (c_str r) with (c_str c + (c_str r - c_str c)) by lia.
  apply cstr_elem. intros i Hi.
  destruct (decide (i = c_str r)) as [->|Hne]; [done|].
  assert (Hp : until_char d (char_at buf i) = true) by (apply Hin; lia).
  by apply until_char_true in Hp as [? _].
Qed.

Section Unterminated.
Context `{Platform}.

Lemma parse_body_unterminated_section buf ini c :
  let c0 := SkipWhitespace buf c in
  char_at buf (c_str c0) = "["%char ->
  "]"%char ∉ cstr buf (c_str c0) ->
  parse_body buf ini c =
    SyntaxError (c_line c0) "Unterminated section" ini.
Proof.
  intros c0 Hch Hno. unfold parse_body. cbv zeta. fold c0. rewrite Hch.
  change ("[" =?c ";")%char with false. change ("[" =?c "[")%char with true.
  cbv iota.
  pose proof (AdvanceToNext_not_found buf "]" c0 Hno) as Hf.
  destruct (AdvanceToNext buf "]" c0) as [found c1]. simpl in Hf. by subst.
Qed.

Lemma scan_value_unterminated buf cv :
  char_at buf (c_str cv) = QUOTE ->
  QUOTE ∉ cstr buf (S (c_str cv)) ->
  scan_value buf cv = ScanUnterminated.
Proof.
  intros Hch Hno. unfold scan_value. cbv zeta. rewrite Hch.
  rewrite ascii_eqb_refl.
  pose proof (AdvanceToNext_not_found buf QUOTE
                {| c_str := S (c_str cv); c_line := c_line cv |} Hno) as Hf.
  destruct (AdvanceToNext buf QUOTE _) as [found c1]. simpl in Hf. by subst.
Qed.

Lemma parse_body_at_separator buf ini c cv :
  at_separator buf c = Some cv ->
  parse_body buf ini c = parse_assignment buf ini (SkipWhitespace buf c).
Proof.
  unfold at_separator, parse_body. cbv zeta.
  set (ch := char_at buf (c_str (SkipWhitespace buf c))).
  destruct ((ch =?c "=") || (ch =?c ",")) eqn:Hsep; [|done]. intros _.
  destruct (ch =?c ";") eqn:E1.
  { apply ascii_eqb_eq in E1. rewrite E1 in Hsep. done. }
  destruct (ch =?c "[") eqn:E2.
  { apply ascii_eqb_eq in E2. rewrite E2 in Hsep. done. }
  done.
Qed.

Lemma at_separator_not_null buf c cv :
  at_separator buf c = Some cv -> char_at buf (c_str c) <> NUL.
Proof.
  unfold at_separator. cbv zeta. intros Hs.
  apply SkipWhitespace_not_null. intros Hc. rewrite Hc in Hs. done.
Qed.

Lemma parse_body_unterminated_string buf ini c cv :
  at_separator buf c = Some cv ->
  char_at buf (c_str cv) = QUOTE ->
  QUOTE ∉ cstr buf (S (c_str cv)) ->
  exists line msg ini',
    parse_body buf ini c = SyntaxError line msg ini'.
Proof.
  intros Hsep Hch Hno. rewrite (parse_body_at_separator _ _ _ _ Hsep).
  unfold at_separator in Hsep. cbv zeta in Hsep.
  destruct (_ || _) in Hsep; [|done]. simplify_eq.
  unfold parse_assignment. destruct (last (m_keys ini)) as [k|]; [|by eauto].
  cbv zeta. rewrite (scan_value_unterminated _ _ Hch Hno). by eauto.
Qed.

(** ** Unterminated tokens reached by the loop *)

(** X25.  Unterminated tokens where the loop reaches them.  An input on
    which the loop of [parse] arrives, after [n] passes (it need not: see
    [unterminated_token_behind_stray_byte]), at a section header whose ['[']
    has no [']'] before the end of the buffer, or at a value whose opening
    quote has no closing quote before the end of the buffer, makes [parse]
    return [kSyntax]: the pass that meets the token returns, whatever the
    fuel beyond it.  For the section header the logged message is
    "Unterminated section". *)
Theorem unterminated_token_is_syntax_error
    (buf : list ascii) (ini0 ini : IniFile) (n : nat) (c : Cursor) :
  run n buf (parse_init ini0) start = inl (ini, c) ->
  (char_at buf (c_str (SkipWhitespace buf c)) = "["%char ->
   "]"%char ∉ cstr buf (c_str (SkipWhitespace buf c)) ->
   exists r,
     (forall fuel, n < fuel -> parse fuel buf ini0 = Some r) /\
     r_error r = kSyntax /\
     r_log r = Some (c_line (SkipWhitespace buf c), "Unterminated section"%string)) /\
  (forall cv,
     at_separator buf c = Some cv ->
     char_at buf (c_str cv) = QUOTE ->
     QUOTE ∉ cstr buf (S (c_str cv)) ->
     exists r,
       (forall fuel, n < fuel -> parse fuel buf ini0 = Some r) /\
       r_error r = kSyntax).
Proof.
  intros Hrun.
  assert (Hstep : forall line msg ini',
            char_at buf (c_str c) <> NUL ->
            parse_body buf ini c = SyntaxError line msg ini' ->
            forall fuel, n < fuel ->
            parse fuel buf ini0 =
              Some (mkResult kSyntax (Some (line, msg)) ini')).
  { intros line msg ini' Hc Hb fuel Hfuel. unfold parse.
    replace fuel with (n + S (fuel - S n)) by lia.
    rewrite run_add, Hrun. by rewrite (run_S_error _ _ _ _ _ _ _ Hc Hb). }
  split.
  - intros Hch Hno.
    exists (mkResult kSyntax
              (Some (c_line (SkipWhitespace buf c),
                     "Unterminated section"%string)) ini).
    split; [|done].
    apply Hstep; [|by apply parse_body_unterminated_section].
    apply SkipWhitespace_not_null. by rewrite Hch.
  - intros cv Hsep Hch Hno.
    destruct (parse_body_unterminated_string buf ini c cv Hsep Hch Hno)
      as (line & msg & ini' & Hb).
    exists (mkResult kSyntax (Some (line, msg)) ini').
    split; [|done]. apply Hstep; [|done].
    by apply (at_separator_not_null _ _ _ Hsep).
Qed.

End Unterminated.

(** * Arrays *)

Section Arrays.
Context `{Platform}.

Lemma parse_body_name buf ini c name c1 :
  next_name buf c = Some (name, c1) ->
  char_at buf (c_str c) <> NUL /\
  parse_body buf ini c =
    Continue (push_key (Key.mk (StringHash name) None
                               (length (m_values ini)) 0) ini) c1.
Proof.
  unfold next_name, parse_body. cbv zeta.
  set (c0 := SkipWhitespace buf c). set (ch := char_at buf (c_str c0)).
  destruct (ch =?c ";") eqn:E1; [done|].
  destruct (ch =?c "[") eqn:E2; [done|].
  destruct (ch =?c "=") eqn:E3; [done|].
  destruct (ch =?c ",") eqn:E4; [done|].
  destruct (ch =?c NUL) eqn:E5; [done|].
  destruct (isdigit ch) eqn:E6; [done|]. simpl.
  destruct (AdvanceToNextNonAlphanumeric buf c0) as [found c1'].
  destruct found; [|done]. intros Heq. simplify_eq. split; [|done].
  apply SkipWhitespace_not_null. fold c0 ch. by apply ascii_eqb_neq.
Qed.

Lemma parse_body_value buf ini c ty v c' k :
  next_value buf c = Some (ty, v, c') ->
  last (m_keys ini) = Some k ->
  char_at buf (c_str c) <> NUL /\
  exists line,
    parse_body buf ini c =
      let ini1 := push_value v (alter_back_key (Key.set_type ty) ini) in
      if (0 <? Key.m_count k)%nat &&
         negb (bool_decide (Some ty = Key.m_type k))
      then SyntaxError line "Invalid array (arrays must be homogeneous)" ini1
      else Continue (alter_back_key Key.incr_count ini1) c'.
Proof.
  unfold next_value. intros Hv Hk.
  destruct (at_separator buf c) as [cv|] eqn:Hsep; [|done].
  split; [by apply (at_separator_not_null _ _ _ Hsep)|].
  rewrite (parse_body_at_separator _ _ _ _ Hsep).
  unfold at_separator in Hsep. cbv zeta in Hsep.
  destruct (_ || _) in Hsep; [|done]. simplify_eq.
  unfold parse_assignment. rewrite Hk. cbv zeta.
  destruct (scan_value buf _) as [ty1 v1 c1| |]; [|done..].
  simplify_eq. by eexists.
Qed.

Lemma reads_values_app buf c l1 l2 c_end :
  reads_values buf c (l1 ++ l2) c_end <->
  exists c_mid, reads_values buf c l1 c_mid /\ reads_values buf c_mid l2 c_end.
Proof.
  revert c. induction l1 as [|[ty v] l1 IH]; intros c; simpl.
  - split; [by eauto|]. by intros (c_mid & -> & Hr).
  - split.
    + intros (c' & Hv & Hr). apply IH in Hr as (c_mid & H1 & H2). by eauto.
    + intros (c_mid & (c' & Hv & H1) & H2). exists c'. split; [done|].
      apply IH. by eauto.
Qed.

(** Values of one type after a key that holds none, or holds values of that
    type already: every pass appends one value and counts it. *)
Lemma run_values buf ty tvs : forall ini c c_end pre k,
  m_keys ini = pre ++ [k] ->
  Key.m_count k = 0 \/ Key.m_type k = Some ty ->
  all_of_type ty tvs ->
  reads_values buf c tvs c_end ->
  exists k',
    run (length tvs) buf ini c =
      inl ({| m_sections := m_sections ini;
              m_keys := pre ++ [k'];
              m_values := m_values ini ++ tvs.*2 |}, c_end) /\
    Key.m_key k' = Key.m_key k /\
    Key.m_valueOffset k' = Key.m_valueOffset k /\
    Key.m_count k' = Key.m_count k + length tvs /\
    (tvs <> [] -> Key.m_type k' = Some ty) /\
    (tvs = [] -> k' = k).
Proof.
  induction tvs as [|[ty1 v] tvs IH]; intros ini c c_end pre k Hkeys Hk Hall Hr.
  - simpl in Hr. subst. exists k. simpl. rewrite app_nil_r, <- Hkeys.
    split; [by destruct ini|]. repeat split; [lia|done].
  - apply Forall_cons in Hall as [Hty Hall]. simpl in Hty. subst ty1.
    destruct Hr as (c' & Hv & Hr).
    assert (Hlast : last (m_keys ini) = Some k) by (by rewrite Hkeys, last_snoc).
    destruct (parse_body_value buf ini c ty v c' k Hv Hlast)
      as (Hc & line & Hb).
    cbv zeta in Hb.
    assert (Hchk : (0 <? Key.m_count k)%nat &&
                   negb (bool_decide (Some ty = Key.m_type k)) = false).
    { destruct Hk as [Hk|Hk]; rewrite Hk; [done|].
      rewrite bool_decide_eq_true_2 by done. apply andb_false_r. }
    rewrite Hchk in Hb.
    change (length ((ty, v) :: tvs)) with (S (length tvs)).
    rewrite (run_S_continue _ _ _ _ _ _ Hc Hb).
    set (k1 := Key.incr_count (Key.set_type ty k)).
    edestruct (IH (alter_back_key Key.incr_count
                     (push_value v (alter_back_key (Key.set_type ty) ini)))
                  c' c_end pre k1) as (k' & Hrun & Hkey & Hoff & Hcnt & Hty & Hid).
    { simpl. rewrite Hkeys. by rewrite !alter_back_snoc. }
    { by right. }
    { done. }
    { done. }
    exists k'. split.
    { rewrite Hrun. simpl. rewrite <- app_assoc. reflexivity. }
    split; [done|]. split; [done|]. split; [simpl in *; lia|].
    split; [|done]. intros _.
    destruct tvs as [|tv tvs]; [|by apply Hty].
    by rewrite (Hid eq_refl).
Qed.

(** A list that is not of one type splits at its first odd element. *)
Lemma first_mismatch ty0 (l : list (ValueType * Value)) :
  ~ all_of_type ty0 l ->
  exists pre ty' v' rest,
    l = pre ++ (ty', v') :: rest /\ all_of_type ty0 pre /\ ty' <> ty0.
Proof.
  induction l as [|[ty v] l IH]; intros Hn.
  - exfalso. apply Hn. constructor.
  - destruct (decide (ty = ty0)) as [->|Hne].
    + destruct IH as (pre & ty' & v' & rest & -> & Hall & Hne).
      { intros Hall. apply Hn. by constructor. }
      exists ((ty0, v) :: pre), ty', v', rest. split; [done|].
      split; [by constructor|done].
    + exists [], ty, v, l. split; [done|]. split; [constructor|done].
Qed.

(** ** Arrays reached by the loop *)

(** X24.  Arrays where the loop reaches them.  Take an input on which the
    loop of [parse] arrives, after [n] passes (it need not: see
    [array_behind_stray_byte]), at a property name that is followed by the
    separated values [tvs].  When the values are not all of one inferred type, [parse] returns
    [kSyntax] and logs "Invalid array (arrays must be homogeneous)".  When
    they are all of type [ty], the loop gets past the last of them with the
    key of that name as the last key of the store: it starts at the values
    that follow those of the earlier keys, counts as many values as the list
    has, holds them in order, and has type [ty] unless the list is empty. *)
Theorem arrays_must_be_homogeneous
    (buf : list ascii) (ini0 ini : IniFile) (n : nat) (c0 c c_end : Cursor)
    (name : list ascii) (tvs : list (ValueType * Value)) :
  run n buf (parse_init ini0) start = inl (ini, c0) ->
  next_name buf c0 = Some (name, c) ->
  reads_values buf c tvs c_end ->
  ((~ exists ty, all_of_type ty tvs) ->
   exists r,
     (forall fuel, n + 1 + length tvs <= fuel ->
                   parse fuel buf ini0 = Some r) /\
     r_error r = kSyntax /\
     exists line,
       r_log r =
         Some (line, "Invalid array (arrays must be homogeneous)"%string)) /\
  (forall ty,
     all_of_type ty tvs ->
     exists ini' k,
       run (n + 1 + length tvs) buf (parse_init ini0) start
         = inl (ini', c_end) /\
       last (m_keys ini') = Some k /\
       Key.m_key k = StringHash name /\
       Key.m_valueOffset k = length (m_values ini) /\
       Key.m_count k = length tvs /\
       m_values ini' = m_values ini ++ tvs.*2 /\
       (tvs <> [] -> Key.m_type k = Some ty)).
Proof.
  intros Hrun Hname Hvals.
  destruct (parse_body_name buf ini c0 name c Hname) as [Hc0 Hb0].
  set (k0 := Key.mk (StringHash name) None (length (m_values ini)) 0) in *.
  assert (Hrun1 : run (n + 1) buf (parse_init ini0) start
                    = inl (push_key k0 ini, c)).
  { by rewrite run_add, Hrun, (run_S_continue _ _ _ _ _ _ Hc0 Hb0). }
  split.
  - intros Hmixed.
    destruct tvs as [|[ty0 v0] tvs].
    { exfalso. apply Hmixed. exists kBool. constructor. }
    destruct (first_mismatch ty0 tvs) as (pre & ty' & v' & rest & -> & Hall & Hne).
    { intros Hall. apply Hmixed. exists ty0. by constructor. }
    change ((ty0, v0) :: pre ++ (ty', v') :: rest)
      with (((ty0, v0) :: pre) ++ (ty', v') :: rest) in Hvals.
    apply reads_values_app in Hvals as (c_mid & Hpre & Hbad).
    destruct Hbad as (c' & Hv & _).
    edestruct (run_values buf ty0 ((ty0, v0) :: pre) (push_key k0 ini)
                 c c_mid (m_keys ini) k0)
      as (k' & Hrunv & _ & _ & Hcnt & Hty & _).
    { done. } { by left. } { by constructor. } { done. }
    match type of Hrunv with _ = inl (?i, _) => set (ini1 := i) in * end.
    assert (Hlast : last (m_keys ini1) = Some k') by apply last_snoc.
    destruct (parse_body_value buf ini1 c_mid ty' v' c' k' Hv Hlast)
      as (Hc & line & Hb).
    cbv zeta in Hb. rewrite Hcnt, (Hty ltac:(done)) in Hb.
    rewrite bool_decide_eq_false_2 in Hb by congruence.
    simpl in Hb.
    pose proof (run_S_error 0 _ _ _ _ _ _ Hc Hb) as Hret.
    eexists (mkResult kSyntax (Some (line, _)) _).
    split; [|split; [done|by exists line]].
    intros fuel Hfuel. unfold parse.
    assert (Hret' : run ((n + 1) + (length ((ty0, v0) :: pre) + 1)) buf
                      (parse_init ini0) start = inr _)
      by (rewrite run_add, Hrun1, run_add, Hrunv; exact Hret).
    rewrite (run_returned _ fuel _ _ _ _ Hret'); [done|].
    simpl in Hfuel. rewrite length_app in Hfuel. simpl in *. lia.
  - intros ty Hall.
    edestruct (run_values buf ty tvs (push_key k0 ini) c c_end (m_keys ini) k0)
      as (k' & Hrunv & Hkey & Hoff & Hcnt & Hty & _); [done|by left|done..|].
    eexists _, k'. split.
    { rewrite <- Nat.add_assoc, Nat.add_assoc, run_add, Hrun1. apply Hrunv. }
    simpl. rewrite last_snoc. by repeat split.
Qed.

End Arrays.

(** * The scan of a value *)

Lemma ContainsAny_inner_spec b :
  ContainsAny_inner b [".";"e";"E";"n";"N"]%char =
    existsb (fun y => b =?c y) [".";"e";"E";"n";"N"]%char.
Proof.
  cbn [ContainsAny_inner existsb].
  change ("." =?c NUL)%char with false. change ("e" =?c NUL)%char with false.
  change ("E" =?c NUL)%char with false. change ("n" =?c NUL)%char with false.
  change ("N" =?c NUL)%char with false. cbv iota.
  by repeat destruct (b =?c _).
Qed.

Lemma ContainsAny_from_spec set rest : forall _beg _end,
  _beg <= _end ->
  Forall (fun x => x <> NUL) (take (_end - _beg) rest) ->
  ContainsAny_from rest _beg _end set =
    existsb (fun x => ContainsAny_inner x set) (take (_end - _beg) rest).
Proof.
  induction rest as [|b rest IH]; intros _beg _end Hle Hnn.
  - by rewrite take_nil.
  - cbn [ContainsAny_from].
    destruct (_beg =? _end)%nat eqn:E.
    + apply Nat.eqb_eq in E. subst. rewrite Nat.sub_diag, andb_false_r. done.
    + apply Nat.eqb_neq in E.
      replace (_end - _beg) with (S (_end - S _beg)) in * by lia.
      cbn [take] in *. apply Forall_cons in Hnn as [Hb Hnn].
      apply ascii_eqb_neq in Hb. rewrite Hb. cbn [negb andb existsb].
      destruct (ContainsAny_inner b set); [done|].
      apply IH; [lia|done].
Qed.

(** The token between two offsets, when no null lies between them. *)
Lemma token_not_null buf beg end_ :
  (forall i, beg <= i < end_ -> char_at buf i <> NUL) ->
  Forall (fun x => x <> NUL) (take (end_ - beg) (drop beg buf)).
Proof.
  intros Hn. apply Forall_forall. intros x Hx.
  apply list_elem_of_lookup in Hx as [i Hi].
  apply lookup_take_Some in Hi as [Hi Hlt]. rewrite lookup_drop in Hi.
  assert (Hx : char_at buf (beg + i) = x) by (unfold char_at; by rewrite Hi).
  rewrite <- Hx. apply Hn. lia.
Qed.

Lemma ContainsAny_token buf c :
  let c1 := (AdvanceToNextWhiteSpaceOrComma buf c).2 in
  ContainsAny buf (c_str c) (c_str c1) [".";"e";"E";"n";"N"]%char =
    token_contains_any (take (c_str c1 - c_str c) (drop (c_str c) buf))
                       [".";"e";"E";"n";"N"]%char.
Proof.
  cbv zeta. rewrite AdvanceToNextWhiteSpaceOrComma_scan, scan_found_buf by done.
  cbn [snd].
  pose proof (scan_while_buf until_space_or_comma eq_refl buf c) as Hb.
  cbv zeta in Hb. destruct Hb as (Hle & Hin & _).
  set (c1 := scan_while until_space_or_comma (drop (c_str c) buf) c) in *.
  unfold ContainsAny. rewrite ContainsAny_from_spec; [|done|].
  - unfold token_contains_any.
    generalize (take (c_str c1 - c_str c) (drop (c_str c) buf)) as tok.
    intros tok. induction tok as [|x tok IH]; [done|].
    cbn [existsb]. by rewrite IH, ContainsAny_inner_spec.
  - apply token_not_null. intros i Hi. specialize (Hin i Hi).
    unfold until_space_or_comma in Hin. apply andb_true_iff in Hin as [Hin _].
    by apply not_null_true.
Qed.

Section Values.
Context `{Platform}.

Lemma scan_value_number buf c :
  let ch := char_at buf (c_str c) in
  isdigit ch || (ch =?c "-") || (ch =?c "+") = true ->
  scan_value buf c =
    let c1 := (AdvanceToNextWhiteSpaceOrComma buf c).2 in
    let '(ty, v) := classify_number buf (c_str c) (c_str c1) in
    ScanValue ty v c1.
Proof.
  intros ch Hnum. unfold scan_value. cbv zeta. fold ch.
  destruct (ch =?c QUOTE) eqn:E1.
  { apply ascii_eqb_eq in E1. rewrite E1 in Hnum. by vm_compute in Hnum. }
  destruct (ch =?c "t") eqn:E2.
  { apply ascii_eqb_eq in E2. rewrite E2 in Hnum. by vm_compute in Hnum. }
  destruct (ch =?c "f") eqn:E3.
  { apply ascii_eqb_eq in E3. rewrite E3 in Hnum. by vm_compute in Hnum. }
  cbn [orb]. by rewrite Hnum.
Qed.

(** A number is never classified as a string. *)
Lemma classify_number_cases buf beg end_ :
  exists ty v,
    classify_number buf beg end_ = (ty, v) /\
    ty <> kString /\ ty <> kBool /\ is_string v = false.
Proof.
  unfold classify_number. cbv zeta.
  repeat destruct (_ && _); try destruct (ContainsAny _ _ _ _);
    eexists _, _; (split; [done|]); done.
Qed.

Lemma next_value_number buf c cv :
  at_separator buf c = Some cv ->
  (let ch := char_at buf (c_str cv) in
   isdigit ch || (ch =?c "-") || (ch =?c "+") = true) ->
  exists ty v,
    next_value buf c =
      Some (ty, v, (AdvanceToNextWhiteSpaceOrComma buf cv).2) /\
    ty <> kString /\ ty <> kBool /\ is_string v = false.
Proof.
  intros Hsep Hnum. unfold next_value. rewrite Hsep.
  rewrite (scan_value_number buf cv Hnum). cbv zeta.
  destruct (classify_number_cases buf (c_str cv)
              (c_str (AdvanceToNextWhiteSpaceOrComma buf cv).2))
    as (ty & v & -> & Hty).
  by exists ty, v.
Qed.

(** ** C4 *)

(** C4.  A value token that starts with a digit, ['-'] or ['+'] is scanned as
    a number.  With [l] the result of [strtol] and [d] the result of [strtod]
    on the text at the token, and the raw token being the bytes up to the
    next white space, comma or null, the classification is, in this order:
    [Int l] when [d == 0.0] and [l != 0]; else [Double d] when [l == 0] and
    [d != 0.0]; else [Double d] when the raw token contains one of the
    characters [. e E n N], and [Int l] when it contains none of them. *)
Theorem numeric_classification (buf : list ascii) (c : Cursor) :
  let ch := char_at buf (c_str c) in
  isdigit ch || (ch =?c "-") || (ch =?c "+") = true ->
  let c1 := (AdvanceToNextWhiteSpaceOrComma buf c).2 in
  let tok := take (c_str c1 - c_str c) (drop (c_str c) buf) in
  let l := strtol (cstr buf (c_str c)) in
  let d := strtod (cstr buf (c_str c)) in
  scan_value buf c =
    if (d =? 0)%float && negb (l =? 0)%Z then ScanValue kInt (VInt l) c1
    else if (l =? 0)%Z && negb (d =? 0)%float
         then ScanValue kDouble (VDouble d) c1
    else if token_contains_any tok [".";"e";"E";"n";"N"]%char
         then ScanValue kDouble (VDouble d) c1
         else ScanValue kInt (VInt l) c1.
Proof.
  intros ch Hnum c1 tok l d.
  rewrite (scan_value_number buf c Hnum). cbv zeta. fold c1.
  unfold classify_number. fold l d.
  pose proof (ContainsAny_token buf c) as Hany. cbv zeta in Hany.
  fold c1 in Hany. fold tok in Hany. rewrite Hany.
  destruct ((d =? 0)%float && negb (l =? 0)%Z); [done|].
  destruct ((l =? 0)%Z && negb (d =? 0)%float); [done|].
  by destruct (token_contains_any tok _).
Qed.

(** ** C6 *)

(** C6.  A value token that begins with ['t'] or ['f'] is scanned as a Bool
    whatever follows in the token, and the boolean is true exactly when that
    first byte is ['t'].  In the store, the pass that reads such a value
    after a separator appends that boolean to the values and sets the type of
    the last key to Bool (whether or not the pass then rejects the array as
    mixed). *)
Theorem bool_by_first_character (buf : list ascii) :
  (forall c,
     let ch := char_at buf (c_str c) in
     ch = "t"%char \/ ch = "f"%char ->
     scan_value buf c =
       ScanValue kBool (VBool (ch =?c "t"))
                 (AdvanceToNextWhiteSpaceOrComma buf c).2) /\
  (forall ini c cv k,
     let ch := char_at buf (c_str cv) in
     at_separator buf c = Some cv ->
     ch = "t"%char \/ ch = "f"%char ->
     last (m_keys ini) = Some k ->
     let ini' := outcome_ini (parse_body buf ini c) in
     m_values ini' = m_values ini ++ [VBool (ch =?c "t")] /\
     exists k', last (m_keys ini') = Some k' /\
                Key.m_type k' = Some kBool /\
                Key.m_key k' = Key.m_key k).
Proof.
  assert (Hscan : forall c,
     let ch := char_at buf (c_str c) in
     ch = "t"%char \/ ch = "f"%char ->
     scan_value buf c =
       ScanValue kBool (VBool (ch =?c "t"))
                 (AdvanceToNextWhiteSpaceOrComma buf c).2).
  { intros c ch Hch. unfold scan_value. cbv zeta. fold ch.
    destruct Hch as [Hch|Hch]; rewrite Hch; reflexivity. }
  split; [done|].
  intros ini c cv k ch Hsep Hch Hk ini'. subst ini'.
  assert (Hnv : next_value buf c =
                  Some (kBool, VBool (ch =?c "t"),
                        (AdvanceToNextWhiteSpaceOrComma buf cv).2)).
  { unfold next_value. rewrite Hsep. by rewrite (Hscan cv Hch). }
  destruct (parse_body_value buf ini c _ _ _ k Hnv Hk) as (_ & line & Hb).
  rewrite Hb. cbv zeta.
  assert (Hkeys : exists pre, m_keys ini = pre ++ [k]) by (by apply last_Some).
  destruct Hkeys as [pre Hkeys].
  destruct (_ && _); simpl; rewrite Hkeys, ?alter_back_snoc, last_snoc;
    (split; [done|]); by eexists.
Qed.

(** The spec's example: [tomato] reads as [true]. *)
Example tomato_is_true :
  exists name,
    parse 3 (list_ascii_of_string "a = tomato") empty_ini =
      Some (mkResult kOk None
              {| m_sections := [Sec.mk kInvalidHash 1 0];
                 m_keys := [Key.mk name (Some kBool) 0 1];
                 m_values := [VBool true] |}).
Proof. eexists. vm_compute. reflexivity. Qed.

End Values.

(** * Lookups *)

Lemma find_section_unknown secs name range :
  (forall s, s ∈ secs -> Sec.m_name s <> name) ->
  find_section secs name range = range.
Proof.
  induction secs as [|s secs IH]; intros Hno; simpl; [done|].
  destruct (Sec.m_name s =? name)%Z eqn:E.
  - apply Z.eqb_eq in E. exfalso. apply (Hno s); [apply list_elem_of_here|done].
  - apply IH. intros s' Hs'. apply Hno. by apply list_elem_of_further.
Qed.

Lemma find_section_cases secs name range :
  find_section secs name range = range \/
  exists s, s ∈ secs /\
            find_section secs name range = (Sec.m_keyOffset s, Sec.m_count s).
Proof.
  induction secs as [|s secs IH]; simpl; [by left|].
  destruct (Sec.m_name s =? name)%Z.
  - right. exists s. split; [apply list_elem_of_here|done].
  - destruct IH as [IH|(s' & Hs' & IH)]; [by left|].
    right. exists s'. split; [by apply list_elem_of_further|done].
Qed.

Lemma scan_keys_miss values keys key ret : forall todo i,
  i + todo <= length keys ->
  (forall j k, i <= j < i + todo -> keys !! j = Some k -> Key.m_key k <> key) ->
  scan_keys values keys key i todo ret = Some ret.
Proof.
  induction todo as [|todo IH]; intros i Hle Hno; simpl; [done|].
  destruct (keys !! i) as [k|] eqn:Hk.
  - destruct (Key.m_key k =? key)%Z eqn:E.
    + apply Z.eqb_eq in E. exfalso. apply (Hno i k); [lia|done..].
    + apply IH; [lia|]. intros j k' Hj. apply Hno. lia.
  - apply lookup_ge_None in Hk. lia.
Qed.

Section Lookups.
Context `{Platform}.

(** In a store whose sections partition the key list, the range that
    [getProperty] scans lies within the key list. *)
Lemma search_range_bounds ini name koff kcount :
  sections_ok ini ->
  search_range ini name = (koff, kcount) ->
  koff + kcount <= length (m_keys ini).
Proof.
  intros Hok. unfold search_range. cbv zeta.
  destruct (negb _); [|intros; simplify_eq; simpl; lia].
  destruct (find_section_cases (m_sections ini) name (0, length (m_keys ini)))
    as [->|(s & Hs & ->)]; intros; simplify_eq; [simpl; lia|].
  by apply sections_ok_bounds.
Qed.

(** ** C3 *)

(** C3.  When the hash of the section name is the name of no section of the
    store, [getProperty] with that section name returns the view that
    [getProperty] without a section name returns: the scan runs over the
    whole key list. *)
Theorem getProperty_unknown_section
    (ini : IniFile) (_key _section : list ascii) :
  (forall s, s ∈ m_sections ini ->
             Sec.m_name s <> StringHash (until_null _section)) ->
  getProperty ini _key (Some _section) = getProperty ini _key None /\
  search_range ini (StringHash (until_null _section))
    = (0, length (m_keys ini)).
Proof.
  intros Hno.
  assert (Hr : search_range ini (StringHash (until_null _section))
               = (0, length (m_keys ini))).
  { unfold search_range. cbv zeta. destruct (negb _); [|done].
    by apply find_section_unknown. }
  split; [|done].
  unfold getProperty, getPropertyH. rewrite Hr.
  unfold search_range. by rewrite Z.eqb_refl.
Qed.

(** ** C10 *)

(** C10.  On a store whose sections partition the key list (as in every store
    that [parse] builds from the empty one), when no key in the range
    that [getProperty] scans has the hash of the key name, [getProperty]
    returns: every access is within the key list, and the view is the initial
    one, with count 0 and no first value. *)
Theorem getProperty_miss
    (ini : IniFile) (_key : list ascii) (_section : option (list ascii))
    (koff kcount : nat) :
  sections_partition ini ->
  search_range ini (match _section with
                    | Some name => StringHash (until_null name)
                    | None => kInvalidHash
                    end) = (koff, kcount) ->
  (forall i k, koff <= i < koff + kcount -> m_keys ini !! i = Some k ->
               Key.m_key k <> StringHash (until_null _key)) ->
  getProperty ini _key _section = Some (Property.mk (Some kBool) 0 None).
Proof.
  intros Hp Hr Hno. apply sections_partition_ok in Hp.
  unfold getProperty, getPropertyH. rewrite Hr.
  apply scan_keys_miss; [|done].
  by apply (search_range_bounds ini _ koff kcount Hp Hr).
Qed.

End Lookups.

(** * The store that the destructor expects *)

Lemma key_ranges_from_snoc off keys k :
  key_ranges_from off (keys ++ [k]) <->
  key_ranges_from off keys /\ Key.m_valueOffset k = off + total_values keys.
Proof.
  revert off. induction keys as [|x keys IH]; intros off; simpl.
  - split; [intros [-> _]; split; [done|lia] | intros [_ ->]; split; [lia|done]].
  - rewrite IH. split.
    + intros (-> & Hr & ->). split; [done|lia].
    + intros ((-> & Hr) & ->). split; [done|]. split; [done|lia].
Qed.

Lemma total_values_snoc keys k :
  total_values (keys ++ [k]) = total_values keys + Key.m_count k.
Proof. induction keys as [|x keys IH]; simpl; lia. Qed.

Lemma filter_seq_all (P : nat -> Prop) `{forall j, Decision (P j)} off n :
  (forall j, off <= j < off + n -> P j) -> filter P (seq off n) = seq off n.
Proof.
  revert off. induction n as [|n IH]; intros off HP; simpl; [done|].
  rewrite filter_cons_True by (apply HP; lia). f_equal.
  apply IH. intros j Hj. apply HP. lia.
Qed.

Lemma filter_seq_none (P : nat -> Prop) `{forall j, Decision (P j)} off n :
  (forall j, off <= j < off + n -> ~ P j) -> filter P (seq off n) = [].
Proof.
  revert off. induction n as [|n IH]; intros off HP; simpl; [done|].
  rewrite filter_cons_False by (apply HP; lia).
  apply IH. intros j Hj. apply HP. lia.
Qed.

(** For a typed key within the value list, the destructor releases the
    values of its range that own a buffer, and only those. *)
Lemma released_of_typed_key values k :
  Key.m_valueOffset k + Key.m_count k <= length values ->
  key_typed values k ->
  released_of_key k =
    filter (owns values) (seq (Key.m_valueOffset k) (Key.m_count k)).
Proof.
  intros Hle Hty. unfold released_of_key.
  assert (Hget : forall j, Key.m_valueOffset k <= j
                           < Key.m_valueOffset k + Key.m_count k ->
            exists v, values !! j = Some v /\ Key.m_type k = Some (type_of v)).
  { intros j Hj. destruct (lookup_lt_is_Some_2 values j) as [v Hv]; [lia|].
    exists v. split; [done|]. by apply (Hty j v). }
  destruct (Key.m_type k) as [[]|] eqn:Ht;
    try (symmetry; apply filter_seq_none; intros j Hj;
         destruct (Hget j Hj) as (v & Hv & Hk); unfold owns; rewrite Hv;
         destruct v; simpl in *; congruence).
  symmetry. apply filter_seq_all. intros j Hj.
  destruct (Hget j Hj) as (v & Hv & Hk). unfold owns. rewrite Hv.
  destruct v; simpl in *; congruence.
Qed.

Lemma released_tiled values keys : forall off,
  key_ranges_from off keys ->
  off + total_values keys <= length values ->
  Forall (key_typed values) keys ->
  concat (map released_of_key keys) =
    filter (owns values) (seq off (total_values keys)).
Proof.
  induction keys as [|k keys IH]; intros off Hr Hle Hty; simpl in *; [done|].
  destruct Hr as [Hoff Hr]. apply Forall_cons in Hty as [Hk Hty].
  rewrite seq_app, filter_app. f_equal.
  - rewrite <- Hoff. apply released_of_typed_key; [lia|done].
  - apply IH; [done|lia|done].
Qed.

(** On such a store the destructor releases exactly the owned buffers, each
    once. *)
Lemma values_ok_released ini : values_ok ini -> released ini = owned ini.
Proof.
  intros (Hr & Ht & Hty). unfold released, owned.
  rewrite (released_tiled (m_values ini) (m_keys ini) 0 Hr); [|lia|done].
  by rewrite Ht.
Qed.

Lemma key_ranges_bounds off keys k :
  key_ranges_from off keys -> k ∈ keys ->
  off <= Key.m_valueOffset k /\
  Key.m_valueOffset k + Key.m_count k <= off + total_values keys.
Proof.
  revert off. induction keys as [|x keys IH]; intros off Hr Hin.
  - by apply elem_of_nil in Hin.
  - simpl in *. destruct Hr as [Hx Hr].
    apply elem_of_cons in Hin as [->|Hin]; [lia|].
    destruct (IH _ Hr Hin). lia.
Qed.

(** A key whose range lies within the values stays typed when a value is
    appended. *)
Lemma key_typed_app values v k :
  Key.m_valueOffset k + Key.m_count k <= length values ->
  key_typed values k -> key_typed (values ++ [v]) k.
Proof.
  intros Hle Hty j w Hj Hw. apply (Hty j w Hj).
  by rewrite lookup_app_l in Hw by lia.
Qed.

Lemma values_ok_empty : values_ok empty_ini.
Proof. split; [done|]. split; [done|]. constructor. Qed.

Lemma values_ok_push_section s ini :
  values_ok ini -> values_ok (push_section s ini).
Proof. done. Qed.

Lemma values_ok_push_key name ini :
  values_ok ini ->
  values_ok (push_key (Key.mk name None (length (m_values ini)) 0) ini).
Proof.
  intros (Hr & Ht & Hty). unfold values_ok. simpl. split; [|split].
  - apply key_ranges_from_snoc. split; [done|]. simpl. lia.
  - rewrite total_values_snoc. simpl. lia.
  - apply Forall_app. split; [done|]. apply Forall_singleton.
    intros j v Hj. simpl in Hj. lia.
Qed.

(** The pass that appends a value of type [ty] to a key that holds none, or
    holds values of that type. *)
Lemma values_ok_push_value ty v k ini :
  values_ok ini ->
  last (m_keys ini) = Some k ->
  Key.m_count k = 0 \/ Key.m_type k = Some ty ->
  type_of v = ty ->
  values_ok (alter_back_key Key.incr_count
               (push_value v (alter_back_key (Key.set_type ty) ini))).
Proof.
  intros (Hr & Ht & Hty) Hlast Hk Hv. apply last_Some in Hlast as [pre Hkeys].
  unfold values_ok. simpl. rewrite Hkeys in *. rewrite !alter_back_snoc.
  apply key_ranges_from_snoc in Hr as [Hr Hoff].
  rewrite total_values_snoc in Ht.
  apply Forall_app in Hty as [Hpre Hlastk].
  apply Forall_cons in Hlastk as [Hlastk _].
  split; [|split].
  - apply key_ranges_from_snoc. by split.
  - rewrite total_values_snoc, length_app. simpl. lia.
  - apply Forall_app. split.
    + apply Forall_forall. intros x Hx.
      destruct (key_ranges_bounds 0 pre x Hr Hx) as [_ Hb].
      apply key_typed_app; [lia|]. by apply (proj1 (Forall_forall _ _) Hpre).
    + apply Forall_singleton. intros j w Hj Hw. simpl in *.
      destruct (decide (j < length (m_values ini))) as [Hlt|Hge].
      * rewrite lookup_app_l in Hw by done.
        assert (Hold : Key.m_type k = Some (type_of w))
          by (apply (Hlastk j w); [lia|done]).
        destruct Hk as [Hk|Hk]; [lia|congruence].
      * assert (j = length (m_values ini)) by lia. subst j.
        rewrite lookup_app_r, Nat.sub_diag in Hw by done.
        simpl in Hw. by simplify_eq.
Qed.

Section Destructor.
Context `{Platform}.

Lemma classify_number_typed buf beg end_ ty v :
  classify_number buf beg end_ = (ty, v) -> type_of v = ty.
Proof.
  unfold classify_number. cbv zeta.
  repeat destruct (_ && _); try destruct (ContainsAny _ _ _ _);
    intros Heq; by simplify_eq.
Qed.

Lemma scan_value_typed buf c ty v c' :
  scan_value buf c = ScanValue ty v c' -> type_of v = ty.
Proof.
  unfold scan_value. cbv zeta.
  destruct (_ =?c QUOTE).
  { destruct (AdvanceToNext buf QUOTE _) as [found c1].
    destruct found; [|done]. cbn [negb]. intros Heq. by simplify_eq. }
  destruct (_ || _); [intros Heq; by simplify_eq|].
  destruct (_ || _); [|done].
  destruct (classify_number _ _ _) as [ty1 v1] eqn:Hcl.
  intros Heq. simplify_eq. by apply (classify_number_typed _ _ _ _ _ Hcl).
Qed.

Lemma values_ok_body buf ini c ini' c' :
  values_ok ini ->
  parse_body buf ini c = Continue ini' c' ->
  values_ok ini'.
Proof.
  intros Hok. unfold parse_body. cbv zeta.
  destruct (_ =?c ";"); [intros; by simplify_eq|].
  destruct (_ =?c "[").
  { destruct (AdvanceToNext buf "]" _) as [found c1].
    destruct found; [|done]. cbn [negb]. intros Heq. simplify_eq.
    by apply values_ok_push_section. }
  destruct (_ || _).
  { unfold parse_assignment.
    destruct (last (m_keys ini)) as [k|] eqn:Hlast; [|done]. cbv zeta.
    destruct (scan_value buf _) as [ty v c1| |] eqn:Hs; [|done..].
    destruct ((0 <? Key.m_count k)%nat && _) eqn:Hchk; [done|].
    intros Heq. simplify_eq.
    apply (values_ok_push_value ty v k); [done..| |].
    - apply andb_false_iff in Hchk as [Hc|Hc].
      + left. apply Nat.ltb_ge in Hc. lia.
      + right. apply negb_false_iff, bool_decide_eq_true in Hc. done.
    - by apply (scan_value_typed _ _ _ _ _ Hs). }
  destruct (negb _); [|intros; by simplify_eq].
  destruct (isdigit _); [done|].
  destruct (AdvanceToNextNonAlphanumeric buf _) as [found c1].
  destruct found; [|done]. cbn [negb]. intros Heq. simplify_eq.
  by apply values_ok_push_key.
Qed.

Lemma values_ok_run n buf : forall ini c,
  values_ok ini ->
  match run n buf ini c with
  | inl (ini', _) => values_ok ini'
  | inr r => r_error r = kOk -> values_ok (r_ini r)
  end.
Proof.
  induction n as [|n IH]; intros ini c Hok; simpl; [done|].
  destruct (_ =?c NUL); [done|].
  destruct (parse_body buf ini c) as [ini1 c1|] eqn:Hb; [|done].
  apply IH. by apply (values_ok_body buf ini c ini1 c1).
Qed.

(** When [parse] returns [kOk] on a store that the destructor can release,
    it leaves a store that the destructor can release: exactly the owned
    string buffers, each once. *)
Lemma parse_ok_destructor fuel buf ini r :
  values_ok ini ->
  parse fuel buf ini = Some r ->
  r_error r = kOk ->
  values_ok (r_ini r) /\ released (r_ini r) = owned (r_ini r).
Proof.
  intros Hok Hp He. unfold parse in Hp.
  assert (Hinit : values_ok (parse_init ini)).
  { unfold parse_init. destruct (m_sections ini); [|done].
    by apply values_ok_push_section. }
  pose proof (values_ok_run fuel buf _ start Hinit) as Hrun.
  destruct (run fuel buf (parse_init ini) start) as [|r'] eqn:Hr; [done|].
  simplify_eq. specialize (Hrun He). split; [done|].
  by apply values_ok_released.
Qed.

End Destructor.

(** * Scenarios *)

Section Scenarios.
Context `{Platform}.

(** Any number of calls of [parse] on the default-constructed store leave
    the sections a partition of the key list. *)
Lemma parse_calls_sections_ok calls : forall ini ini',
  sections_ok ini -> parse_calls calls ini = Some ini' -> sections_ok ini'.
Proof.
  induction calls as [|[fuel buf] calls IH]; intros ini ini' Hok Hc; simpl in Hc.
  - by simplify_eq.
  - destruct (parse fuel buf ini) as [r|] eqn:Hp; [|done].
    apply (IH (r_ini r)); [|done].
    unfold parse in Hp.
    pose proof (loop_inv_run fuel buf _ start (loop_inv_init ini Hok)) as [Hr _].
    destruct (run fuel buf (parse_init ini) start); [done|]. by simplify_eq.
Qed.

Lemma parse_calls_partition calls ini' :
  parse_calls calls empty_ini = Some ini' -> sections_partition ini'.
Proof.
  intros Hc. apply sections_partition_ok.
  by apply (parse_calls_sections_ok calls empty_ini ini' sections_ok_empty).
Qed.

(** ** C2 *)

(** C2, on the code.  [parse] on the buffer [x = 5] and the empty store
    returns [kOk] and puts the key [x] in the default section; after it,
    [getProperty("x", 0)] returns the view of [x], with count 1, and
    [getProperty("x", "graphics")] returns the same view: no section is named
    [graphics], so the scan runs over the whole key list.  This holds for
    every hash function and every [strtol] and [strtod]. *)
Theorem default_section_lookup :
  exists ini ty,
    parse 3 (buffer "x = 5") empty_ini = Some (mkResult kOk None ini) /\
    m_sections ini = [Sec.mk kInvalidHash 1 0] /\
    getProperty ini (buffer "x") None
      = Some (Property.mk (Some ty) 1 (Some 0)) /\
    getProperty ini (buffer "x") (Some (buffer "graphics"))
      = Some (Property.mk (Some ty) 1 (Some 0)).
Proof.
  set (buf := buffer "x = 5").
  set (ini0 := parse_init empty_ini).
  destruct (parse_body_name buf ini0 start (buffer "x") (mkCursor 1 1) eq_refl)
    as [Hc0 Hb0].
  destruct (next_value_number buf (mkCursor 1 1) (mkCursor 4 1) eq_refl eq_refl)
    as (ty & v & Hnv & _).
  change ((AdvanceToNextWhiteSpaceOrComma buf _).2) with (mkCursor 5 1) in Hnv.
  match type of Hb0 with _ = Continue ?i _ => set (ini1 := i) in * end.
  edestruct (run_values buf ty [(ty, v)] ini1 (mkCursor 1 1) (mkCursor 5 1) [])
    as (k & Hrun & Hkey & Hoff & Hcnt & Htype & _).
  { reflexivity. } { by left. } { by repeat constructor. }
  { simpl. eexists. split; [exact Hnv|done]. }
  specialize (Htype ltac:(done)). cbn in Hkey, Hoff, Hcnt.
  eexists _, ty. split.
  { unfold parse. fold ini0. change 3 with (1 + (1 + 1)).
    rewrite run_add, (run_S_continue 0 _ _ _ _ _ Hc0 Hb0).
    cbn [run]. rewrite run_add. cbn [length] in Hrun. rewrite Hrun.
    reflexivity. }
  split; [done|].
  assert (Hscan : scan_keys ([] ++ [v]) ([] ++ [k])
                    (StringHash (buffer "x")) 0 1
                    (Property.mk (Some kBool) 0 None)
                  = Some (Property.mk (Some ty) 1 (Some 0))).
  { cbn. by rewrite Hkey, Z.eqb_refl, Htype, Hcnt, Hoff. }
  unfold getProperty, getPropertyH, search_range. cbn [m_keys m_sections].
  change (until_null (buffer "x")) with (buffer "x").
  split.
  - by rewrite Z.eqb_refl.
  - change (m_sections ini1) with [Sec.mk kInvalidHash 1 0].
    cbn [find_section Sec.m_name Sec.m_keyOffset Sec.m_count app length].
    destruct (negb _); [|exact Hscan].
    destruct (_ =? _)%Z; exact Hscan.
Qed.

(** ** C1 *)

(** C1, on the code.  [parse] on the buffer [a = 1, "x"] and the empty store
    returns [kSyntax] (the array is mixed) and leaves the key [a] with type
    String, value offset 0 and count 1, while the values are the number read
    from [1], at index 0, and the owned string [x], at index 1.  The
    destructor therefore runs [delete[]] on index 0, which holds no string
    buffer, and never on index 1, which owns one.  This holds for every hash
    function and every [strtol] and [strtod]. *)
Theorem syntax_error_leaves_mistyped_key :
  exists r v,
    parse 3 (buffer "a = 1, " ++ quoted "x") empty_ini = Some r /\
    r_error r = kSyntax /\
    m_keys (r_ini r) = [Key.mk (StringHash (buffer "a")) (Some kString) 0 1] /\
    m_values (r_ini r) = [v; VString (buffer "x")] /\
    is_string v = false /\
    released (r_ini r) = [0] /\
    owned (r_ini r) = [1].
Proof.
  set (buf := buffer "a = 1, " ++ quoted "x").
  set (ini0 := parse_init empty_ini).
  destruct (parse_body_name buf ini0 start (buffer "a") (mkCursor 1 1) eq_refl)
    as [Hc0 Hb0].
  destruct (next_value_number buf (mkCursor 1 1) (mkCursor 4 1) eq_refl eq_refl)
    as (ty & v & Hnv & Hty & _ & Hv).
  change ((AdvanceToNextWhiteSpaceOrComma buf _).2) with (mkCursor 5 1) in Hnv.
  match type of Hb0 with _ = Continue ?i _ => set (ini1 := i) in * end.
  edestruct (run_values buf ty [(ty, v)] ini1 (mkCursor 1 1) (mkCursor 5 1) [])
    as (k & Hrun & Hkey & Hoff & Hcnt & Htype & _).
  { reflexivity. } { by left. } { by repeat constructor. }
  { simpl. eexists. split; [exact Hnv|done]. }
  specialize (Htype ltac:(done)). cbn in Hkey, Hoff, Hcnt.
  match type of Hrun with _ = inl (?i, _) => set (ini2 := i) in * end.
  assert (Hlast : last (m_keys ini2) = Some k) by done.
  destruct (parse_body_value buf ini2 (mkCursor 5 1) kString
              (VString (buffer "x")) (mkCursor 10 1) k eq_refl Hlast)
    as (Hc & line & Hb).
  cbv zeta in Hb. rewrite Hcnt, Htype in Hb.
  rewrite bool_decide_eq_false_2 in Hb by congruence.
  cbn [Nat.ltb Nat.leb negb andb] in Hb.
  eexists _, v. split.
  { unfold parse. fold ini0. change 3 with (1 + (1 + 1)).
    rewrite run_add, (run_S_continue 0 _ _ _ _ _ Hc0 Hb0).
    cbn [run]. rewrite run_add. cbn [length] in Hrun. rewrite Hrun.
    rewrite (run_S_error 0 _ _ _ _ _ _ Hc Hb). reflexivity. }
  cbn [r_error r_ini]. split; [done|].
  destruct k as [kk kt ko kc]. cbn in Hkey, Hoff, Hcnt, Htype. subst.
  split; [done|]. split; [done|]. split; [done|]. split; [done|].
  unfold owned.
  replace (m_values (push_value _ _)) with [v; VString (buffer "x")]
    by reflexivity.
  cbn [length seq]. rewrite filter_cons_False; [done|].
  unfold owns. cbn. by rewrite Hv.
Qed.

End Scenarios.

(** * Runs of the model *)

(** A byte that starts no token ([!] is neither white space, [;], [[], [=],
    [,], a digit nor alphanumeric) is read as a property name of length 0:
    the pass appends a key and leaves the cursor where it was, so [parse]
    does not return.  This is why the loop of [parse] takes its fuel, and why
    the statements about the tokens of an input are made from the point at
    which the loop arrives at them. *)
Lemma parse_loops_on_stray_byte `{Platform} (fuel : nat) (ini : IniFile) :
  parse fuel (buffer "!") ini = None.
Proof.
  unfold parse. generalize (parse_init ini) as ini0.
  induction fuel as [|fuel IH]; intros ini0; [done|].
  rewrite (run_S_continue fuel (buffer "!") ini0 start
             (push_key (Key.mk (StringHash []) None
                               (length (m_values ini0)) 0) ini0) start);
    [apply IH|done|reflexivity].
Qed.

(** The scenario of the spec on the reference platform: one explicit section
    with five keys after the (empty) default section. *)
Example graphics_scenario :
  let text :=
    buffer "[graphics]
width = 1920
height = 1080
fullscreen = true
title = " ++ quoted "My Game" ++ buffer "
scale = 1.5, 2.0, 3.0
" in
  exists r,
    @parse reference_platform 20 text empty_ini = Some r /\
    r_error r = kOk /\
    map (fun s => (Sec.m_count s, Sec.m_keyOffset s)) (m_sections (r_ini r))
      = [(0, 0); (5, 0)] /\
    map (fun k => (Key.m_type k, Key.m_valueOffset k, Key.m_count k))
        (m_keys (r_ini r))
      = [(Some kInt, 0, 1); (Some kInt, 1, 1); (Some kBool, 2, 1);
         (Some kString, 3, 1); (Some kDouble, 4, 3)] /\
    m_values (r_ini r)
      = [VInt 1920; VInt 1080; VBool true; VString (buffer "My Game");
         VDouble 1.5; VDouble 2; VDouble 3] /\
    released (r_ini r) = [3] /\ owned (r_ini r) = [3].
Proof. intros text. eexists. split; [vm_compute; reflexivity|]. by vm_compute. Qed.

(** The second exit that leaves a String-typed key over a number: the string
    that follows the number is not terminated. *)
Example unterminated_string_after_number :
  exists r,
    @parse reference_platform 3 (buffer "a = 1, " ++ QUOTE :: buffer "x")
       empty_ini = Some r /\
    r_error r = kSyntax /\
    map (fun k => (Key.m_type k, Key.m_valueOffset k, Key.m_count k))
        (m_keys (r_ini r)) = [(Some kString, 0, 1)] /\
    m_values (r_ini r) = [VInt 1] /\
    released (r_ini r) = [0] /\ owned (r_ini r) = [].
Proof. eexists. split; [vm_compute; reflexivity|]. by vm_compute. Qed.

(** * The theorems at concrete inputs, on the reference platform *)

Lemma lexer_primitives_total_witness :
  let buf := buffer "  x = 5" in
  c_str start <= strlen buf /\
  (c_str start <= c_str (SkipWhitespace buf start) <= strlen buf /\
   isspace (char_at buf (c_str (SkipWhitespace buf start))) = false) /\
  (let '(found, r) := AdvanceToNext buf "=" start in
   c_str start <= c_str r <= strlen buf /\
   found = not_null (char_at buf (c_str r)) /\
   (char_at buf (c_str r) = NUL \/ char_at buf (c_str r) = "=")).
Proof.
  intros buf.
  assert (Hle : c_str start <= strlen buf) by (vm_compute; lia).
  split; [exact Hle|].
  pose proof (lexer_primitives_total buf start "=" Hle) as (Hws & Hnext & _).
  split; [exact Hws|exact Hnext].
Defined.

Lemma parse_sections_partition_witness :
  sections_partition empty_ini /\
  forall fuel r,
    @parse reference_platform fuel
      (buffer "[a] x = 1 [b] y = 2, 3") empty_ini = Some r ->
    sections_partition (r_ini r) /\ m_sections (r_ini r) <> [].
Proof.
  assert (Hp : sections_partition empty_ini).
  { repeat split; intros; simpl in *; done. }
  split; [exact Hp|].
  exact (proj1 (@parse_sections_partition reference_platform
                  (buffer "[a] x = 1 [b] y = 2, 3") empty_ini Hp)).
Defined.

Lemma getProperty_unknown_section_witness :
  (forall s, s ∈ m_sections store_x_5 ->
     Sec.m_name s
       <> @StringHash reference_platform (until_null (buffer "graphics"))) /\
  @getProperty reference_platform store_x_5 (buffer "x")
     (Some (buffer "graphics"))
    = @getProperty reference_platform store_x_5 (buffer "x") None.
Proof.
  assert (Hno : forall s, s ∈ m_sections store_x_5 ->
     Sec.m_name s
       <> @StringHash reference_platform (until_null (buffer "graphics"))).
  { intros s Hs. apply list_elem_of_singleton in Hs. subst s.
    vm_compute. discriminate. }
  split; [exact Hno|].
  exact (proj1 (@getProperty_unknown_section reference_platform
                  store_x_5 (buffer "x") (buffer "graphics") Hno)).
Defined.

Lemma getProperty_miss_witness :
  sections_partition store_x_5 /\
  @getProperty reference_platform store_x_5 (buffer "missing") None
    = Some (Property.mk (Some kBool) 0 None).
Proof.
  assert (Hp : sections_partition store_x_5).
  { repeat split.
    - intros [|i] s s' Hs Hs'; simpl in *; done.
    - intros s Hs. simpl in Hs. by simplify_eq.
    - intros s Hs. simpl in Hs. by simplify_eq.
    - intros Hs. simpl in Hs. done. }
  split; [exact Hp|].
  apply (@getProperty_miss reference_platform store_x_5 (buffer "missing")
           None 0 1 Hp).
  - reflexivity.
  - intros i k Hi Hk. assert (i = 0) by lia. subst i.
    simpl in Hk. simplify_eq. vm_compute. discriminate.
Defined.

Lemma numeric_classification_witness :
  let buf := buffer "1.5, 2" in
  isdigit (char_at buf 0) || (char_at buf 0 =?c "-")
    || (char_at buf 0 =?c "+") = true /\
  @scan_value reference_platform buf start
    = ScanValue kDouble (VDouble 1.5) (mkCursor 3 1).
Proof.
  intros buf.
  assert (Hd : isdigit (char_at buf 0) || (char_at buf 0 =?c "-")
                 || (char_at buf 0 =?c "+") = true) by reflexivity.
  split; [exact Hd|].
  rewrite (@numeric_classification reference_platform buf start Hd).
  vm_compute. reflexivity.
Defined.

Lemma bool_by_first_character_witness :
  let buf := buffer "a = tomato" in
  char_at buf 4 = "t" /\
  @scan_value reference_platform buf (mkCursor 4 1)
    = ScanValue kBool (VBool true) (mkCursor 10 1).
Proof.
  intros buf.
  assert (Hch : char_at buf 4 = "t" \/ char_at buf 4 = "f")
    by (left; reflexivity).
  split; [reflexivity|].
  exact (proj1 (@bool_by_first_character reference_platform buf)
               (mkCursor 4 1) Hch).
Defined.

Lemma unterminated_token_is_syntax_error_witness :
  (exists r,
     @parse reference_platform 1 (buffer "[foo") empty_ini = Some r /\
     r_error r = kSyntax /\
     r_log r = Some (1%Z, "Unterminated section"%string)) /\
  (exists r,
     @parse reference_platform 2 (buffer "a = " ++ QUOTE :: buffer "foo")
        empty_ini = Some r /\
     r_error r = kSyntax).
Proof.
  split.
  - destruct (@unterminated_token_is_syntax_error reference_platform
                (buffer "[foo") empty_ini
                (@parse_init reference_platform empty_ini) 0 start eq_refl)
      as [Hsection _].
    destruct Hsection as (r & Hr & He & Hl).
    + reflexivity.
    + vm_compute. intros Hin.
      repeat (apply elem_of_cons in Hin as [Hin|Hin]; [discriminate|]).
      by apply elem_of_nil in Hin.
    + exists r. split; [apply Hr; lia|]. by split.
  - set (buf := buffer "a = " ++ QUOTE :: buffer "foo").
    destruct (@unterminated_token_is_syntax_error reference_platform
                buf empty_ini
                (push_key (Key.mk (@StringHash reference_platform (buffer "a"))
                                  None 0 0)
                          (@parse_init reference_platform empty_ini))
                1 (mkCursor 1 1) eq_refl)
      as [_ Hstring].
    destruct (Hstring (mkCursor 4 1)) as (r & Hr & He).
    + reflexivity.
    + reflexivity.
    + vm_compute. intros Hin.
      repeat (apply elem_of_cons in Hin as [Hin|Hin]; [discriminate|]).
      by apply elem_of_nil in Hin.
    + exists r. split; [apply Hr; lia|done].
Defined.

Lemma arrays_must_be_homogeneous_witness :
  (exists ini' k,
     @run reference_platform 4 (buffer "a = 1, 2, 3")
        (@parse_init reference_platform empty_ini) start
       = inl (ini', mkCursor 11 1) /\
     last (m_keys ini') = Some k /\
     Key.m_count k = 3 /\
     Key.m_type k = Some kInt /\
     m_values ini' = [VInt 1; VInt 2; VInt 3]) /\
  (exists r,
     @parse reference_platform 3 (buffer "a = 1, " ++ quoted "x") empty_ini
       = Some r /\
     r_error r = kSyntax).
Proof.
  split.
  - set (buf := buffer "a = 1, 2, 3").
    set (tvs := [(kInt, VInt 1); (kInt, VInt 2); (kInt, VInt 3)]).
    destruct (@arrays_must_be_homogeneous reference_platform buf empty_ini
                (@parse_init reference_platform empty_ini) 0 start
                (mkCursor 1 1) (mkCursor 11 1) (buffer "a") tvs)
      as [_ Hsame].
    + reflexivity.
    + reflexivity.
    + exists (mkCursor 5 1). split; [reflexivity|].
      exists (mkCursor 8 1). split; [reflexivity|].
      exists (mkCursor 11 1). split; reflexivity.
    + destruct (Hsame kInt) as (ini' & k & Hrun & Hlast & _ & _ & Hcnt & Hvals & Hty).
      { by repeat constructor. }
      exists ini', k. split; [exact Hrun|]. split; [exact Hlast|].
      split; [exact Hcnt|]. split; [by apply Hty|exact Hvals].
  - set (buf := buffer "a = 1, " ++ quoted "x").
    set (tvs := [(kInt, VInt 1); (kString, VString (buffer "x"))]).
    destruct (@arrays_must_be_homogeneous reference_platform buf empty_ini
                (@parse_init reference_platform empty_ini) 0 start
                (mkCursor 1 1) (mkCursor 10 1) (buffer "a") tvs)
      as [Hmixed _].
    + reflexivity.
    + reflexivity.
    + exists (mkCursor 5 1). split; [reflexivity|].
      exists (mkCursor 10 1). split; reflexivity.
    + destruct Hmixed as (r & Hr & He & _).
      { intros [ty Hall]. apply Forall_cons in Hall as [H1 Hall].
        apply Forall_cons in Hall as [H2 _]. simpl in *. congruence. }
      exists r. split; [apply Hr; simpl; lia|done].
Defined.

(** * The line counter *)

Lemma IsLineEnd_not_null ch :
  ch <> NUL -> IsLineEnd ch = (ch =?c "010").
Proof.
  intros Hn. unfold IsLineEnd, kLineEnd, strchr_found.
  change ("010" =?c NUL)%char with false. cbv iota.
  apply ascii_eqb_neq in Hn. rewrite Hn.
  destruct ("010" =?c ch) eqn:E1, (ch =?c "010") eqn:E2; try done.
  - apply ascii_eqb_eq in E1. subst. done.
  - apply ascii_eqb_eq in E2. subst. done.
Qed.

Lemma line_feeds_app s1 s2 :
  line_feeds (s1 ++ s2) = line_feeds s1 + line_feeds s2.
Proof. induction s1 as [|x s1 IH]; simpl; [done|]. rewrite IH. lia. Qed.

Lemma line_of_S buf p :
  char_at buf p <> NUL ->
  line_of buf (S p) =
    (line_of buf p + (if char_at buf p =?c "010" then 1 else 0))%Z.
Proof.
  intros Hn. unfold line_of.
  pose proof (char_at_not_null_lt buf p Hn) as Hlt.
  destruct (lookup_lt_is_Some_2 buf p Hlt) as [ch Hch].
  rewrite (take_S_r buf p ch Hch), line_feeds_app. simpl.
  unfold char_at. rewrite Hch. simpl. destruct (ch =?c "010"); lia.
Qed.

(** One step over a byte that is not null keeps the cursor on its line. *)
Lemma cursor_ok_step buf c :
  cursor_ok buf c -> char_at buf (c_str c) <> NUL ->
  cursor_ok buf (step_over (char_at buf (c_str c)) c).
Proof.
  intros [Hb Hl] Hn. split; simpl.
  - by apply step_bounds.
  - rewrite line_of_S by done. rewrite IsLineEnd_not_null by done.
    rewrite Hl. destruct (_ =?c "010"); lia.
Qed.

(** A step that only moves the offset, over a byte that is neither null nor
    a line feed. *)
Lemma cursor_ok_skip buf c :
  cursor_ok buf c -> char_at buf (c_str c) <> NUL ->
  char_at buf (c_str c) <> "010" ->
  cursor_ok buf {| c_str := S (c_str c); c_line := c_line c |}.
Proof.
  intros [Hb Hl] Hn Hlf. split; simpl.
  - by apply step_bounds.
  - rewrite line_of_S by done. apply ascii_eqb_neq in Hlf. rewrite Hlf. lia.
Qed.

Lemma cursor_ok_scan p buf : forall rest c,
  (forall ch, p ch = true -> ch <> NUL) ->
  drop (c_str c) buf = rest ->
  cursor_ok buf c -> cursor_ok buf (scan_while p rest c).
Proof.
  induction rest as [|ch rest IH]; intros c Hp Hd Hok; simpl; [done|].
  destruct (p ch) eqn:Hpc; [|done].
  apply drop_cons_inv in Hd as [Hch Hd].
  apply IH; [done|done|]. rewrite <- Hch. apply cursor_ok_step; [done|].
  rewrite Hch. by apply Hp.
Qed.

Lemma not_null_andb ch b : not_null ch && b = true -> ch <> NUL.
Proof. intros Hb. apply andb_true_iff in Hb as [Hb _]. by apply not_null_true. Qed.

Lemma cursor_ok_SkipWhitespace buf c :
  cursor_ok buf c -> cursor_ok buf (SkipWhitespace buf c).
Proof.
  intros Hok. rewrite SkipWhitespace_scan.
  apply cursor_ok_scan; [apply isspace_not_null|done..].
Qed.

Lemma cursor_ok_scan_found p buf c :
  (forall ch, p ch = true -> ch <> NUL) ->
  cursor_ok buf c -> cursor_ok buf (scan_found p (drop (c_str c) buf) c).2.
Proof.
  intros Hp Hok. rewrite scan_found_buf.
  - by apply cursor_ok_scan.
  - destruct (p NUL) eqn:E; [|done]. by destruct (Hp NUL E).
Qed.

Lemma cursor_ok_AdvanceToNext buf d c :
  cursor_ok buf c -> cursor_ok buf (AdvanceToNext buf d c).2.
Proof.
  intros Hok. rewrite AdvanceToNext_scan.
  apply cursor_ok_scan_found; [|done]. intros ch. apply not_null_andb.
Qed.

Lemma cursor_ok_AdvanceToNextNonAlphanumeric buf c :
  cursor_ok buf c -> cursor_ok buf (AdvanceToNextNonAlphanumeric buf c).2.
Proof.
  intros Hok. rewrite AdvanceToNextNonAlphanumeric_scan.
  apply cursor_ok_scan_found; [|done]. intros ch. apply not_null_andb.
Qed.

Lemma cursor_ok_AdvanceToNextWhiteSpaceOrComma buf c :
  cursor_ok buf c -> cursor_ok buf (AdvanceToNextWhiteSpaceOrComma buf c).2.
Proof.
  intros Hok. rewrite AdvanceToNextWhiteSpaceOrComma_scan.
  apply cursor_ok_scan_found; [|done]. intros ch. apply not_null_andb.
Qed.

Lemma scan_while_same_line p : forall rest c,
  (forall ch, p ch = true -> IsLineEnd ch = false) ->
  c_line (scan_while p rest c) = c_line c.
Proof.
  induction rest as [|ch rest IH]; intros c Hp; simpl; [done|].
  destruct (p ch) eqn:Hpc; [|done].
  rewrite IH by done. simpl. by rewrite (Hp ch Hpc).
Qed.

Lemma cursor_ok_SkipLine buf c :
  cursor_ok buf c -> cursor_ok buf (SkipLine buf c).
Proof.
  intros Hok. rewrite SkipLine_scan. cbv zeta.
  assert (Hp : forall ch, until_line_end ch = true -> ch <> NUL)
    by (intros ch; apply not_null_andb).
  pose proof (cursor_ok_scan until_line_end buf _ c Hp eq_refl Hok) as Hr.
  pose proof (scan_exit until_line_end buf c eq_refl) as Hex.
  assert (Hline : c_line (scan_while until_line_end (drop (c_str c) buf) c)
                  = c_line c).
  { apply scan_while_same_line. intros ch Hc.
    apply andb_true_iff in Hc as [_ Hc]. by apply negb_true_iff. }
  set (r := scan_while until_line_end (drop (c_str c) buf) c) in *.
  destruct Hr as [Hb Hl]. rewrite Hline in Hl.
  destruct (not_null (char_at buf (c_str r))) eqn:Hn.
  - apply not_null_true in Hn. split; simpl.
    + by apply step_bounds.
    + rewrite line_of_S by done.
      unfold until_line_end in Hex.
      apply andb_false_iff in Hex as [Hex|Hex].
      { apply not_null_false in Hex. done. }
      apply negb_false_iff in Hex. rewrite IsLineEnd_not_null in Hex by done.
      rewrite Hex. lia.
  - by split.
Qed.

Lemma cursor_ok_skip_comments buf : forall fuel c,
  cursor_ok buf c -> cursor_ok buf (skip_comments fuel buf c).
Proof.
  induction fuel as [|fuel IH]; intros c Hok; simpl; [done|].
  destruct (_ =?c ";"); [|done].
  by apply IH, cursor_ok_SkipWhitespace, cursor_ok_SkipLine.
Qed.

Lemma cursor_ok_start buf : cursor_ok buf start.
Proof. split; simpl; [lia|done]. Qed.

Section LineCounter.
Context `{Platform}.

Lemma cursor_ok_scan_value buf c ty v c' :
  cursor_ok buf c -> scan_value buf c = ScanValue ty v c' -> cursor_ok buf c'.
Proof.
  intros Hok. unfold scan_value. cbv zeta.
  destruct (char_at buf (c_str c) =?c QUOTE) eqn:E1.
  { apply ascii_eqb_eq in E1.
    assert (Hq : cursor_ok buf {| c_str := S (c_str c); c_line := c_line c |}).
    { apply cursor_ok_skip; [done|by rewrite E1..]. }
    pose proof (cursor_ok_AdvanceToNext buf QUOTE _ Hq) as Hc1.
    rewrite AdvanceToNext_scan in *.
    rewrite scan_found_buf in * by done. cbn [snd] in Hc1.
    pose proof (scan_exit (until_char QUOTE) buf
                  {| c_str := S (c_str c); c_line := c_line c |} eq_refl) as Hex.
    set (c1 := scan_while _ _ _) in *.
    destruct (not_null (char_at buf (c_str c1))) eqn:Hn; [|done].
    cbn [negb]. intros Heq. simplify_eq.
    apply not_null_true in Hn.
    apply until_char_false in Hex as [Hex|Hex]; [done|].
    apply cursor_ok_skip; [done|done|by rewrite Hex]. }
  pose proof (cursor_ok_AdvanceToNextWhiteSpaceOrComma buf c Hok) as Hc1.
  destruct (_ || _); [intros Heq; by simplify_eq|].
  destruct (_ || _); [|done].
  destruct (classify_number _ _ _). intros Heq. by simplify_eq.
Qed.

(** A pass of the loop keeps the cursor on its line, and the line of an error
    is the line of an offset of the buffer. *)
Lemma cursor_ok_body buf ini c :
  cursor_ok buf c ->
  match parse_body buf ini c with
  | Continue _ c' => cursor_ok buf c'
  | SyntaxError line _ _ =>
      exists p, c_str c <= p <= strlen buf /\ line = line_of buf p
  end.
Proof.
  intros Hok. unfold parse_body. cbv zeta.
  pose proof (cursor_ok_SkipWhitespace buf c Hok) as Hw.
  pose proof (SkipWhitespace_bounds buf c (proj1 Hok)) as [Hle _].
  set (c0 := SkipWhitespace buf c) in *.
  set (ch := char_at buf (c_str c0)).
  assert (Hhere : exists p, c_str c <= p <= strlen buf
                            /\ c_line c0 = line_of buf p).
  { exists (c_str c0). destruct Hw. split; [lia|done]. }
  destruct (ch =?c ";") eqn:E1; [by apply cursor_ok_SkipLine|].
  destruct (ch =?c "[") eqn:E2.
  { apply ascii_eqb_eq in E2.
    pose proof (cursor_ok_AdvanceToNext buf "]" c0 Hw) as Hc1.
    rewrite AdvanceToNext_scan in *. rewrite scan_found_buf in * by done.
    cbn [snd] in Hc1.
    pose proof (scan_exit (until_char "]") buf c0 eq_refl) as Hex.
    set (c1 := scan_while _ _ _) in *.
    destruct (not_null (char_at buf (c_str c1))) eqn:Hn; cbn [negb]; [|done].
    apply not_null_true in Hn.
    apply until_char_false in Hex as [Hex|Hex]; [done|].
    apply cursor_ok_skip; [done|done|by rewrite Hex]. }
  destruct ((ch =?c "=") || (ch =?c ",")) eqn:E3.
  { unfold parse_assignment. destruct (last (m_keys ini)) as [k|]; [|done].
    cbv zeta.
    assert (Hs : cursor_ok buf {| c_str := S (c_str c0); c_line := c_line c0 |}).
    { apply cursor_ok_skip; [done| |]; fold ch; intros Heq; rewrite Heq in E3;
        done. }
    pose proof (cursor_ok_skip_comments buf (length buf) _
                  (cursor_ok_SkipWhitespace buf _ Hs)) as Hcv.
    pose proof (SkipWhitespace_bounds buf _ (proj1 Hs)) as [Hle1 _].
    pose proof (skip_comments_bounds buf (length buf) _
                  (proj1 (cursor_ok_SkipWhitespace buf _ Hs))) as [Hle2 _].
    set (cv := skip_comments _ _ _) in *.
    assert (Hcvp : exists p, c_str c <= p <= strlen buf
                             /\ c_line cv = line_of buf p).
    { exists (c_str cv). destruct Hcv. simpl in *. split; [lia|done]. }
    destruct (scan_value buf cv) as [ty v c1| |] eqn:Hsv; [|done..].
    destruct (_ && _); [done|].
    by apply (cursor_ok_scan_value buf cv ty v c1). }
  destruct (negb (ch =?c NUL)); [|done].
  destruct (isdigit ch); [done|].
  pose proof (cursor_ok_AdvanceToNextNonAlphanumeric buf c0 Hw) as Hc1.
  rewrite AdvanceToNextNonAlphanumeric_scan in *.
  pose proof (scan_bounds while_alnum buf c0 eq_refl (proj1 Hw)) as [Hb1 Hb2].
  rewrite scan_found_buf in * by done. cbn [snd] in Hc1.
  set (c1 := scan_while _ _ _) in *.
  destruct (not_null _); cbn [negb]; [done|].
  exists (c_str c1). destruct Hc1. split; [lia|done].
Qed.

Lemma cursor_ok_run n buf : forall ini c,
  cursor_ok buf c ->
  match run n buf ini c with
  | inl (_, c') => cursor_ok buf c'
  | inr r =>
      forall line msg, r_log r = Some (line, msg) ->
      exists p, p <= strlen buf /\ line = line_of buf p
  end.
Proof.
  induction n as [|n IH]; intros ini c Hok; simpl; [done|].
  destruct (_ =?c NUL); [done|].
  pose proof (cursor_ok_body buf ini c Hok) as Hb.
  destruct (parse_body buf ini c) as [ini1 c1|line msg ini1]; [by apply IH|].
  simpl. intros line' msg' Heq. simplify_eq.
  destruct Hb as (p & Hp & Hl). exists p. split; [lia|done].
Qed.

End LineCounter.

(** * Further properties of [parse] *)

Lemma SkipWhitespace_not_space buf c :
  isspace (char_at buf (c_str c)) = false -> SkipWhitespace buf c = c.
Proof.
  intros Hc. unfold SkipWhitespace. rewrite char_at_drop in Hc.
  destruct (drop (c_str c) buf) as [|ch rest]; [done|].
  simpl in *. by rewrite Hc.
Qed.

Lemma SkipWhitespace_idem buf c :
  SkipWhitespace buf (SkipWhitespace buf c) = SkipWhitespace buf c.
Proof.
  apply SkipWhitespace_not_space. rewrite SkipWhitespace_scan.
  by apply scan_exit.
Qed.

Lemma key_le_refl k : key_le k k.
Proof. by repeat split. Qed.

Lemma sec_le_refl s : sec_le s s.
Proof. by repeat split. Qed.

Lemma extends_refl ini : extends ini ini.
Proof.
  split; [done|]. split; intros i x Hx; exists x; by split.
Qed.

Lemma extends_trans ini1 ini2 ini3 :
  extends ini1 ini2 -> extends ini2 ini3 -> extends ini1 ini3.
Proof.
  intros (Hv1 & Hk1 & Hs1) (Hv2 & Hk2 & Hs2). split; [by etrans|]. split.
  - intros i k Hk. destruct (Hk1 i k Hk) as (k' & Hk' & H1 & H2 & H3).
    destruct (Hk2 i k' Hk') as (k'' & Hk'' & H4 & H5 & H6).
    exists k''. split; [done|]. unfold key_le. split; [congruence|].
    split; [congruence|lia].
  - intros i s Hs. destruct (Hs1 i s Hs) as (s' & Hs' & H1 & H2 & H3).
    destruct (Hs2 i s' Hs') as (s'' & Hs'' & H4 & H5 & H6).
    exists s''. split; [done|]. unfold sec_le. split; [congruence|].
    split; [congruence|lia].
Qed.

(** What [v.back()] updated in place does to the elements of [v]. *)
Lemma alter_back_lookup {A} (R : A -> A -> Prop) (f : A -> A) (v : list A) :
  (forall x, R x x) -> (forall x, R x (f x)) ->
  forall i x, v !! i = Some x ->
    exists x', alter_back f v !! i = Some x' /\ R x x'.
Proof.
  intros Hrefl Hf i x Hx. unfold alter_back.
  destruct (decide (i = pred (length v))) as [->|Hne].
  - rewrite list_lookup_alter_eq, Hx. simpl. by eauto.
  - rewrite list_lookup_alter_ne by done. by eauto.
Qed.

Lemma app_lookup_le {A} (R : A -> A -> Prop) (v w : list A) :
  (forall x, R x x) ->
  forall i x, v !! i = Some x -> exists x', (v ++ w) !! i = Some x' /\ R x x'.
Proof.
  intros Hrefl i x Hx. exists x. split; [|done].
  by apply lookup_app_l_Some.
Qed.

Lemma extends_push_section s ini : extends ini (push_section s ini).
Proof.
  split; [done|]. split; simpl.
  - intros i k Hk. exists k. split; [done|apply key_le_refl].
  - apply app_lookup_le, sec_le_refl.
Qed.

Lemma extends_push_key k ini : extends ini (push_key k ini).
Proof.
  split; [done|]. split; simpl.
  - apply app_lookup_le, key_le_refl.
  - apply alter_back_lookup; [apply sec_le_refl|].
    intros s. unfold sec_le. simpl. split; [done|]. split; [done|lia].
Qed.

Lemma extends_push_value v ini : extends ini (push_value v ini).
Proof.
  split; [by apply prefix_app_r|]. split; simpl; intros i x Hx; exists x;
    (split; [done|]); [apply key_le_refl|apply sec_le_refl].
Qed.

Lemma extends_alter_back_key f ini :
  (forall k, key_le k (f k)) -> extends ini (alter_back_key f ini).
Proof.
  intros Hf. split; [done|]. split; simpl.
  - apply alter_back_lookup; [apply key_le_refl|done].
  - intros i s Hs. exists s. split; [done|apply sec_le_refl].
Qed.

Lemma key_le_set_type ty k : key_le k (Key.set_type ty k).
Proof. by repeat split. Qed.

Lemma key_le_incr_count k : key_le k (Key.incr_count k).
Proof. unfold key_le. simpl. split; [done|]. split; [done|lia]. Qed.

Section Further.
Context `{Platform}.

Lemma extends_body buf ini c :
  extends ini (outcome_ini (parse_body buf ini c)).
Proof.
  unfold parse_body. cbv zeta.
  destruct (_ =?c ";"); [apply extends_refl|].
  destruct (_ =?c "[").
  { destruct (AdvanceToNext buf "]" _) as [found c1].
    destruct found; simpl; [apply extends_push_section|apply extends_refl]. }
  destruct (_ || _).
  { unfold parse_assignment.
    destruct (last (m_keys ini)) as [k|]; [|apply extends_refl]. cbv zeta.
    assert (Hset : forall ty, extends ini (alter_back_key (Key.set_type ty) ini))
      by (intros ty; apply extends_alter_back_key, key_le_set_type).
    assert (Hpush : forall ty v,
              extends ini (push_value v (alter_back_key (Key.set_type ty) ini))).
    { intros ty v. eapply extends_trans; [apply (Hset ty)|].
      apply extends_push_value. }
    destruct (scan_value buf _) as [ty v c'| |]; simpl;
      [|apply Hset|apply extends_refl].
    destruct (_ && _); simpl; [apply Hpush|].
    eapply extends_trans; [apply (Hpush ty v)|].
    apply extends_alter_back_key, key_le_incr_count. }
  destruct (negb _); [|apply extends_refl].
  destruct (isdigit _); [apply extends_refl|].
  destruct (AdvanceToNextNonAlphanumeric buf _) as [found c1].
  destruct found; simpl; [apply extends_push_key|apply extends_refl].
Qed.

Lemma extends_run n buf : forall ini c,
  extends ini (state_ini (run n buf ini c)).
Proof.
  induction n as [|n IH]; intros ini c; simpl; [apply extends_refl|].
  destruct (_ =?c NUL); [apply extends_refl|].
  pose proof (extends_body buf ini c) as Hb.
  destruct (parse_body buf ini c) as [ini1 c1|]; simpl in *; [|done].
  eapply extends_trans; [exact Hb|apply IH].
Qed.

Lemma extends_init ini : extends ini (parse_init ini).
Proof.
  unfold parse_init. destruct (m_sections ini);
    [apply extends_push_section|apply extends_refl].
Qed.

(** X14.  [parse] only appends to the store.  Whether it returns [kOk] or
    [kSyntax], the values it found are still there, first and unchanged;
    every key it found is still at its index with its name and value offset
    and at least as many values; every section it found is still at its
    index with its name and key offset and at least as many keys. *)
Theorem parse_extends_store
    (fuel : nat) (buf : list ascii) (ini : IniFile) (r : ParseResult) :
  parse fuel buf ini = Some r -> extends ini (r_ini r).
Proof.
  unfold parse. intros Hp.
  pose proof (extends_run fuel buf (parse_init ini) start) as Hr.
  destruct (run fuel buf (parse_init ini) start) as [|r']; [done|].
  simplify_eq. eapply extends_trans; [apply extends_init|exact Hr].
Qed.

(** X1.  At every head of the loop of [parse] the cursor is at or before the
    terminating null of the buffer: [parse] reads no byte past the end of
    its input. *)
Theorem parse_cursor_within_buffer
    (n : nat) (buf : list ascii) (ini ini' : IniFile) (c' : Cursor) :
  run n buf (parse_init ini) start = inl (ini', c') ->
  c_str c' <= strlen buf.
Proof.
  apply run_cursor_bounds. simpl. lia.
Qed.

(** X13.  The line counter of [parse] is right: at every head of the loop it
    is the 1-based line of the cursor (one more than the line feeds before
    it), and the line that a syntax error logs is the 1-based line of an
    offset of the buffer. *)
Theorem parse_line_counter (buf : list ascii) (ini : IniFile) :
  (forall n ini' c',
     run n buf (parse_init ini) start = inl (ini', c') ->
     c_line c' = line_of buf (c_str c')) /\
  (forall fuel r line msg,
     parse fuel buf ini = Some r -> r_log r = Some (line, msg) ->
     exists p, p <= strlen buf /\ line = line_of buf p).
Proof.
  split.
  - intros n ini' c' Hr.
    pose proof (cursor_ok_run n buf (parse_init ini) start
                  (cursor_ok_start buf)) as Hok.
    rewrite Hr in Hok. by destruct Hok.
  - intros fuel r line msg Hp Hl. unfold parse in Hp.
    pose proof (cursor_ok_run fuel buf (parse_init ini) start
                  (cursor_ok_start buf)) as Hok.
    destruct (run fuel buf (parse_init ini) start) as [|r']; [done|].
    simplify_eq. by apply (Hok line msg).
Qed.

Lemma parse_body_stray buf ini c :
  stray (char_at buf (c_str (SkipWhitespace buf c))) = true ->
  char_at buf (c_str c) <> NUL /\
  parse_body buf ini c =
    Continue (push_key (Key.mk (StringHash []) None
                               (length (m_values ini)) 0) ini)
             (SkipWhitespace buf c).
Proof.
  intros Hs. unfold stray in Hs.
  set (c0 := SkipWhitespace buf c) in *.
  set (ch := char_at buf (c_str c0)) in *.
  apply andb_true_iff in Hs as [Hs Halnum].
  apply andb_true_iff in Hs as [Hs Hnul].
  apply andb_true_iff in Hs as [Hs Hcomma].
  apply andb_true_iff in Hs as [Hs Heq].
  apply andb_true_iff in Hs as [Hsemi Hbra].
  apply negb_true_iff in Halnum, Hnul, Hcomma, Heq, Hsemi, Hbra.
  split.
  { apply SkipWhitespace_not_null. by apply ascii_eqb_neq. }
  unfold parse_body. cbv zeta. fold c0. fold ch.
  rewrite Hsemi, Hbra, Heq, Hcomma, Hnul. cbn [orb negb].
  assert (Hd : isdigit ch = false).
  { unfold isalnum in Halnum. by destruct (isdigit ch). }
  rewrite Hd.
  rewrite AdvanceToNextNonAlphanumeric_scan, scan_found_buf by done.
  assert (Hstay : scan_while while_alnum (drop (c_str c0) buf) c0 = c0).
  { unfold ch in Halnum. rewrite char_at_drop in Halnum.
    destruct (drop (c_str c0) buf) as [|x rest]; [done|].
    simpl in *. unfold while_alnum. by rewrite Halnum, andb_false_r. }
  rewrite Hstay. fold ch. unfold not_null. rewrite Hnul. cbn [negb].
  by rewrite Nat.sub_diag, take_0.
Qed.

Lemma alter_back_count_S m secs :
  alter_back (fun s => Sec.mk (Sec.m_name s) (S m + Sec.m_count s)
                              (Sec.m_keyOffset s))
    (alter_back (fun s => Sec.mk (Sec.m_name s) (S (Sec.m_count s))
                                 (Sec.m_keyOffset s)) secs)
  = alter_back (fun s => Sec.mk (Sec.m_name s) (S (S m) + Sec.m_count s)
                                (Sec.m_keyOffset s)) secs.
Proof.
  destruct secs as [|x secs _] using rev_ind; [done|].
  rewrite !alter_back_snoc. simpl. do 2 f_equal. f_equal. lia.
Qed.

(** The passes at a stray byte: each of them appends the key of the empty
    token, counts it in the last section and leaves the cursor at the
    byte. *)
Lemma run_stray buf c :
  stray (char_at buf (c_str (SkipWhitespace buf c))) = true ->
  forall m ini1 c1,
    SkipWhitespace buf c1 = SkipWhitespace buf c ->
    run (S m) buf ini1 c1 =
      inl ({| m_sections :=
                alter_back (fun s => Sec.mk (Sec.m_name s)
                                            (S m + Sec.m_count s)
                                            (Sec.m_keyOffset s))
                           (m_sections ini1);
              m_keys :=
                m_keys ini1
                ++ replicate (S m) (Key.mk (StringHash []) None
                                           (length (m_values ini1)) 0);
              m_values := m_values ini1 |},
           SkipWhitespace buf c).
Proof.
  intros Hs. induction m as [|m IH]; intros ini1 c1 Hc1.
  - destruct (parse_body_stray buf ini1 c1) as (Hn & Hb); [by rewrite Hc1|].
    rewrite (run_S_continue 0 _ _ _ _ _ Hn Hb). by rewrite Hc1.
  - destruct (parse_body_stray buf ini1 c1) as (Hn & Hb); [by rewrite Hc1|].
    rewrite (run_S_continue (S m) _ _ _ _ _ Hn Hb). rewrite Hc1.
    rewrite IH by apply SkipWhitespace_idem.
    cbn [push_key m_sections m_keys m_values].
    rewrite alter_back_count_S, <- app_assoc. reflexivity.
Qed.

(** The loop that has arrived at a stray byte does not return. *)
Lemma stray_never_returns buf ini0 ini n c :
  run n buf (parse_init ini0) start = inl (ini, c) ->
  stray (char_at buf (c_str (SkipWhitespace buf c))) = true ->
  forall fuel, parse fuel buf ini0 = None.
Proof.
  intros Hrun Hs fuel. unfold parse.
  destruct (run fuel buf (parse_init ini0) start) as [|r] eqn:Hr; [done|].
  exfalso.
  pose proof (run_stray buf c Hs fuel ini c eq_refl) as Hstuck.
  assert (Hr' : run (n + S fuel) buf (parse_init ini0) start = inr r)
    by (apply (run_returned fuel); [done|lia]).
  rewrite run_add, Hrun, Hstuck in Hr'. done.
Qed.

(** X6.  A byte that starts no token stops the progress of [parse]: once the
    loop arrives, after [n] passes, at white space followed by a byte that is
    none of [;], [[], [=], [,], the null, and not alphanumeric, every further
    pass appends one key whose name is the hash of the empty token, with no
    type and no value, counts it in the last section, and leaves the values
    and the cursor as they are.  [parse] does not return, whatever the fuel.
    (The store of the model grows without bound; on a machine the loop goes
    on until [push_back] fails.) *)
Theorem parse_stuck_on_stray_byte
    (buf : list ascii) (ini0 ini : IniFile) (n : nat) (c : Cursor) :
  run n buf (parse_init ini0) start = inl (ini, c) ->
  stray (char_at buf (c_str (SkipWhitespace buf c))) = true ->
  (forall m,
     run (n + S m) buf (parse_init ini0) start
       = inl ({| m_sections :=
                   alter_back (fun s => Sec.mk (Sec.m_name s)
                                               (S m + Sec.m_count s)
                                               (Sec.m_keyOffset s))
                              (m_sections ini);
                 m_keys :=
                   m_keys ini
                   ++ replicate (S m) (Key.mk (StringHash []) None
                                              (length (m_values ini)) 0);
                 m_values := m_values ini |},
              SkipWhitespace buf c)) /\
  (forall fuel, parse fuel buf ini0 = None).
Proof.
  intros Hrun Hs. split.
  - intros m. rewrite run_add, Hrun. by apply run_stray.
  - by apply (stray_never_returns buf ini0 ini n c).
Qed.

(** ** C8 and C7 behind a stray byte *)

(** A buffer that starts with [my_]: the first pass stores the key [my], and
    the loop stays at the [_]. *)
Lemma parse_my_underscore (rest : list ascii) (ini : IniFile) :
  (forall m, exists ini',
     run (S (S m)) (buffer "my_" ++ rest) (parse_init ini) start
       = inl (ini', mkCursor 2 1)) /\
  (forall fuel, parse fuel (buffer "my_" ++ rest) ini = None).
Proof.
  set (buf := buffer "my_" ++ rest).
  destruct (parse_body_name buf (parse_init ini) start (buffer "my")
              (mkCursor 2 1) eq_refl) as [Hc0 Hb0].
  assert (Hrun : run 1 buf (parse_init ini) start
                   = inl (push_key (Key.mk (StringHash (buffer "my")) None
                                      (length (m_values (parse_init ini))) 0)
                                   (parse_init ini), mkCursor 2 1))
    by (by rewrite (run_S_continue 0 _ _ _ _ _ Hc0 Hb0)).
  assert (Hs : stray (char_at buf (c_str (SkipWhitespace buf (mkCursor 2 1))))
               = true) by reflexivity.
  split.
  - intros m. change (S (S m)) with (1 + S m).
    rewrite run_add, Hrun, (run_stray buf (mkCursor 2 1) Hs m _ _ eq_refl).
    by eexists.
  - by apply (stray_never_returns buf ini _ 1 (mkCursor 2 1) Hrun).
Qed.

(** C8, on the code.  [parse] on the buffer [my_key = ] followed by a double
    quote and [foo], whose quoted value has no closing quote, and on the
    buffer [! [foo], whose section header has no [']'], does not return a
    Syntax error: it does not return.
    On the first buffer the first pass stores the key [my] and the loop then
    stays at the [_] (offset 2), on the second it stays at the [!] (offset
    0); every pass appends a key and the unterminated token is never
    reached.  This holds for every hash function and every [strtol] and
    [strtod]. *)
Theorem unterminated_token_behind_stray_byte :
  ((forall fuel,
      parse fuel (buffer "my_key = " ++ QUOTE :: buffer "foo") empty_ini
        = None) /\
   (forall m, exists ini',
      run (S (S m)) (buffer "my_key = " ++ QUOTE :: buffer "foo")
          (parse_init empty_ini) start = inl (ini', mkCursor 2 1))) /\
  ((forall fuel, parse fuel (buffer "! [foo") empty_ini = None) /\
   (forall m, exists ini',
      run (S m) (buffer "! [foo") (parse_init empty_ini) start
        = inl (ini', start))).
Proof.
  split.
  - destruct (parse_my_underscore (buffer "key = " ++ QUOTE :: buffer "foo")
                empty_ini) as [Hstay Hnone].
    split; [exact Hnone|exact Hstay].
  - assert (Hs : stray (char_at (buffer "! [foo")
                          (c_str (SkipWhitespace (buffer "! [foo") start)))
                 = true) by reflexivity.
    split.
    + by apply (stray_never_returns (buffer "! [foo") empty_ini
                  (parse_init empty_ini) 0 start eq_refl).
    + intros m.
      rewrite (run_stray (buffer "! [foo") start Hs m _ _ eq_refl).
      by eexists.
Qed.

(** A buffer that starts with [a = 1 # note]: two passes store the key [a]
    and its value, and the loop stays at the [#]. *)
Lemma parse_number_then_hash (rest : list ascii) :
  (forall m, exists ini',
     run (S (S (S m))) (buffer "a = 1 # note" ++ rest)
         (parse_init empty_ini) start = inl (ini', mkCursor 6 1)) /\
  (forall fuel, parse fuel (buffer "a = 1 # note" ++ rest) empty_ini = None).
Proof.
  set (buf := buffer "a = 1 # note" ++ rest).
  set (ini0 := parse_init empty_ini).
  destruct (parse_body_name buf ini0 start (buffer "a") (mkCursor 1 1) eq_refl)
    as [Hc0 Hb0].
  destruct (next_value_number buf (mkCursor 1 1) (mkCursor 4 1) eq_refl eq_refl)
    as (ty & v & Hnv & _).
  change ((AdvanceToNextWhiteSpaceOrComma buf _).2) with (mkCursor 5 1) in Hnv.
  match type of Hb0 with _ = Continue ?i _ => set (ini1 := i) in * end.
  edestruct (run_values buf ty [(ty, v)] ini1 (mkCursor 1 1) (mkCursor 5 1) [])
    as (k & Hrunv & _).
  { reflexivity. } { by left. } { by repeat constructor. }
  { simpl. eexists. split; [exact Hnv|done]. }
  cbn [length] in Hrunv.
  match type of Hrunv with _ = inl (?i, _) => set (ini2 := i) in * end.
  assert (Hrun : run 2 buf ini0 start = inl (ini2, mkCursor 5 1)).
  { change 2 with (1 + 1).
    by rewrite run_add, (run_S_continue 0 _ _ _ _ _ Hc0 Hb0). }
  assert (Hs : stray (char_at buf (c_str (SkipWhitespace buf (mkCursor 5 1))))
               = true) by reflexivity.
  split.
  - intros m. change (S (S (S m))) with (2 + S m).
    rewrite run_add, Hrun, (run_stray buf (mkCursor 5 1) Hs m _ _ eq_refl).
    by eexists.
  - by apply (stray_never_returns buf empty_ini ini2 2 (mkCursor 5 1) Hrun).
Qed.

(** C7, on the code.  [parse] on the buffer [a = 1 # note], a line feed, then
    [b = 1, "x"], in which the property name [b] is followed by values of
    differing inferred types, does not return a Syntax error: it does not
    return.  Two passes store the key [a] and its value; the loop then stays
    at the [#] (offset 6), every pass appends a key, and the array is never
    reached.  The same holds when the array is [b = 1, 2]: its values are
    never accumulated.  This holds for every hash function and every
    [strtol] and [strtod]. *)
Theorem array_behind_stray_byte :
  ((forall fuel,
      parse fuel (buffer "a = 1 # note" ++ "010" :: buffer "b = 1, "
                  ++ quoted "x") empty_ini = None) /\
   (forall m, exists ini',
      run (S (S (S m))) (buffer "a = 1 # note" ++ "010" :: buffer "b = 1, "
                         ++ quoted "x")
          (parse_init empty_ini) start = inl (ini', mkCursor 6 1))) /\
  (forall fuel,
     parse fuel (buffer "a = 1 # note" ++ "010" :: buffer "b = 1, 2")
           empty_ini = None).
Proof.
  split.
  - destruct (parse_number_then_hash ("010" :: buffer "b = 1, " ++ quoted "x"))
      as [Hstay Hnone].
    split; [exact Hnone|exact Hstay].
  - by destruct (parse_number_then_hash ("010" :: buffer "b = 1, 2")).
Qed.

End Further.

(** * Further properties of the destructor and of [getProperty] *)

(** The address of a value that is held, and the address at the end of the
    values. *)
Lemma value_address_in_range values i :
  i < length values -> value_address values i = Some i.
Proof. destruct values, i; simpl; (lia || done). Qed.

Lemma value_address_end values :
  value_address values (length values) =
    match values with [] => None | _ => Some (length values) end.
Proof. by destruct values. Qed.

(** The view of a key that [getProperty] builds. *)
Lemma scan_keys_hit values keys key ret : forall todo i j k,
  i <= j < i + todo ->
  keys !! j = Some k ->
  Key.m_key k = key ->
  (forall j' k', i <= j' < j -> keys !! j' = Some k' -> Key.m_key k' <> key) ->
  scan_keys values keys key i todo ret =
    Some (Property.mk (Key.m_type k) (Key.m_count k)
                      (value_address values (Key.m_valueOffset k))).
Proof.
  induction todo as [|todo IH]; intros i j k Hj Hk Hkey Hno; [lia|]. simpl.
  destruct (decide (i = j)) as [->|Hne].
  - rewrite Hk, Hkey, Z.eqb_refl. done.
  - assert (Hlt : i < length keys).
    { apply lookup_lt_Some in Hk. lia. }
    destruct (lookup_lt_is_Some_2 keys i Hlt) as [k0 Hk0]. rewrite Hk0.
    destruct (Key.m_key k0 =? key)%Z eqn:E.
    + apply Z.eqb_eq in E. exfalso. apply (Hno i k0); [lia|done..].
    + apply (IH (S i) j k); [lia|done..|].
      intros j' k' Hj'. apply Hno. lia.
Qed.

Lemma scan_keys_result values keys key ret : forall todo i p,
  scan_keys values keys key i todo ret = Some p ->
  p = ret \/
  exists k, k ∈ keys /\
    p = Property.mk (Key.m_type k) (Key.m_count k)
                    (value_address values (Key.m_valueOffset k)).
Proof.
  induction todo as [|todo IH]; intros i p Hs; simpl in Hs.
  - left. by simplify_eq.
  - destruct (keys !! i) as [k|] eqn:Hk; [|done].
    destruct (Key.m_key k =? key)%Z.
    + right. exists k. split; [|by simplify_eq].
      apply list_elem_of_lookup. by eauto.
    + by apply (IH (S i)).
Qed.

Lemma find_section_first secs name range : forall i s,
  secs !! i = Some s ->
  Sec.m_name s = name ->
  (forall j s', j < i -> secs !! j = Some s' -> Sec.m_name s' <> name) ->
  find_section secs name range = (Sec.m_keyOffset s, Sec.m_count s).
Proof.
  induction secs as [|x secs IH]; intros i s Hs Hn Hno; [done|]. simpl.
  destruct i as [|i]; simpl in Hs.
  - simplify_eq. by rewrite Z.eqb_refl.
  - destruct (Sec.m_name x =? name)%Z eqn:E.
    + apply Z.eqb_eq in E. exfalso. apply (Hno 0 x); [lia|done..].
    + apply (IH i s); [done..|]. intros j s' Hj Hs'.
      apply (Hno (S j) s'); [lia|done].
Qed.

Section FurtherLookups.
Context `{Platform}.

Lemma parse_body_error_store buf ini c line msg ini' :
  parse_body buf ini c = SyntaxError line msg ini' ->
  msg <> "Unterminated string"%string ->
  msg <> "Invalid array (arrays must be homogeneous)"%string ->
  ini' = ini.
Proof.
  unfold parse_body. cbv zeta.
  destruct (_ =?c ";"); [done|].
  destruct (_ =?c "[").
  { destruct (AdvanceToNext buf "]" _) as [found c1].
    destruct found; cbn [negb]; [done|]. intros Heq. by simplify_eq. }
  destruct (_ || _).
  { unfold parse_assignment.
    destruct (last (m_keys ini)) as [k|]; [|intros Heq; by simplify_eq].
    cbv zeta. destruct (scan_value buf _) as [ty v c'| |].
    - destruct (_ && _); [|done]. intros Heq. by simplify_eq.
    - intros Heq. by simplify_eq.
    - intros Heq. by simplify_eq. }
  destruct (negb _); [|done].
  destruct (isdigit _); [intros Heq; by simplify_eq|].
  destruct (AdvanceToNextNonAlphanumeric buf _) as [found c1].
  destruct found; cbn [negb]; [done|]. intros Heq. by simplify_eq.
Qed.

Lemma values_ok_run_error n buf : forall ini c,
  values_ok ini ->
  match run n buf ini c with
  | inl _ => True
  | inr r =>
      (forall line, r_log r <> Some (line, "Unterminated string"%string)) ->
      (forall line,
         r_log r
           <> Some (line, "Invalid array (arrays must be homogeneous)"%string))
      -> values_ok (r_ini r)
  end.
Proof.
  induction n as [|n IH]; intros ini c Hok; simpl; [done|].
  destruct (_ =?c NUL); [done|].
  destruct (parse_body buf ini c) as [ini1 c1|line msg ini1] eqn:Hb.
  - apply IH. by apply (values_ok_body buf ini c ini1 c1).
  - simpl. intros H1 H2.
    rewrite (parse_body_error_store buf ini c line msg ini1 Hb); [done| |].
    + intros ->. by apply (H1 line).
    + intros ->. by apply (H2 line).
Qed.

(** X2.  On a store whose keys tile the value list with values of the key's
    type (the empty store is one), a call of [parse] that returns [kOk], or
    returns [kSyntax] from any exit other than "Unterminated string" and
    "Invalid array (arrays must be homogeneous)", leaves such a store, and on
    it the destructor runs [delete[]] on exactly the values that own a string
    buffer, on each once. *)
Theorem destructor_releases_owned
    (fuel : nat) (buf : list ascii) (ini : IniFile) (r : ParseResult) :
  values_ok ini ->
  parse fuel buf ini = Some r ->
  (forall line, r_log r <> Some (line, "Unterminated string"%string)) ->
  (forall line,
     r_log r
       <> Some (line, "Invalid array (arrays must be homogeneous)"%string)) ->
  values_ok (r_ini r) /\
  released (r_ini r) = owned (r_ini r) /\
  NoDup (released (r_ini r)).
Proof.
  intros Hok Hp H1 H2. unfold parse in Hp.
  assert (Hinit : values_ok (parse_init ini)).
  { unfold parse_init. destruct (m_sections ini); [|done].
    by apply values_ok_push_section. }
  pose proof (values_ok_run_error fuel buf _ start Hinit) as Hrun.
  destruct (run fuel buf (parse_init ini) start) as [|r'] eqn:Hr; [done|].
  simplify_eq. specialize (Hrun H1 H2). split; [done|].
  rewrite (values_ok_released _ Hrun). split; [done|].
  unfold owned. apply NoDup_filter, NoDup_seq.
Qed.

(** X3.  On a store whose keys tile the value list with values of the key's
    type, the view that [getProperty] returns can be read: either it has no
    first value and count 0, or its [count] values from [first] on lie within
    the value list and each holds the member of the union that the view's
    type names. *)
Theorem getProperty_view_readable
    (ini : IniFile) (_key : list ascii) (_section : option (list ascii))
    (p : Property.t) :
  values_ok ini ->
  getProperty ini _key _section = Some p ->
  match Property.m_first p with
  | None => Property.m_count p = 0
  | Some first =>
      first + Property.m_count p <= length (m_values ini) /\
      forall j, first <= j < first + Property.m_count p ->
        exists v, m_values ini !! j = Some v /\
                  Property.m_type p = Some (type_of v)
  end.
Proof.
  intros (Hr & Ht & Hty) Hp. unfold getProperty, getPropertyH in Hp.
  destruct (search_range ini _) as [koff kcount].
  apply scan_keys_result in Hp as [->|(k & Hk & ->)]; [done|].
  cbn [Property.m_first Property.m_count Property.m_type].
  destruct (key_ranges_bounds 0 _ k Hr Hk) as [_ Hb].
  assert (Hfirst : value_address (m_values ini) (Key.m_valueOffset k)
                     = Some (Key.m_valueOffset k) \/
                   value_address (m_values ini) (Key.m_valueOffset k) = None
                   /\ m_values ini = []).
  { unfold value_address.
    destruct (m_values ini), (Key.m_valueOffset k); by eauto. }
  destruct Hfirst as [Hfirst|[Hfirst Hnil]]; rewrite Hfirst.
  2:{ rewrite Ht, Hnil in Hb. simpl in Hb. lia. }
  split; [lia|]. intros j Hj.
  destruct (lookup_lt_is_Some_2 (m_values ini) j) as [v Hv]; [lia|].
  exists v. split; [done|].
  by apply (proj1 (Forall_forall _ _) Hty k Hk j v).
Qed.

(** X4.  [getProperty] returns the view of the first key of the scanned
    range whose name has the hash of the key name: its type, its count and
    the address [&m_values[m_valueOffset]], which is the address of the first
    value of the key when the key has one (its offset is then below the
    number of values).  Keys of that name further on in the range are never
    returned. *)
Theorem getProperty_first_match
    (ini : IniFile) (_key : list ascii) (_section : option (list ascii))
    (koff kcount i : nat) (k : Key.t) :
  search_range ini (match _section with
                    | Some name => StringHash (until_null name)
                    | None => kInvalidHash
                    end) = (koff, kcount) ->
  koff <= i < koff + kcount ->
  m_keys ini !! i = Some k ->
  Key.m_key k = StringHash (until_null _key) ->
  (forall j k', koff <= j < i -> m_keys ini !! j = Some k' ->
                Key.m_key k' <> StringHash (until_null _key)) ->
  getProperty ini _key _section =
    Some (Property.mk (Key.m_type k) (Key.m_count k)
                      (value_address (m_values ini) (Key.m_valueOffset k))) /\
  (Key.m_valueOffset k < length (m_values ini) ->
   getProperty ini _key _section =
     Some (Property.mk (Key.m_type k) (Key.m_count k)
                       (Some (Key.m_valueOffset k)))).
Proof.
  intros Hr Hi Hk Hkey Hno.
  assert (Hget : getProperty ini _key _section =
            Some (Property.mk (Key.m_type k) (Key.m_count k)
                    (value_address (m_values ini) (Key.m_valueOffset k)))).
  { unfold getProperty, getPropertyH. rewrite Hr.
    by apply (scan_keys_hit _ _ _ _ kcount koff i k). }
  split; [exact Hget|].
  intros Hlt. by rewrite Hget, value_address_in_range.
Qed.

(** X5.  A lookup with a section name scans the keys of the first section
    of that name only: its key offset and count are the scanned range, also
    when a later section has the same name. *)
Theorem search_range_first_section
    (ini : IniFile) (name : Z) (i : nat) (s : Sec.t) :
  name <> kInvalidHash ->
  m_sections ini !! i = Some s ->
  Sec.m_name s = name ->
  (forall j s', j < i -> m_sections ini !! j = Some s' ->
                Sec.m_name s' <> name) ->
  search_range ini name = (Sec.m_keyOffset s, Sec.m_count s).
Proof.
  intros Hn Hs Hname Hno. unfold search_range. cbv zeta.
  apply Z.eqb_neq in Hn. rewrite Hn. cbn [negb].
  by apply (find_section_first _ _ _ i s).
Qed.

End FurtherLookups.

(** * The other error exits of [parse] *)

Lemma alnum_to_end buf c :
  Forall (fun ch => isalnum ch = true) (cstr buf (c_str c)) ->
  (AdvanceToNextNonAlphanumeric buf c).1 = false /\
  c_line (AdvanceToNextNonAlphanumeric buf c).2 = c_line c.
Proof.
  intros Hall. rewrite AdvanceToNextNonAlphanumeric_scan, scan_found_buf by done.
  cbn [fst snd]. split.
  - pose proof (scan_while_buf while_alnum eq_refl buf c) as Hb.
    cbv zeta in Hb. destruct Hb as (Hle & Hin & Hex & _).
    set (r := scan_while while_alnum (drop (c_str c) buf) c) in *.
    destruct (not_null (char_at buf (c_str r))) eqn:Hn; [|done].
    exfalso. unfold while_alnum in Hex. rewrite Hn in Hex. simpl in Hex.
    apply not_null_true in Hn.
    assert (Hel : char_at buf (c_str r) ∈ cstr buf (c_str c)).
    { replace (c_str r) with (c_str c + (c_str r - c_str c)) by lia.
      apply cstr_elem. intros i Hi.
      destruct (decide (i = c_str r)) as [->|Hne]; [done|].
      assert (Hp : while_alnum (char_at buf i) = true) by (apply Hin; lia).
      apply andb_true_iff in Hp as [Hp _]. by apply not_null_true. }
    apply (proj1 (Forall_forall _ _) Hall) in Hel. congruence.
  - apply scan_while_same_line. intros ch Hc.
    apply andb_true_iff in Hc as [_ Hc]. by apply isalnum_not_line_end.
Qed.

Section ErrorExits.
Context `{Platform}.

(** The pass that logs an error ends [parse], whatever fuel is left. *)
Lemma parse_returns_at buf ini0 ini n c line msg ini' :
  run n buf (parse_init ini0) start = inl (ini, c) ->
  char_at buf (c_str c) <> NUL ->
  parse_body buf ini c = SyntaxError line msg ini' ->
  forall fuel, n < fuel ->
    parse fuel buf ini0 = Some (mkResult kSyntax (Some (line, msg)) ini').
Proof.
  intros Hrun Hc Hb fuel Hfuel. unfold parse.
  replace fuel with (n + S (fuel - S n)) by lia.
  rewrite run_add, Hrun. by rewrite (run_S_error _ _ _ _ _ _ _ Hc Hb).
Qed.

(** X7.  A property name that begins with a digit is a syntax error: when the
    loop arrives at white space followed by a digit, [parse] returns
    [kSyntax], logs "Property names cannot begin with a number" with the line
    of the digit, and leaves the store as that pass found it. *)
Theorem name_starting_with_digit
    (buf : list ascii) (ini0 ini : IniFile) (n : nat) (c : Cursor) :
  run n buf (parse_init ini0) start = inl (ini, c) ->
  isdigit (char_at buf (c_str (SkipWhitespace buf c))) = true ->
  forall fuel, n < fuel ->
    parse fuel buf ini0 =
      Some (mkResult kSyntax
              (Some (c_line (SkipWhitespace buf c),
                     "Property names cannot begin with a number"%string))
              ini).
Proof.
  intros Hrun Hd. apply (parse_returns_at buf ini0 ini n c); [done| |].
  - apply SkipWhitespace_not_null. intros Hn. rewrite Hn in Hd.
    by vm_compute in Hd.
  - unfold parse_body. cbv zeta.
    set (ch := char_at buf (c_str (SkipWhitespace buf c))) in *.
    destruct (ch =?c ";") eqn:E1.
    { apply ascii_eqb_eq in E1. rewrite E1 in Hd. by vm_compute in Hd. }
    destruct (ch =?c "[") eqn:E2.
    { apply ascii_eqb_eq in E2. rewrite E2 in Hd. by vm_compute in Hd. }
    destruct (ch =?c "=") eqn:E3.
    { apply ascii_eqb_eq in E3. rewrite E3 in Hd. by vm_compute in Hd. }
    destruct (ch =?c ",") eqn:E4.
    { apply ascii_eqb_eq in E4. rewrite E4 in Hd. by vm_compute in Hd. }
    destruct (ch =?c NUL) eqn:E5.
    { apply ascii_eqb_eq in E5. rewrite E5 in Hd. by vm_compute in Hd. }
    cbn [orb negb]. by rewrite Hd.
Qed.

(** X8.  A ['='] or [','] met while the store holds no key is a syntax
    error: [parse] returns [kSyntax], logs "Unexpected '=' or ',' no property
    name was specified" with the line of the separator, and leaves the store
    as that pass found it. *)
Theorem separator_before_any_key
    (buf : list ascii) (ini0 ini : IniFile) (n : nat) (c cv : Cursor) :
  run n buf (parse_init ini0) start = inl (ini, c) ->
  at_separator buf c = Some cv ->
  m_keys ini = [] ->
  forall fuel, n < fuel ->
    parse fuel buf ini0 =
      Some (mkResult kSyntax
              (Some (c_line (SkipWhitespace buf c),
                     "Unexpected '=' or ',' no property name was specified"
                       %string))
              ini).
Proof.
  intros Hrun Hsep Hk. apply (parse_returns_at buf ini0 ini n c); [done| |].
  - by apply (at_separator_not_null _ _ _ Hsep).
  - rewrite (parse_body_at_separator _ _ _ _ Hsep).
    unfold parse_assignment. by rewrite Hk.
Qed.

(** X9.  A property name that runs to the end of the buffer is a syntax
    error: when the loop arrives at white space followed by alphanumeric
    bytes only up to the null, the first of them no digit, [parse] returns
    [kSyntax], logs "Unexpected end of file" with the line of the name, and
    leaves the store as that pass found it (the name is not made a key). *)
Theorem name_at_end_of_buffer
    (buf : list ascii) (ini0 ini : IniFile) (n : nat) (c : Cursor) :
  run n buf (parse_init ini0) start = inl (ini, c) ->
  cstr buf (c_str (SkipWhitespace buf c)) <> [] ->
  Forall (fun ch => isalnum ch = true)
         (cstr buf (c_str (SkipWhitespace buf c))) ->
  isdigit (char_at buf (c_str (SkipWhitespace buf c))) = false ->
  forall fuel, n < fuel ->
    parse fuel buf ini0 =
      Some (mkResult kSyntax
              (Some (c_line (SkipWhitespace buf c),
                     "Unexpected end of file"%string))
              ini).
Proof.
  intros Hrun Hne Hall Hd.
  set (c0 := SkipWhitespace buf c) in *.
  set (ch := char_at buf (c_str c0)) in *.
  assert (Hch : ch <> NUL /\ isalnum ch = true).
  { rewrite cstr_unfold in Hne, Hall. fold ch in Hne, Hall.
    destruct (ch =?c NUL) eqn:E; [done|]. split; [by apply ascii_eqb_neq|].
    by apply Forall_cons in Hall as [Ha _]. }
  destruct Hch as [Hnn Ha].
  apply (parse_returns_at buf ini0 ini n c); [done| |].
  - by apply SkipWhitespace_not_null.
  - unfold parse_body. cbv zeta. fold c0. fold ch.
    destruct (ch =?c ";") eqn:E1.
    { apply ascii_eqb_eq in E1. rewrite E1 in Ha. by vm_compute in Ha. }
    destruct (ch =?c "[") eqn:E2.
    { apply ascii_eqb_eq in E2. rewrite E2 in Ha. by vm_compute in Ha. }
    destruct (ch =?c "=") eqn:E3.
    { apply ascii_eqb_eq in E3. rewrite E3 in Ha. by vm_compute in Ha. }
    destruct (ch =?c ",") eqn:E4.
    { apply ascii_eqb_eq in E4. rewrite E4 in Ha. by vm_compute in Ha. }
    apply ascii_eqb_neq in Hnn. rewrite Hnn, Hd. cbn [orb negb].
    destruct (alnum_to_end buf c0 Hall) as [Hf Hl].
    destruct (AdvanceToNextNonAlphanumeric buf c0) as [found c1].
    simpl in Hf, Hl. subst found. cbn [negb]. by rewrite Hl.
Qed.

(** X10.  After a separator, white space and comments, a byte that is none
    of the double quote, [t], [f], a digit, [-] and [+] (the null included)
    is a syntax error: [parse] returns [kSyntax], logs "Invalid value" with
    the line of that byte, and leaves the store, the type of the last key
    included, as that pass found it. *)
Theorem invalid_value
    (buf : list ascii) (ini0 ini : IniFile) (n : nat) (c cv : Cursor)
    (k : Key.t) :
  run n buf (parse_init ini0) start = inl (ini, c) ->
  at_separator buf c = Some cv ->
  last (m_keys ini) = Some k ->
  value_start (char_at buf (c_str cv)) = false ->
  forall fuel, n < fuel ->
    parse fuel buf ini0 =
      Some (mkResult kSyntax (Some (c_line cv, "Invalid value"%string)) ini).
Proof.
  intros Hrun Hsep Hk Hv. apply (parse_returns_at buf ini0 ini n c); [done| |].
  - by apply (at_separator_not_null _ _ _ Hsep).
  - rewrite (parse_body_at_separator _ _ _ _ Hsep).
    unfold at_separator in Hsep. cbv zeta in Hsep.
    destruct (_ || _) in Hsep; [|done]. simplify_eq.
    unfold parse_assignment. rewrite Hk. cbv zeta.
    set (cv := skip_comments _ _ _) in *.
    assert (Hs : scan_value buf cv = ScanInvalid).
    { unfold scan_value, value_start in *. cbv zeta.
      repeat (apply orb_false_iff in Hv as [Hv ?]).
      repeat match goal with
             | Hx : _ = false |- _ => rewrite Hx; clear Hx
             end.
      done. }
    by rewrite Hs.
Qed.

(** X16.  A buffer that holds white space only before its null (the empty
    buffer is one) parses to [kOk] within two passes; nothing is logged, and
    nothing is added to the store but the default section when the store has
    no section yet. *)
Theorem parse_blank_buffer (buf : list ascii) (ini : IniFile) :
  Forall (fun ch => isspace ch = true) (cstr buf 0) ->
  forall fuel, 2 <= fuel ->
    parse fuel buf ini = Some (mkResult kOk None (parse_init ini)).
Proof.
  intros Hall fuel Hfuel. unfold parse.
  assert (Hrun : run 2 buf (parse_init ini) start
                 = inr (mkResult kOk None (parse_init ini)));
    [|by rewrite (run_returned 2 fuel _ _ _ _ Hrun Hfuel)].
  cbn [run]. change (c_str start) with 0.
  destruct (char_at buf 0 =?c NUL) eqn:E0; [done|].
  assert (Hw : char_at buf (c_str (SkipWhitespace buf start)) = NUL).
  { rewrite SkipWhitespace_scan.
    pose proof (scan_while_buf isspace eq_refl buf start) as Hb.
    cbv zeta in Hb. destruct Hb as (Hle & Hin & Hex & _).
    set (r := scan_while isspace (drop (c_str start) buf) start) in *.
    destruct (char_at buf (c_str r) =?c NUL) eqn:En;
      [by apply ascii_eqb_eq|].
    apply ascii_eqb_neq in En. rename En into Hn. exfalso.
    assert (Hel : char_at buf (c_str r) ∈ cstr buf 0).
    { replace (c_str r) with (0 + c_str r) by lia.
      apply cstr_elem. intros i Hi.
      destruct (decide (i = c_str r)) as [->|Hne]; [done|].
      apply isspace_not_null, Hin. simpl. lia. }
    apply (proj1 (Forall_forall _ _) Hall) in Hel. congruence. }
  unfold parse_body. cbv zeta. rewrite Hw.
  change (NUL =?c ";") with false. change (NUL =?c "[") with false.
  change (NUL =?c "=") with false. change (NUL =?c ",") with false.
  change (NUL =?c NUL) with true. cbn [orb negb].
  by rewrite Hw.
Qed.

End ErrorExits.

(** * What is written is what is read *)

(** A scan over the bytes [s] that stops at the byte [d] after them. *)
Lemma scan_found_over p s d rest : forall c,
  Forall (fun ch => p ch = true /\ ch <> NUL) s ->
  p d = false ->
  scan_found p (s ++ d :: rest) c =
    (not_null d,
     {| c_str := c_str c + length s;
        c_line := (c_line c + Z.of_nat (line_feeds s))%Z |}).
Proof.
  induction s as [|ch s IH]; intros c Hall Hd; simpl.
  - rewrite Hd. destruct c. simpl. f_equal. f_equal; [lia|lia].
  - apply Forall_cons in Hall as [[Hp Hn] Hall]. rewrite Hp.
    rewrite IH by done. f_equal. unfold step_over. simpl.
    rewrite IsLineEnd_not_null by done. f_equal; [lia|].
    destruct (ch =?c "010"); lia.
Qed.

Lemma drop_app_cons {A} (pre : list A) x tl :
  drop (S (length pre)) (pre ++ x :: tl) = tl.
Proof.
  replace (pre ++ x :: tl) with ((pre ++ [x]) ++ tl) by (by rewrite <- app_assoc).
  replace (S (length pre)) with (length (pre ++ [x]))
    by (rewrite length_app; simpl; lia).
  apply drop_app_length.
Qed.

Lemma char_at_app_cons pre x tl : char_at (pre ++ x :: tl) (length pre) = x.
Proof. unfold char_at. by rewrite list_lookup_middle. Qed.

Lemma until_char_Forall d s :
  d ∉ s -> NUL ∉ s ->
  Forall (fun ch => until_char d ch = true /\ ch <> NUL) s.
Proof.
  intros Hd Hn. apply Forall_forall. intros ch Hch. split.
  - apply until_char_true. split; intros ->; tauto.
  - intros ->. tauto.
Qed.

Lemma until_null_id s : NUL ∉ s -> until_null s = s.
Proof.
  induction s as [|x s IH]; intros Hn; simpl; [done|].
  apply not_elem_of_cons in Hn as [Hx Hn].
  assert (Hx' : x <> NUL) by congruence.
  apply ascii_eqb_neq in Hx'. rewrite Hx'. by rewrite IH.
Qed.

Lemma alnum_line_feeds s :
  Forall (fun ch => isalnum ch = true) s -> line_feeds s = 0.
Proof.
  induction 1 as [|ch s Hch Hall IH]; simpl; [done|]. rewrite IH.
  destruct (ch =?c "010") eqn:E; [|done].
  apply ascii_eqb_eq in E. subst. by vm_compute in Hch.
Qed.

Lemma alnum_not_null s :
  Forall (fun ch => isalnum ch = true) s -> NUL ∉ s.
Proof.
  intros Hall Hin. apply (proj1 (Forall_forall _ _) Hall) in Hin.
  by vm_compute in Hin.
Qed.

Section RoundTrips.
Context `{Platform}.

(** X11.  A string between double quotes is read back verbatim: for bytes [s]
    that hold neither a double quote nor a null, the scan of a value at the
    opening quote of ["s"] gives the String value [s] (no escape is
    processed, no byte is dropped), leaves the cursor after the closing
    quote and counts the line feeds of [s]. *)
Theorem quoted_string_read_back
    (pre s rest : list ascii) (line : Z) :
  QUOTE ∉ s -> NUL ∉ s ->
  scan_value (pre ++ QUOTE :: s ++ QUOTE :: rest)
             {| c_str := length pre; c_line := line |}
    = ScanValue kString (VString s)
        {| c_str := length pre + length s + 2;
           c_line := (line + Z.of_nat (line_feeds s))%Z |}.
Proof.
  intros Hq Hn. unfold scan_value. cbv zeta. cbn [c_str c_line].
  rewrite char_at_app_cons, ascii_eqb_refl.
  rewrite AdvanceToNext_scan. cbn [c_str].
  rewrite !drop_app_cons.
  rewrite (scan_found_over (until_char QUOTE) s QUOTE rest);
    [|by apply until_char_Forall|by apply until_char_false; right].
  change (not_null QUOTE) with true. cbn [negb c_str c_line].
  replace (S (length pre) + length s - S (length pre)) with (length s) by lia.
  rewrite take_app_length. f_equal. f_equal. lia.
Qed.

(** X12.  A section header is read back verbatim: for bytes [name] that hold
    neither [']'] nor a null, the pass at the ['['] of [[name]] appends the
    section whose name is the hash of exactly [name] (white space included),
    with no key and starting at the end of the key list, and leaves the
    cursor after the [']'].  When that hash names no earlier section and is
    not the invalid hash, a lookup with that section name scans the keys of
    the new section. *)
Theorem section_header_read_back
    (pre name rest : list ascii) (line : Z) (ini : IniFile) :
  "]" ∉ name -> NUL ∉ name ->
  let buf := pre ++ "[" :: name ++ "]" :: rest in
  let ini' :=
    push_section (Sec.mk (StringHash name) 0 (length (m_keys ini))) ini in
  parse_body buf ini {| c_str := length pre; c_line := line |}
    = Continue ini'
        {| c_str := length pre + length name + 2;
           c_line := (line + Z.of_nat (line_feeds name))%Z |} /\
  (StringHash name <> kInvalidHash ->
   (forall s, s ∈ m_sections ini -> Sec.m_name s <> StringHash name) ->
   search_range ini' (StringHash name) = (length (m_keys ini), 0)).
Proof.
  intros Hb Hn buf ini'. split.
  - unfold parse_body. cbv zeta.
    rewrite SkipWhitespace_not_space
      by (cbn [c_str]; unfold buf; by rewrite char_at_app_cons).
    cbn [c_str c_line]. unfold buf. rewrite char_at_app_cons.
    change ("[" =?c ";") with false. change ("[" =?c "[") with true.
    cbv iota.
    rewrite AdvanceToNext_scan. cbn [c_str].
    rewrite drop_app_length.
    change ("[" :: name ++ "]" :: rest) with (("[" :: name) ++ "]" :: rest).
    rewrite (scan_found_over (until_char "]") ("[" :: name) "]" rest);
      [| |by apply until_char_false; right].
    + change (not_null "]") with true. cbn [negb c_str c_line].
      change (pre ++ ("[" :: name) ++ "]" :: rest)
        with (pre ++ "[" :: name ++ "]" :: rest).
      rewrite drop_app_cons.
      replace (length pre + length ("[" :: name) - S (length pre))
        with (length name) by (simpl; lia).
      rewrite take_app_length. subst ini'. f_equal.
      simpl. change ("[" =?c "010") with false. f_equal; lia.
    + apply until_char_Forall.
      * apply not_elem_of_cons. by split.
      * apply not_elem_of_cons. by split.
  - intros Hinv Hnew. unfold search_range. cbv zeta.
    apply Z.eqb_neq in Hinv. rewrite Hinv. cbn [negb]. subst ini'. simpl.
    rewrite (find_section_first _ _ _ (length (m_sections ini))
               (Sec.mk (StringHash name) 0 (length (m_keys ini)))); [done| |done|].
    + by rewrite list_lookup_middle.
    + intros j s' Hj Hs'. rewrite lookup_app_l in Hs' by done.
      apply Hnew. apply list_elem_of_lookup. by eauto.
Qed.

(** X18.  A property name is read back verbatim: for alphanumeric bytes
    [name], the first of them no digit, followed by a byte that is neither
    alphanumeric nor null, the pass at the name appends the key whose name is
    the hash of exactly [name], with no value and no type yet, starting at
    the end of the value list, counts it in the last section, and leaves the
    cursor after the name on the same line.  When that hash names no earlier
    key, [getProperty] without a section finds the new key: count 0, no
    type, and as first value the address at the end of the values, which is
    the null pointer while the store holds no value. *)
Theorem property_name_read_back
    (pre name rest : list ascii) (a d : ascii) (line : Z) (ini : IniFile) :
  Forall (fun ch => isalnum ch = true) (a :: name) ->
  isdigit a = false ->
  isalnum d = false -> d <> NUL ->
  let buf := pre ++ (a :: name) ++ d :: rest in
  let ini' :=
    push_key (Key.mk (StringHash (a :: name)) None (length (m_values ini)) 0)
             ini in
  parse_body buf ini {| c_str := length pre; c_line := line |}
    = Continue ini'
        {| c_str := length pre + length (a :: name); c_line := line |} /\
  ((forall k, k ∈ m_keys ini -> Key.m_key k <> StringHash (a :: name)) ->
   getProperty ini' (a :: name) None
     = Some (Property.mk None 0
               (match m_values ini with
                | [] => None
                | _ => Some (length (m_values ini))
                end))).
Proof.
  intros Hall Hdig Hd Hdn buf ini'.
  assert (Ha : isalnum a = true) by (by apply Forall_cons in Hall as [Ha _]).
  assert (Hch : char_at buf (length pre) = a).
  { unfold buf. simpl. by rewrite char_at_app_cons. }
  split.
  - unfold parse_body. cbv zeta.
    rewrite SkipWhitespace_not_space.
    2:{ cbn [c_str]. rewrite Hch. destruct (isspace a) eqn:E; [|done].
        exfalso. clear -Ha E. revert Ha E.
        destruct a as [[] [] [] [] [] [] [] []]; by vm_compute. }
    cbn [c_str c_line]. rewrite Hch.
    destruct (a =?c ";") eqn:E1.
    { apply ascii_eqb_eq in E1. rewrite E1 in Ha. by vm_compute in Ha. }
    destruct (a =?c "[") eqn:E2.
    { apply ascii_eqb_eq in E2. rewrite E2 in Ha. by vm_compute in Ha. }
    destruct (a =?c "=") eqn:E3.
    { apply ascii_eqb_eq in E3. rewrite E3 in Ha. by vm_compute in Ha. }
    destruct (a =?c ",") eqn:E4.
    { apply ascii_eqb_eq in E4. rewrite E4 in Ha. by vm_compute in Ha. }
    destruct (a =?c NUL) eqn:E5.
    { apply ascii_eqb_eq in E5. rewrite E5 in Ha. by vm_compute in Ha. }
    cbn [orb negb]. rewrite Hdig.
    rewrite AdvanceToNextNonAlphanumeric_scan. cbn [c_str]. unfold buf.
    rewrite drop_app_length.
    rewrite (scan_found_over while_alnum (a :: name) d rest).
    + apply not_null_true in Hdn. rewrite Hdn. cbn [negb c_str c_line].
      replace (length pre + length (a :: name) - length pre)
        with (length (a :: name)) by lia.
      rewrite take_app_length. rewrite (alnum_line_feeds _ Hall).
      f_equal. f_equal. lia.
    + apply Forall_forall. intros ch Hin.
      pose proof (proj1 (Forall_forall _ _) Hall ch Hin) as Hc.
      assert (Hnn : ch <> NUL) by (intros ->; by vm_compute in Hc).
      split; [|done]. unfold while_alnum.
      apply not_null_true in Hnn. by rewrite Hnn, Hc.
    + unfold while_alnum. by rewrite Hd, andb_false_r.
  - intros Hnew. unfold getProperty, getPropertyH, search_range.
    rewrite Z.eqb_refl. cbn [negb].
    rewrite (until_null_id _ (alnum_not_null _ Hall)).
    subst ini'. cbn [m_keys m_values push_key].
    rewrite (scan_keys_hit _ _ _ _ _ 0 (length (m_keys ini))
               (Key.mk (StringHash (a :: name)) None
                       (length (m_values ini)) 0));
      [by rewrite <- value_address_end| | |done|].
    + rewrite length_app. simpl. lia.
    + by rewrite list_lookup_middle.
    + intros j k' Hj Hk'. rewrite lookup_app_l in Hk' by lia.
      apply Hnew. apply list_elem_of_lookup. by eauto.
Qed.

End RoundTrips.

(** * A property that [parse] stores is found by [getProperty] *)

Lemma next_name_not_null buf c name c1 :
  next_name buf c = Some (name, c1) -> NUL ∉ name.
Proof.
  unfold next_name. cbv zeta.
  destruct (_ || _); [done|].
  rewrite AdvanceToNextNonAlphanumeric_scan, scan_found_buf by done.
  destruct (not_null _); [|done]. intros Heq. simplify_eq.
  pose proof (scan_while_buf while_alnum eq_refl buf (SkipWhitespace buf c))
    as Hb.
  cbv zeta in Hb. destruct Hb as (_ & Hin & _).
  intros Hnul.
  pose proof (token_not_null buf _ _
    (fun i Hi => not_null_andb _ _ (Hin i Hi))) as Hall.
  by apply (proj1 (Forall_forall _ _) Hall) in Hnul.
Qed.

Section StoredThenFound.
Context `{Platform}.

(** X19.  Take an input on which the loop of [parse] arrives, after [n]
    passes, at a property name that is followed by the separated values
    [tvs], all of the inferred type [ty], and whose hash names no earlier
    key.  Then the loop gets past the last value, the values are appended in
    order to the values of the store, and [getProperty] with that name and
    no section returns the view of them: type [ty] (no type for an empty
    list), as many values as the list has, and as first value the address at
    the former end of the values, which holds the first of them (for an
    empty list on a store without values it is the null pointer). *)
Theorem property_stored_then_found
    (buf : list ascii) (ini0 ini : IniFile) (n : nat) (c0 c c_end : Cursor)
    (name : list ascii) (tvs : list (ValueType * Value)) (ty : ValueType) :
  run n buf (parse_init ini0) start = inl (ini, c0) ->
  next_name buf c0 = Some (name, c) ->
  reads_values buf c tvs c_end ->
  all_of_type ty tvs ->
  (forall k, k ∈ m_keys ini -> Key.m_key k <> StringHash name) ->
  exists ini',
    run (n + 1 + length tvs) buf (parse_init ini0) start = inl (ini', c_end) /\
    m_values ini' = m_values ini ++ tvs.*2 /\
    getProperty ini' name None =
      Some (Property.mk (match tvs with [] => None | _ => Some ty end)
                        (length tvs)
                        (match m_values ini' with
                         | [] => None
                         | _ => Some (length (m_values ini))
                         end)).
Proof.
  intros Hrun Hname Hvals Hall Hnew.
  destruct (parse_body_name buf ini c0 name c Hname) as [Hc0 Hb0].
  set (k0 := Key.mk (StringHash name) None (length (m_values ini)) 0) in *.
  assert (Hrun1 : run (n + 1) buf (parse_init ini0) start
                    = inl (push_key k0 ini, c)).
  { by rewrite run_add, Hrun, (run_S_continue _ _ _ _ _ _ Hc0 Hb0). }
  edestruct (run_values buf ty tvs (push_key k0 ini) c c_end (m_keys ini) k0)
    as (k' & Hrunv & Hkey & Hoff & Hcnt & Hty & Hid); [done|by left|done..|].
  eexists. split.
  { rewrite <- Nat.add_assoc, Nat.add_assoc, run_add, Hrun1. apply Hrunv. }
  split; [done|].
  unfold getProperty, getPropertyH, search_range.
  rewrite Z.eqb_refl. cbn [negb m_keys].
  rewrite (until_null_id _ (next_name_not_null _ _ _ _ Hname)).
  rewrite (scan_keys_hit _ _ _ _ _ 0 (length (m_keys ini)) k').
  - f_equal. rewrite Hoff, Hcnt. cbn [Key.m_valueOffset Key.m_count m_values].
    destruct tvs as [|tv tvs].
    + rewrite (Hid eq_refl). simpl. rewrite app_nil_r.
      by rewrite value_address_end.
    + rewrite (Hty ltac:(done)). simpl. f_equal.
      rewrite value_address_in_range.
      * by destruct (m_values ini ++ _) eqn:E; [destruct (m_values ini)|].
      * rewrite length_app. simpl. lia.
  - rewrite length_app. simpl. lia.
  - by rewrite list_lookup_middle.
  - done.
  - intros j k1 Hj Hk1. rewrite lookup_app_l in Hk1 by lia.
    apply Hnew. apply list_elem_of_lookup. by eauto.
Qed.

End StoredThenFound.

(** * [ContainsAny] on any range and any set *)

Lemma ContainsAny_inner_general b set :
  ContainsAny_inner b set = existsb (fun y => b =?c y) (until_null set).
Proof.
  induction set as [|c set IH]; simpl; [done|].
  destruct (c =?c NUL); [done|]. simpl.
  by destruct (b =?c c).
Qed.

Lemma ContainsAny_from_forward set rest : forall _beg _end,
  _beg <= _end ->
  ContainsAny_from rest _beg _end set =
    token_contains_any (until_null (take (_end - _beg) rest)) (until_null set).
Proof.
  induction rest as [|b rest IH]; intros _beg _end Hle.
  - by rewrite take_nil.
  - cbn [ContainsAny_from].
    destruct (_beg =? _end)%nat eqn:E.
    + apply Nat.eqb_eq in E. subst. rewrite Nat.sub_diag, andb_false_r. done.
    + apply Nat.eqb_neq in E.
      replace (_end - _beg) with (S (_end - S _beg)) by lia.
      cbn [take until_null].
      destruct (b =?c NUL); [done|]. cbn [negb andb].
      unfold token_contains_any. cbn [existsb].
      rewrite ContainsAny_inner_general.
      destruct (existsb _ (until_null set)); [done|].
      apply IH. lia.
Qed.

Lemma ContainsAny_from_backward set rest : forall _beg _end,
  _end < _beg ->
  ContainsAny_from rest _beg _end set =
    token_contains_any (until_null rest) (until_null set).
Proof.
  induction rest as [|b rest IH]; intros _beg _end Hlt; [done|].
  cbn [ContainsAny_from until_null].
  assert (E : (_beg =? _end)%nat = false) by (apply Nat.eqb_neq; lia).
  rewrite E. destruct (b =?c NUL); [done|]. cbn [negb andb].
  unfold token_contains_any. cbn [existsb].
  rewrite ContainsAny_inner_general.
  destruct (existsb _ (until_null set)); [done|].
  apply IH. lia.
Qed.

(** X15.  [ContainsAny(_beg, _end, _c)] on any range and any set: it tells
    whether one of the bytes of the set, up to its null, occurs among the
    bytes from [_beg] up to [_end] or up to the first null, whichever comes
    first; the null itself is never looked for.  When [_end] lies before
    [_beg] the end is never met and the scan goes on to the null. *)
Theorem ContainsAny_any_range
    (buf : list ascii) (_beg _end : nat) (_c : list ascii) :
  (_beg <= _end ->
   ContainsAny buf _beg _end _c =
     token_contains_any (until_null (take (_end - _beg) (drop _beg buf)))
                        (until_null _c)) /\
  (_end < _beg ->
   ContainsAny buf _beg _end _c =
     token_contains_any (cstr buf _beg) (until_null _c)).
Proof.
  split; intros Hle; unfold ContainsAny.
  - by apply ContainsAny_from_forward.
  - by apply ContainsAny_from_backward.
Qed.

(** * The bytes that the cursor primitives cross *)

(** X17.  The five cursor primitives keep the line counter: started at or
    before the terminating null with a counter that is the 1-based line of
    its offset (one more than the line feeds before it), each of them leaves
    the counter the line of the offset it stops at. *)
Theorem primitives_keep_line_counter
    (buf : list ascii) (c : Cursor) (d : ascii) :
  c_str c <= strlen buf ->
  c_line c = line_of buf (c_str c) ->
  (let r := SkipWhitespace buf c in c_line r = line_of buf (c_str r)) /\
  (let r := (AdvanceToNext buf d c).2 in c_line r = line_of buf (c_str r)) /\
  (let r := (AdvanceToNextNonAlphanumeric buf c).2 in
   c_line r = line_of buf (c_str r)) /\
  (let r := (AdvanceToNextWhiteSpaceOrComma buf c).2 in
   c_line r = line_of buf (c_str r)) /\
  (let r := SkipLine buf c in c_line r = line_of buf (c_str r)).
Proof.
  intros Hb Hl. assert (Hok : cursor_ok buf c) by done.
  repeat split.
  - apply (cursor_ok_SkipWhitespace buf c Hok).
  - apply (cursor_ok_AdvanceToNext buf d c Hok).
  - apply (cursor_ok_AdvanceToNextNonAlphanumeric buf c Hok).
  - apply (cursor_ok_AdvanceToNextWhiteSpaceOrComma buf c Hok).
  - apply (cursor_ok_SkipLine buf c Hok).
Qed.

(** X20.  Each cursor primitive stops at the first byte where its loop ends:
    [SkipWhitespace] crosses white space only; [AdvanceToNext] crosses
    neither the delimiter nor a null; [AdvanceToNextNonAlphanumeric] crosses
    alphanumeric bytes only; [AdvanceToNextWhiteSpaceOrComma] crosses no
    white space, comma or null; [SkipLine] crosses no null, and no line feed
    but the last byte it crosses. *)
Theorem primitives_cross_only (buf : list ascii) (c : Cursor) (d : ascii) :
  (forall i, c_str c <= i < c_str (SkipWhitespace buf c) ->
             isspace (char_at buf i) = true) /\
  (forall i, c_str c <= i < c_str (AdvanceToNext buf d c).2 ->
             char_at buf i <> NUL /\ char_at buf i <> d) /\
  (forall i, c_str c <= i < c_str (AdvanceToNextNonAlphanumeric buf c).2 ->
             isalnum (char_at buf i) = true) /\
  (forall i, c_str c <= i < c_str (AdvanceToNextWhiteSpaceOrComma buf c).2 ->
             char_at buf i <> NUL /\ isspace (char_at buf i) = false /\
             char_at buf i <> ",") /\
  (forall i, c_str c <= i < c_str (SkipLine buf c) ->
             char_at buf i <> NUL /\
             (S i < c_str (SkipLine buf c) -> char_at buf i <> "010")).
Proof.
  split; [|split; [|split; [|split]]]; intros i Hi.
  - rewrite SkipWhitespace_scan in *.
    pose proof (scan_while_buf isspace eq_refl buf c) as Hs. cbv zeta in Hs.
    by apply Hs.
  - rewrite AdvanceToNext_scan, scan_found_buf in * by done.
    pose proof (scan_while_buf (until_char d) eq_refl buf c) as Hs.
    cbv zeta in Hs. destruct Hs as (_ & Hin & _).
    by apply (until_char_true d), Hin.
  - rewrite AdvanceToNextNonAlphanumeric_scan, scan_found_buf in * by done.
    pose proof (scan_while_buf while_alnum eq_refl buf c) as Hs.
    cbv zeta in Hs. destruct Hs as (_ & Hin & _).
    specialize (Hin i Hi). unfold while_alnum in Hin.
    by apply andb_true_iff in Hin as [_ Hin].
  - rewrite AdvanceToNextWhiteSpaceOrComma_scan, scan_found_buf in * by done.
    pose proof (scan_while_buf until_space_or_comma eq_refl buf c) as Hs.
    cbv zeta in Hs. destruct Hs as (_ & Hin & _).
    specialize (Hin i Hi). split; [by apply (not_null_andb _ _ Hin)|].
    unfold until_space_or_comma in Hin.
    apply andb_true_iff in Hin as [_ Hin].
    apply negb_true_iff, orb_false_iff in Hin as [Hsp Hco].
    split; [done|]. by apply ascii_eqb_neq.
  - rewrite SkipLine_scan in *. cbv zeta in *.
    pose proof (scan_while_buf until_line_end eq_refl buf c) as Hs.
    cbv zeta in Hs. destruct Hs as (_ & Hin & _).
    set (r := scan_while until_line_end (drop (c_str c) buf) c) in *.
    split.
    + destruct (not_null (char_at buf (c_str r))) eqn:En; cbn [c_str] in *.
      * destruct (decide (i = c_str r)) as [Heq|Hne].
        { rewrite Heq. by apply not_null_true. }
        apply (not_null_andb _ _ (Hin i ltac:(lia))).
      * apply (not_null_andb _ _ (Hin i ltac:(lia))).
    + intros Hlast.
      assert (Hi' : c_str c <= i < c_str r).
      { destruct (not_null (char_at buf (c_str r))); cbn [c_str] in *; lia. }
      specialize (Hin i Hi'). unfold until_line_end in Hin.
      apply andb_true_iff in Hin as [_ Hin]. apply negb_true_iff in Hin.
      intros Hlf. rewrite Hlf in Hin. by vm_compute in Hin.
Qed.

(** * Comments *)

Lemma scan_while_over p s d rest : forall c,
  Forall (fun ch => p ch = true) s ->
  p d = false ->
  c_str (scan_while p (s ++ d :: rest) c) = c_str c + length s.
Proof.
  induction s as [|ch s IH]; intros c Hall Hd; simpl.
  - rewrite Hd. lia.
  - apply Forall_cons in Hall as [Hp Hall]. rewrite Hp.
    rewrite IH by done. simpl. lia.
Qed.

Lemma scan_while_all p s : forall c,
  Forall (fun ch => p ch = true) s ->
  c_str (scan_while p s c) = c_str c + length s.
Proof.
  induction s as [|ch s IH]; intros c Hall; simpl; [lia|].
  apply Forall_cons in Hall as [Hp Hall]. rewrite Hp.
  rewrite IH by done. simpl. lia.
Qed.

Lemma until_line_end_Forall s :
  "010" ∉ s -> NUL ∉ s -> Forall (fun ch => until_line_end ch = true) s.
Proof.
  intros Hl Hn. apply Forall_forall. intros ch Hch.
  assert (H1 : ch <> NUL) by (intros ->; tauto).
  assert (H2 : ch <> "010") by (intros ->; tauto).
  unfold until_line_end. apply not_null_true in H1 as Hnn. rewrite Hnn.
  rewrite IsLineEnd_not_null by done.
  apply ascii_eqb_neq in H2. by rewrite H2.
Qed.

Section Comments.
Context `{Platform}.

(** X21.  A comment is skipped whatever it holds: for bytes [text] without a
    line feed or a null, the pass at the [';'] of [;text] followed by a line
    feed leaves the store as it is, the cursor after the line feed and the
    line counter one higher; brackets, quotes, [=] and [,] in [text] are not
    looked at.  A comment that ends the buffer leaves the cursor at the end
    and the counter as it is. *)
Theorem comment_is_skipped
    (pre text rest : list ascii) (line : Z) (ini : IniFile) :
  "010" ∉ text -> NUL ∉ text ->
  parse_body (pre ++ ";" :: text ++ "010" :: rest) ini
             {| c_str := length pre; c_line := line |}
    = Continue ini {| c_str := length pre + length text + 2;
                      c_line := (line + 1)%Z |} /\
  parse_body (pre ++ ";" :: text) ini
             {| c_str := length pre; c_line := line |}
    = Continue ini {| c_str := length pre + length text + 1;
                      c_line := line |}.
Proof.
  intros Hl Hn.
  assert (Hall : Forall (fun ch => until_line_end ch = true) (";" :: text)).
  { apply until_line_end_Forall; apply not_elem_of_cons; by split. }
  split.
  - unfold parse_body. cbv zeta.
    rewrite SkipWhitespace_not_space
      by (cbn [c_str]; by rewrite char_at_app_cons).
    cbn [c_str c_line]. rewrite char_at_app_cons.
    change (";" =?c ";") with true. cbv iota. f_equal.
    rewrite SkipLine_scan. cbv zeta. cbn [c_str c_line].
    rewrite drop_app_length.
    change (";" :: text ++ "010" :: rest)
      with ((";" :: text) ++ "010" :: rest).
    rewrite (scan_while_over until_line_end (";" :: text) "010" rest)
      by done.
    cbn [c_str length].
    replace (length pre + S (length text))
      with (length (pre ++ ";" :: text))
      by (rewrite length_app; simpl; lia).
    rewrite app_assoc, char_at_app_cons.
    change (not_null "010") with true. cbv iota.
    rewrite length_app. simpl. f_equal. lia.
  - unfold parse_body. cbv zeta.
    rewrite SkipWhitespace_not_space
      by (cbn [c_str]; by rewrite char_at_app_cons).
    cbn [c_str c_line]. rewrite char_at_app_cons.
    change (";" =?c ";") with true. cbv iota. f_equal.
    rewrite SkipLine_scan. cbv zeta. cbn [c_str c_line].
    rewrite drop_app_length.
    rewrite (scan_while_all until_line_end (";" :: text)) by done.
    cbn [c_str length].
    assert (Hend : char_at (pre ++ ";" :: text)
                     (length pre + S (length text)) = NUL).
    { unfold char_at. rewrite lookup_ge_None_2; [done|].
      rewrite length_app. simpl. lia. }
    rewrite Hend. change (not_null NUL) with false. cbv iota.
    f_equal. lia.
Qed.

End Comments.

(** * [getProperty] after [parse] *)

Lemma scan_keys_in_range values keys key ret : forall todo i,
  i + todo <= length keys ->
  exists p, scan_keys values keys key i todo ret = Some p.
Proof.
  induction todo as [|todo IH]; intros i Hle; simpl; [by eauto|].
  destruct (lookup_lt_is_Some_2 keys i ltac:(lia)) as [k Hk]. rewrite Hk.
  destruct (Key.m_key k =? key)%Z; [by eauto|].
  apply IH. lia.
Qed.

Section LookupAfterParse.
Context `{Platform}.

(** X22.  [getProperty] reads within the key list: on a store whose sections
    partition the key list, and so on every store that a call of [parse] on
    such a store leaves (with [kOk] or with [kSyntax]), [getProperty] returns
    a view for every key name and every section name, no access being out of
    range. *)
Theorem getProperty_reads_within_keys
    (ini : IniFile) (_key : list ascii) (_section : option (list ascii)) :
  sections_partition ini ->
  (exists p, getProperty ini _key _section = Some p) /\
  (forall fuel buf r,
     parse fuel buf ini = Some r ->
     exists p, getProperty (r_ini r) _key _section = Some p).
Proof.
  intros Hp. apply sections_partition_ok in Hp.
  assert (Hget : forall ini', sections_ok ini' ->
            exists p, getProperty ini' _key _section = Some p).
  { intros ini' Hok. unfold getProperty, getPropertyH. cbv zeta.
    destruct (search_range ini' _) as [koff kcount] eqn:Hr.
    apply scan_keys_in_range.
    by apply (search_range_bounds ini' _ koff kcount Hok Hr). }
  split; [by apply Hget|].
  intros fuel buf r Hr. apply Hget. unfold parse in Hr.
  pose proof (loop_inv_run fuel buf _ start (loop_inv_init ini Hp))
    as [Hok _].
  destruct (run fuel buf (parse_init ini) start) as [|r'] eqn:Hrun; [done|].
  by simplify_eq.
Qed.

End LookupAfterParse.

(** * What [parse] returns *)

Section ParseReturns.
Context `{Platform}.

Lemma parse_body_messages buf ini c line msg ini' :
  parse_body buf ini c = SyntaxError line msg ini' ->
  msg ∈ ["Unterminated section";
         "Unexpected '=' or ',' no property name was specified";
         "Unterminated string"; "Invalid value";
         "Invalid array (arrays must be homogeneous)";
         "Property names cannot begin with a number";
         "Unexpected end of file"]%string.
Proof.
  unfold parse_body. cbv zeta.
  destruct (_ =?c ";"); [done|].
  destruct (_ =?c "[").
  { destruct (AdvanceToNext _ _ _) as [found c1].
    destruct found; cbn [negb]; [done|]. intros Heq. simplify_eq.
    apply list_elem_of_here. }
  destruct (_ || _).
  { unfold parse_assignment. destruct (last _) as [k|].
    - cbv zeta. destruct (scan_value _ _) as [ty v c1| |].
      + destruct (_ && _); [|done]. intros Heq. simplify_eq.
        do 4 apply list_elem_of_further. apply list_elem_of_here.
      + intros Heq. simplify_eq.
        do 2 apply list_elem_of_further. apply list_elem_of_here.
      + intros Heq. simplify_eq.
        do 3 apply list_elem_of_further. apply list_elem_of_here.
    - intros Heq. simplify_eq.
      apply list_elem_of_further, list_elem_of_here. }
  destruct (negb _); [|done].
  destruct (isdigit _).
  { intros Heq. simplify_eq.
    do 5 apply list_elem_of_further. apply list_elem_of_here. }
  destruct (AdvanceToNextNonAlphanumeric _ _) as [found c1].
  destruct found; cbn [negb]; [done|]. intros Heq. simplify_eq.
  do 6 apply list_elem_of_further. apply list_elem_of_here.
Qed.

Lemma run_result_shape buf : forall n ini c r,
  run n buf ini c = inr r ->
  (r_error r = kOk /\ r_log r = None /\
   exists m c', m < n /\ run m buf ini c = inl (r_ini r, c') /\
                char_at buf (c_str c') = NUL) \/
  (r_error r = kSyntax /\
   exists line msg, r_log r = Some (line, msg) /\
     msg ∈ ["Unterminated section";
            "Unexpected '=' or ',' no property name was specified";
            "Unterminated string"; "Invalid value";
            "Invalid array (arrays must be homogeneous)";
            "Property names cannot begin with a number";
            "Unexpected end of file"]%string).
Proof.
  induction n as [|n IH]; intros ini c r Hr; simpl in Hr; [done|].
  destruct (char_at buf (c_str c) =?c NUL) eqn:En.
  - simplify_eq. left. split; [done|]. split; [done|].
    exists 0, c. split; [lia|]. split; [done|]. by apply ascii_eqb_eq.
  - destruct (parse_body buf ini c) as [ini1 c1|line msg ini1] eqn:Hb.
    + destruct (IH ini1 c1 r Hr) as [(He & Hl & m & c' & Hm & Hrun & Hc)|Hs];
        [|by right].
      left. split; [done|]. split; [done|].
      exists (S m), c'. split; [lia|]. split; [|done].
      simpl. by rewrite En, Hb.
    + simplify_eq. right. split; [done|]. exists line, msg. split; [done|].
      by apply (parse_body_messages buf ini c line msg ini1).
Qed.

(** X23.  What a call of [parse] that returns has done.  Either it returns
    [kOk], has logged nothing, and the store it leaves is the one with which
    the loop reached the terminating null: the whole buffer was read.  Or it
    returns [kSyntax] and has logged one of seven messages. *)
Theorem parse_returns_ok_or_logs
    (fuel : nat) (buf : list ascii) (ini : IniFile) (r : ParseResult) :
  parse fuel buf ini = Some r ->
  (r_error r = kOk /\ r_log r = None /\
   exists m c', m < fuel /\
                run m buf (parse_init ini) start = inl (r_ini r, c') /\
                char_at buf (c_str c') = NUL) \/
  (r_error r = kSyntax /\
   exists line msg, r_log r = Some (line, msg) /\
     msg ∈ ["Unterminated section";
            "Unexpected '=' or ',' no property name was specified";
            "Unterminated string"; "Invalid value";
            "Invalid array (arrays must be homogeneous)";
            "Property names cannot begin with a number";
            "Unexpected end of file"]%string).
Proof.
  unfold parse. intros Hr.
  destruct (run fuel buf (parse_init ini) start) as [|r'] eqn:Hrun; [done|].
  simplify_eq. by apply (run_result_shape buf fuel _ start).
Qed.

End ParseReturns.

(** * The further properties on concrete inputs *)

Lemma parse_cursor_within_buffer_witness :
  let buf := buffer "a = 1, 2, 3" in
  exists ini' c',
    @run reference_platform 3 buf
       (@parse_init reference_platform empty_ini) start = inl (ini', c') /\
    c_str c' = 8 /\ c_str c' <= strlen buf.
Proof.
  intros buf.
  destruct (@run reference_platform 3 buf
              (@parse_init reference_platform empty_ini) start)
    as [[ini' c']|r] eqn:Hrun; [|vm_compute in Hrun; discriminate].
  exists ini', c'. split; [reflexivity|]. split.
  - vm_compute in Hrun. by simplify_eq.
  - exact (@parse_cursor_within_buffer reference_platform 3 buf empty_ini
             ini' c' Hrun).
Defined.

Lemma destructor_releases_owned_witness :
  let buf := buffer "s = " ++ quoted "hi" ++ buffer ", " ++ quoted "yo"
             ++ buffer " n = 1 = ?" in
  exists r,
    @parse reference_platform 7 buf empty_ini = Some r /\
    r_error r = kSyntax /\
    values_ok empty_ini /\
    released (r_ini r) = [0; 1] /\
    released (r_ini r) = owned (r_ini r) /\
    NoDup (released (r_ini r)).
Proof.
  intros buf.
  destruct (@parse reference_platform 7 buf empty_ini) as [r|] eqn:Hr;
    [|vm_compute in Hr; discriminate].
  exists r. split; [reflexivity|].
  assert (Hlog : r_error r = kSyntax /\
                 r_log r = Some (1%Z, "Invalid value"%string) /\
                 released (r_ini r) = [0; 1]).
  { vm_compute in Hr. by simplify_eq. }
  destruct Hlog as (He & Hlog & Hrel).
  split; [exact He|]. split; [exact values_ok_empty|]. split; [exact Hrel|].
  destruct (@destructor_releases_owned reference_platform 7 buf empty_ini r
              values_ok_empty Hr) as (_ & Heq & Hnd).
  - intros line. rewrite Hlog. discriminate.
  - intros line. rewrite Hlog. discriminate.
  - split; [exact Heq|exact Hnd].
Defined.

Lemma getProperty_view_readable_witness :
  values_ok store_x_5 /\
  @getProperty reference_platform store_x_5 (buffer "x") None
    = Some (Property.mk (Some kInt) 1 (Some 0)) /\
  0 + 1 <= length (m_values store_x_5) /\
  forall j, 0 <= j < 0 + 1 ->
    exists v, m_values store_x_5 !! j = Some v /\
              Some kInt = Some (type_of v).
Proof.
  assert (Hok : values_ok store_x_5).
  { split; [by split|]. split; [done|].
    apply Forall_cons. split; [|constructor].
    intros j v Hj Hv. simpl in Hj. assert (j = 0) by lia. subst j.
    simpl in Hv. by simplify_eq. }
  assert (Hget : @getProperty reference_platform store_x_5 (buffer "x") None
                   = Some (Property.mk (Some kInt) 1 (Some 0)))
    by reflexivity.
  split; [exact Hok|]. split; [exact Hget|].
  exact (@getProperty_view_readable reference_platform store_x_5 (buffer "x")
           None _ Hok Hget).
Defined.

Lemma getProperty_first_match_witness :
  let unset :=
    push_key (Key.mk (@StringHash reference_platform (buffer "pos2"))
                     None 0 0)
             (@parse_init reference_platform empty_ini) in
  @search_range reference_platform store_a_b_a
     (@kInvalidHash reference_platform) = (0, 3) /\
  m_values store_a_b_a = [VInt 1; VInt 2; VInt 3] /\
  @getProperty reference_platform store_a_b_a (buffer "x") None
    = Some (Property.mk (Some kInt) 1 (Some 0)) /\
  @getProperty reference_platform store_a_b_a (buffer "y") None
    = Some (Property.mk (Some kInt) 1 (Some 2)) /\
  @run reference_platform 1 (buffer "pos2 ")
     (@parse_init reference_platform empty_ini) start
    = inl (unset, mkCursor 4 1) /\
  @getProperty reference_platform unset (buffer "pos2") None
    = Some (Property.mk None 0 None).
Proof.
  intros unset.
  split; [reflexivity|]. split; [reflexivity|]. split; [|split; [|split]].
  - refine (proj2 (@getProperty_first_match reference_platform store_a_b_a
                     (buffer "x") None 0 3 0
                     (Key.mk (@StringHash reference_platform (buffer "x"))
                             (Some kInt) 0 1) _ _ _ _ _) _).
    + reflexivity.
    + lia.
    + reflexivity.
    + reflexivity.
    + intros j k' Hj. lia.
    + simpl. lia.
  - refine (proj2 (@getProperty_first_match reference_platform store_a_b_a
                     (buffer "y") None 0 3 2
                     (Key.mk (@StringHash reference_platform (buffer "y"))
                             (Some kInt) 2 1) _ _ _ _ _) _).
    + reflexivity.
    + lia.
    + reflexivity.
    + reflexivity.
    + intros j k' Hj Hk'.
      destruct j as [|[|j]]; [| |lia]; simpl in Hk'; simplify_eq;
        vm_compute; discriminate.
    + simpl. lia.
  - reflexivity.
  - refine (proj1 (@getProperty_first_match reference_platform unset
                     (buffer "pos2") None 0 1 0
                     (Key.mk (@StringHash reference_platform (buffer "pos2"))
                             None 0 0) _ _ _ _ _)).
    + reflexivity.
    + lia.
    + reflexivity.
    + reflexivity.
    + intros j k' Hj. lia.
Defined.

Lemma search_range_first_section_witness :
  map Sec.m_count (m_sections store_a_b_a) = [0; 1; 1; 1] /\
  @search_range reference_platform store_a_b_a
     (@StringHash reference_platform (buffer "a")) = (0, 1).
Proof.
  split; [reflexivity|].
  apply (@search_range_first_section reference_platform store_a_b_a
           (@StringHash reference_platform (buffer "a")) 1
           (Sec.mk (@StringHash reference_platform (buffer "a")) 1 0)).
  - vm_compute. discriminate.
  - reflexivity.
  - reflexivity.
  - intros j s' Hj Hs'. assert (j = 0) by lia. subst j.
    simpl in Hs'. simplify_eq. vm_compute. discriminate.
Defined.

Lemma parse_stuck_on_stray_byte_witness :
  let buf := buffer "a = 1 # b = 2" in
  stray (char_at buf 6) = true /\
  (exists ini',
     @run reference_platform 4 buf
        (@parse_init reference_platform empty_ini) start
       = inl (ini', mkCursor 6 1) /\
     m_keys ini'
       = [Key.mk (@StringHash reference_platform (buffer "a")) (Some kInt) 0 1;
          Key.mk (@StringHash reference_platform []) None 1 0;
          Key.mk (@StringHash reference_platform []) None 1 0] /\
     map Sec.m_count (m_sections ini') = [3] /\
     m_values ini' = [VInt 1]) /\
  forall fuel, @parse reference_platform fuel buf empty_ini = None.
Proof.
  intros buf. split; [reflexivity|].
  destruct (@run reference_platform 2 buf
              (@parse_init reference_platform empty_ini) start)
    as [[ini c]|r] eqn:Hrun; [|vm_compute in Hrun; discriminate].
  assert (Hini : ini = mkIniFile
                         [Sec.mk (@kInvalidHash reference_platform) 1 0]
                         [Key.mk (@StringHash reference_platform (buffer "a"))
                                 (Some kInt) 0 1]
                         [VInt 1]
                 /\ c = mkCursor 5 1).
  { vm_compute in Hrun. simplify_eq. split; [|reflexivity].
    vm_compute. reflexivity. }
  destruct Hini as [Hini Hc].
  assert (Hs : stray (char_at buf (c_str (SkipWhitespace buf c))) = true)
    by (rewrite Hc; reflexivity).
  destruct (@parse_stuck_on_stray_byte reference_platform buf empty_ini
              ini 2 c Hrun Hs) as [Hstuck Hnone].
  split; [|exact Hnone].
  eexists. split.
  - change 4 with (2 + 2). rewrite (Hstuck 1), Hc. reflexivity.
  - rewrite Hini. split; [reflexivity|]. split; reflexivity.
Defined.

Lemma name_starting_with_digit_witness :
  let buf := buffer "[a] 1st = 2" in
  isdigit (char_at buf 4) = true /\
  exists ini,
    @parse reference_platform 2 buf empty_ini =
      Some (mkResult kSyntax
              (Some (1%Z, "Property names cannot begin with a number"%string))
              ini) /\
    length (m_sections ini) = 2.
Proof.
  intros buf. split; [reflexivity|].
  destruct (@run reference_platform 1 buf
              (@parse_init reference_platform empty_ini) start)
    as [[ini c]|r] eqn:Hrun; [|vm_compute in Hrun; discriminate].
  assert (Hc : c = mkCursor 3 1 /\ length (m_sections ini) = 2)
    by (vm_compute in Hrun; by simplify_eq).
  destruct Hc as [Hc Hlen].
  exists ini. split; [|exact Hlen].
  assert (Hd : isdigit (char_at buf (c_str (SkipWhitespace buf c))) = true)
    by (rewrite Hc; reflexivity).
  rewrite (@name_starting_with_digit reference_platform buf empty_ini ini 1 c
             Hrun Hd 2 ltac:(lia)).
  rewrite Hc. reflexivity.
Defined.

Lemma separator_before_any_key_witness :
  let buf := buffer "[a] = 5" in
  at_separator buf (mkCursor 3 1) = Some (mkCursor 6 1) /\
  exists ini,
    @parse reference_platform 2 buf empty_ini =
      Some (mkResult kSyntax
              (Some (1%Z,
                     "Unexpected '=' or ',' no property name was specified"
                       %string))
              ini) /\
    m_keys ini = [].
Proof.
  intros buf. split; [reflexivity|].
  destruct (@run reference_platform 1 buf
              (@parse_init reference_platform empty_ini) start)
    as [[ini c]|r] eqn:Hrun; [|vm_compute in Hrun; discriminate].
  assert (Hc : c = mkCursor 3 1 /\ m_keys ini = [])
    by (vm_compute in Hrun; by simplify_eq).
  destruct Hc as [Hc Hkeys].
  exists ini. split; [|exact Hkeys].
  assert (Hsep : at_separator buf c = Some (mkCursor 6 1))
    by (rewrite Hc; reflexivity).
  rewrite (@separator_before_any_key reference_platform buf empty_ini ini 1 c
             (mkCursor 6 1) Hrun Hsep Hkeys 2 ltac:(lia)).
  rewrite Hc. reflexivity.
Defined.

Lemma name_at_end_of_buffer_witness :
  let buf := buffer "a = 1 flag" in
  cstr buf 6 = buffer "flag" /\
  exists ini,
    @parse reference_platform 3 buf empty_ini =
      Some (mkResult kSyntax (Some (1%Z, "Unexpected end of file"%string))
                     ini) /\
    length (m_keys ini) = 1.
Proof.
  intros buf. split; [reflexivity|].
  destruct (@run reference_platform 2 buf
              (@parse_init reference_platform empty_ini) start)
    as [[ini c]|r] eqn:Hrun; [|vm_compute in Hrun; discriminate].
  assert (Hc : c = mkCursor 5 1 /\ length (m_keys ini) = 1)
    by (vm_compute in Hrun; by simplify_eq).
  destruct Hc as [Hc Hlen].
  exists ini. split; [|exact Hlen].
  rewrite (@name_at_end_of_buffer reference_platform buf empty_ini ini 2 c
             Hrun) with (fuel := 3).
  - rewrite Hc. reflexivity.
  - rewrite Hc. vm_compute. discriminate.
  - rewrite Hc. vm_compute. repeat constructor.
  - rewrite Hc. reflexivity.
  - lia.
Defined.

Lemma invalid_value_witness :
  let buf := buffer "a = ?" in
  value_start (char_at buf 4) = false /\
  exists ini,
    @parse reference_platform 2 buf empty_ini =
      Some (mkResult kSyntax (Some (1%Z, "Invalid value"%string)) ini) /\
    m_values ini = [].
Proof.
  intros buf. split; [reflexivity|].
  destruct (@run reference_platform 1 buf
              (@parse_init reference_platform empty_ini) start)
    as [[ini c]|r] eqn:Hrun; [|vm_compute in Hrun; discriminate].
  assert (Hc : c = mkCursor 1 1 /\ m_values ini = [] /\
               last (m_keys ini)
                 = Some (Key.mk (@StringHash reference_platform (buffer "a"))
                                None 0 0))
    by (vm_compute in Hrun; by simplify_eq).
  destruct Hc as (Hc & Hvals & Hlast).
  exists ini. split; [|exact Hvals].
  assert (Hsep : at_separator buf c = Some (mkCursor 4 1))
    by (rewrite Hc; reflexivity).
  exact (@invalid_value reference_platform buf empty_ini ini 1 c
           (mkCursor 4 1) _ Hrun Hsep Hlast eq_refl 2 ltac:(lia)).
Defined.

Lemma parse_blank_buffer_witness :
  let buf := " " :: "010" :: "009" :: [" "] in
  Forall (fun ch => isspace ch = true) (cstr buf 0) /\
  @parse reference_platform 2 buf store_x_5
    = Some (mkResult kOk None store_x_5).
Proof.
  intros buf.
  assert (Hall : Forall (fun ch => isspace ch = true) (cstr buf 0))
    by (vm_compute; repeat constructor).
  split; [exact Hall|].
  exact (@parse_blank_buffer reference_platform buf store_x_5 Hall 2
           ltac:(lia)).
Defined.

Lemma quoted_string_read_back_witness :
  let s := buffer "a [b] = c, ; d" in
  (QUOTE ∉ s) /\ (NUL ∉ s) /\
  @scan_value reference_platform (buffer "k = " ++ quoted "a [b] = c, ; d")
     (mkCursor 4 1)
    = ScanValue kString (VString s) (mkCursor 20 1).
Proof.
  intros s.
  assert (Hq : QUOTE ∉ s).
  { vm_compute. intros Hin.
    repeat (apply elem_of_cons in Hin as [Hin|Hin]; [discriminate|]).
    by apply elem_of_nil in Hin. }
  assert (Hn : NUL ∉ s).
  { vm_compute. intros Hin.
    repeat (apply elem_of_cons in Hin as [Hin|Hin]; [discriminate|]).
    by apply elem_of_nil in Hin. }
  split; [exact Hq|]. split; [exact Hn|].
  exact (@quoted_string_read_back reference_platform (buffer "k = ") s []
           1%Z Hq Hn).
Defined.

Lemma section_header_read_back_witness :
  let name := buffer " graphics card " in
  let ini := @parse_init reference_platform empty_ini in
  ("]" ∉ name) /\ (NUL ∉ name) /\
  @parse_body reference_platform (buffer "[ graphics card ] x = 1") ini start
    = Continue
        (push_section (Sec.mk (@StringHash reference_platform name) 0 0) ini)
        (mkCursor 17 1).
Proof.
  intros name ini.
  assert (Hb : "]" ∉ name).
  { vm_compute. intros Hin.
    repeat (apply elem_of_cons in Hin as [Hin|Hin]; [discriminate|]).
    by apply elem_of_nil in Hin. }
  assert (Hn : NUL ∉ name).
  { vm_compute. intros Hin.
    repeat (apply elem_of_cons in Hin as [Hin|Hin]; [discriminate|]).
    by apply elem_of_nil in Hin. }
  split; [exact Hb|]. split; [exact Hn|].
  exact (proj1 (@section_header_read_back reference_platform [] name
                  (buffer " x = 1") 1%Z ini Hb Hn)).
Defined.

Lemma parse_line_counter_witness :
  let buf := buffer "a = 1" ++ "010" :: buffer "b = ?" in
  exists r,
    @parse reference_platform 4 buf empty_ini = Some r /\
    r_log r = Some (2%Z, "Invalid value"%string) /\
    exists p, p <= strlen buf /\ 2%Z = line_of buf p.
Proof.
  intros buf.
  destruct (@parse reference_platform 4 buf empty_ini) as [r|] eqn:Hr;
    [|vm_compute in Hr; discriminate].
  assert (Hlog : r_log r = Some (2%Z, "Invalid value"%string))
    by (vm_compute in Hr; by simplify_eq).
  exists r. split; [reflexivity|]. split; [exact Hlog|].
  exact (proj2 (@parse_line_counter reference_platform buf empty_ini)
               4 r 2%Z "Invalid value"%string Hr Hlog).
Defined.

Lemma parse_extends_store_witness :
  exists r,
    @parse reference_platform 3 (buffer "y = 2") store_x_5 = Some r /\
    r_error r = kOk /\
    extends store_x_5 (r_ini r).
Proof.
  destruct (@parse reference_platform 3 (buffer "y = 2") store_x_5)
    as [r|] eqn:Hr; [|vm_compute in Hr; discriminate].
  exists r. split; [reflexivity|]. split.
  - vm_compute in Hr. by simplify_eq.
  - exact (@parse_extends_store reference_platform 3 (buffer "y = 2")
             store_x_5 r Hr).
Defined.

Lemma ContainsAny_any_range_witness :
  let buf := buffer "15e3, 2.5" in
  let set := buffer ".eEnN" in
  (0 <= 4 /\ ContainsAny buf 0 4 set = true) /\
  (0 <= 2 /\ ContainsAny buf 0 2 set = false) /\
  (2 < 6 /\ ContainsAny buf 6 2 set = true).
Proof.
  intros buf set. split; [|split].
  - split; [lia|].
    rewrite (proj1 (ContainsAny_any_range buf 0 4 set)) by lia. reflexivity.
  - split; [lia|].
    rewrite (proj1 (ContainsAny_any_range buf 0 2 set)) by lia. reflexivity.
  - split; [lia|].
    rewrite (proj2 (ContainsAny_any_range buf 6 2 set)) by lia. reflexivity.
Defined.

Lemma primitives_keep_line_counter_witness :
  let buf := " " :: "010" :: "010" :: buffer "x = 5" in
  c_str start <= strlen buf /\
  c_line start = line_of buf (c_str start) /\
  SkipWhitespace buf start = mkCursor 3 3 /\
  c_line (SkipWhitespace buf start)
    = line_of buf (c_str (SkipWhitespace buf start)).
Proof.
  intros buf.
  assert (Hle : c_str start <= strlen buf) by (vm_compute; lia).
  assert (Hl : c_line start = line_of buf (c_str start)) by reflexivity.
  split; [exact Hle|]. split; [exact Hl|]. split; [reflexivity|].
  exact (proj1 (primitives_keep_line_counter buf start "=" Hle Hl)).
Defined.

Lemma property_name_read_back_witness :
  let ini := @parse_init reference_platform empty_ini in
  Forall (fun ch => isalnum ch = true) (buffer "pos2") /\
  isdigit "p" = false /\ isalnum "=" = false /\ "="%char <> NUL /\
  @parse_body reference_platform (buffer "pos2= 1") ini start
    = Continue
        (push_key (Key.mk (@StringHash reference_platform (buffer "pos2"))
                          None 0 0) ini)
        (mkCursor 4 1) /\
  @getProperty reference_platform
     (push_key (Key.mk (@StringHash reference_platform (buffer "pos2"))
                       None 0 0) ini)
     (buffer "pos2") None
    = Some (Property.mk None 0 None) /\
  @getProperty reference_platform
     (push_key (Key.mk (@StringHash reference_platform (buffer "pos2"))
                       None 1 0) store_x_5)
     (buffer "pos2") None
    = Some (Property.mk None 0 (Some 1)).
Proof.
  intros ini.
  assert (Hall : Forall (fun ch => isalnum ch = true) (buffer "pos2"))
    by (repeat constructor).
  assert (Hne : "="%char <> NUL) by discriminate.
  split; [exact Hall|]. split; [reflexivity|]. split; [reflexivity|].
  split; [exact Hne|].
  destruct (@property_name_read_back reference_platform [] (buffer "os2")
              (buffer " 1") "p" "=" 1%Z ini Hall eq_refl eq_refl Hne)
    as [Hbody Hget].
  split; [exact Hbody|]. split.
  - apply Hget. intros k Hk. by apply elem_of_nil in Hk.
  - apply (proj2 (@property_name_read_back reference_platform []
                    (buffer "os2") (buffer " 1") "p" "=" 1%Z store_x_5
                    Hall eq_refl eq_refl Hne)).
    intros k Hk. apply list_elem_of_singleton in Hk. subst k.
    vm_compute. discriminate.
Defined.

Lemma property_stored_then_found_witness :
  (exists ini',
     @run reference_platform 4 (buffer "a = 1, 2, 3")
        (@parse_init reference_platform empty_ini) start
       = inl (ini', mkCursor 11 1) /\
     m_values ini' = [VInt 1; VInt 2; VInt 3] /\
     @getProperty reference_platform ini' (buffer "a") None
       = Some (Property.mk (Some kInt) 3 (Some 0))) /\
  (exists ini',
     @run reference_platform 1 (buffer "pos2 ")
        (@parse_init reference_platform empty_ini) start
       = inl (ini', mkCursor 4 1) /\
     m_values ini' = [] /\
     @getProperty reference_platform ini' (buffer "pos2") None
       = Some (Property.mk None 0 None)).
Proof.
  split.
  - set (buf := buffer "a = 1, 2, 3").
    set (tvs := [(kInt, VInt 1); (kInt, VInt 2); (kInt, VInt 3)]).
    destruct (@property_stored_then_found reference_platform buf empty_ini
                (@parse_init reference_platform empty_ini) 0 start
                (mkCursor 1 1) (mkCursor 11 1) (buffer "a") tvs kInt)
      as (ini' & Hrun & Hvals & Hget).
    + reflexivity.
    + reflexivity.
    + exists (mkCursor 5 1). split; [reflexivity|].
      exists (mkCursor 8 1). split; [reflexivity|].
      exists (mkCursor 11 1). split; reflexivity.
    + by repeat constructor.
    + intros k Hk. by apply elem_of_nil in Hk.
    + exists ini'. split; [exact Hrun|]. split; [exact Hvals|].
      rewrite Hvals in Hget. exact Hget.
  - destruct (@property_stored_then_found reference_platform (buffer "pos2 ")
                empty_ini (@parse_init reference_platform empty_ini) 0 start
                (mkCursor 4 1) (mkCursor 4 1) (buffer "pos2") [] kInt)
      as (ini' & Hrun & Hvals & Hget).
    + reflexivity.
    + reflexivity.
    + reflexivity.
    + constructor.
    + intros k Hk. by apply elem_of_nil in Hk.
    + exists ini'. split; [exact Hrun|]. split; [exact Hvals|].
      rewrite Hvals in Hget. exact Hget.
Defined.

Lemma comment_is_skipped_witness :
  let text := buffer " [x] = 1, 2" ++ [QUOTE] in
  ("010"%char ∉ text) /\ (NUL ∉ text) /\
  @parse_body reference_platform
     (buffer "a = 1 " ++ ";" :: text ++ "010" :: buffer "b = 2")
     store_x_5 (mkCursor 6 1)
    = Continue store_x_5 (mkCursor 20 2).
Proof.
  intros text.
  assert (Hl : "010"%char ∉ text).
  { vm_compute. intros Hin.
    repeat (apply elem_of_cons in Hin as [Hin|Hin]; [discriminate|]).
    by apply elem_of_nil in Hin. }
  assert (Hn : NUL ∉ text).
  { vm_compute. intros Hin.
    repeat (apply elem_of_cons in Hin as [Hin|Hin]; [discriminate|]).
    by apply elem_of_nil in Hin. }
  split; [exact Hl|]. split; [exact Hn|].
  exact (proj1 (@comment_is_skipped reference_platform (buffer "a = 1 ") text
                  (buffer "b = 2") 1%Z store_x_5 Hl Hn)).
Defined.

Lemma getProperty_reads_within_keys_witness :
  sections_partition empty_ini /\
  forall r,
    @parse reference_platform 7 (buffer "[a] x = 1 [b] y = ?") empty_ini
      = Some r ->
    exists p,
      @getProperty reference_platform (r_ini r) (buffer "y")
         (Some (buffer "b")) = Some p.
Proof.
  assert (Hp : sections_partition empty_ini).
  { repeat split; intros; simpl in *; done. }
  split; [exact Hp|].
  intros r Hr.
  exact (proj2 (@getProperty_reads_within_keys reference_platform empty_ini
                  (buffer "y") (Some (buffer "b")) Hp)
               7 (buffer "[a] x = 1 [b] y = ?") r Hr).
Defined.

Lemma parse_returns_ok_or_logs_witness :
  exists r,
    @parse reference_platform 3 (buffer "x = 5") empty_ini = Some r /\
    r_error r = kOk /\ r_log r = None /\
    exists m c', m < 3 /\
      @run reference_platform m (buffer "x = 5")
         (@parse_init reference_platform empty_ini) start
        = inl (r_ini r, c') /\
      char_at (buffer "x = 5") (c_str c') = NUL.
Proof.
  destruct (@parse reference_platform 3 (buffer "x = 5") empty_ini)
    as [r|] eqn:Hr; [|vm_compute in Hr; discriminate].
  assert (He : r_error r = kOk) by (vm_compute in Hr; by simplify_eq).
  exists r. split; [reflexivity|].
  destruct (@parse_returns_ok_or_logs reference_platform 3 (buffer "x = 5")
              empty_ini r Hr) as [(_ & Hlog & Hrun)|(Hs & _)].
  - split; [exact He|]. split; [exact Hlog|exact Hrun].
  - rewrite He in Hs. discriminate.
Defined.
